(** * The encode engine of the codec package (codec/encode.go)

    A shallow embedding of the dispatch and traversal engine: the
    [Encoder], its driver calls (kept as a trace of events), the
    reflection values it walks, and the [k...] handlers, with the panics
    of the Go code as an explicit error result. *)

From Stdlib Require Import ZArith NArith List Bool String Ascii Lia.
From Stdlib Require Import Sorting.Sorted Sorting.Permutation.
From Stdlib Require Import Floats.SpecFloat.
Import ListNotations.

Set Warnings "-register-all".
Local Open Scope Z_scope.

(** ** Reflection: kinds, types and values *)

(** [reflect.Kind]. *)
Inductive kind : Type :=
| Invalid | Bool
| Int | Int8 | Int16 | Int32 | Int64
| Uint | Uint8 | Uint16 | Uint32 | Uint64 | Uintptr
| Float32 | Float64 | Complex64 | Complex128
| Array | Chan | Func | Interface | Map | Ptr | Slice | String | Struct
| UnsafePointer.

Definition kind_eqb (a b : kind) : bool :=
  match a, b with
  | Invalid, Invalid | Bool, Bool | Int, Int | Int8, Int8 | Int16, Int16
  | Int32, Int32 | Int64, Int64 | Uint, Uint | Uint8, Uint8
  | Uint16, Uint16 | Uint32, Uint32 | Uint64, Uint64 | Uintptr, Uintptr
  | Float32, Float32 | Float64, Float64 | Complex64, Complex64
  | Complex128, Complex128 | Array, Array | Chan, Chan | Func, Func
  | Interface, Interface | Map, Map | Ptr, Ptr | Slice, Slice
  | String, String | Struct, Struct | UnsafePointer, UnsafePointer => true
  | _, _ => false
  end.

(** [reflect.Type].  A type is named by an identifier together with its
    kind; pointer types also carry their element type, which is the only
    structure the engine takes apart ([rtelem.Elem()] in [kSeqFn] and
    [kMap]).  Identifier 0 is the predeclared (or unnamed) type of a
    kind. *)
Inductive rtype : Type :=
| Rt (id : N) (k : kind)
| RtPtr (id : N) (elem : rtype).

Fixpoint rtype_eqb (a b : rtype) : bool :=
  match a, b with
  | Rt i k, Rt j l => N.eqb i j && kind_eqb k l
  | RtPtr i x, RtPtr j y => N.eqb i j && rtype_eqb x y
  | _, _ => false
  end.

Definition Kind (rt : rtype) : kind :=
  match rt with
  | Rt _ k => k
  | RtPtr _ _ => Ptr
  end.

Definition stringTyp : rtype := Rt 0 String.
Definition uint8Typ : rtype := Rt 0 Uint8.
(** [[]byte], [Raw] (declared as [type Raw []byte]) and [time.Time]. *)
Definition uint8SliceTyp : rtype := Rt 0 Slice.
Definition rawTyp : rtype := Rt 1 Slice.
Definition timeTyp : rtype := Rt 0 Struct.

Inductive intKind : Type := IInt | IInt8 | IInt16 | IInt32 | IInt64.
Inductive uintKind : Type :=
  UUint | UUint8 | UUint16 | UUint32 | UUint64 | UUintptr.
Inductive floatKind : Type := F32 | F64.

Definition kindOfInt (k : intKind) : kind :=
  match k with
  | IInt => Int | IInt8 => Int8 | IInt16 => Int16
  | IInt32 => Int32 | IInt64 => Int64
  end.

Definition kindOfUint (k : uintKind) : kind :=
  match k with
  | UUint => Uint | UUint8 => Uint8 | UUint16 => Uint16
  | UUint32 => Uint32 | UUint64 => Uint64 | UUintptr => Uintptr
  end.

Definition kindOfFloat (k : floatKind) : kind :=
  match k with F32 => Float32 | F64 => Float64 end.

(** [time.Time]: the instant (nanoseconds) and the location it is shown
    in.  Two values of one instant in two locations are different map
    keys that [Before] does not order. *)
Record Time : Type := mkTime { instant : Z; location : N }.

(** [reflect.Value].  Every value but the invalid one carries the
    identifier of its type; the constructor fixes the kind.  A non-nil
    pointer holds an address: what it points to lives in the heap, so
    that two pointers may alias and a structure may reach itself.  A
    map is the list of its entries in the order an iteration yields
    them, a channel the list of elements a drain receives. *)
Inductive value : Type :=
| VInvalid
| VBool (id : N) (b : bool)
| VInt (id : N) (k : intKind) (i : Z)
| VUint (id : N) (k : uintKind) (u : Z)
| VFloat (id : N) (k : floatKind) (f : spec_float)
| VComplex (id : N) (wide : bool) (re im : spec_float)
| VString (id : N) (s : string)
| VFunc (id : N) (isnil : bool)
| VUnsafePointer (id : N)
| VPtr (id : N) (elem : rtype) (p : option N)
| VInterface (id : N) (o : option value)
| VSlice (id : N) (o : option (list value))
| VArray (id : N) (l : list value)
| VMap (id : N) (o : option (list (value * value)))
| VChan (id : N) (o : option (list value))
| VStruct (id : N) (fs : list value)
| VTime (t : Time).

(** [rv.Kind()]. *)
Definition rvKind (rv : value) : kind :=
  match rv with
  | VInvalid => Invalid
  | VBool _ _ => Bool
  | VInt _ k _ => kindOfInt k
  | VUint _ k _ => kindOfUint k
  | VFloat _ k _ => kindOfFloat k
  | VComplex _ w _ _ => if w then Complex128 else Complex64
  | VString _ _ => String
  | VFunc _ _ => Func
  | VUnsafePointer _ => UnsafePointer
  | VPtr _ _ _ => Ptr
  | VInterface _ _ => Interface
  | VSlice _ _ => Slice
  | VArray _ _ => Array
  | VMap _ _ => Map
  | VChan _ _ => Chan
  | VStruct _ _ => Struct
  | VTime _ => Struct
  end.

(** [rvType(rv)]; the invalid value has no type (Go panics), the model
    gives it the type of kind [Invalid]. *)
Definition rvType (rv : value) : rtype :=
  match rv with
  | VInvalid => Rt 0 Invalid
  | VPtr id elem _ => RtPtr id elem
  | VTime _ => timeTyp
  | VBool id _ | VInt id _ _ | VUint id _ _ | VFloat id _ _
  | VComplex id _ _ _ | VString id _ | VFunc id _ | VUnsafePointer id
  | VInterface id _ | VSlice id _ | VArray id _ | VMap id _
  | VChan id _ | VStruct id _ => Rt id (rvKind rv)
  end.

(** [rvIsNil(rv)]. *)
Definition rvIsNil (rv : value) : bool :=
  match rv with
  | VPtr _ _ None | VInterface _ None | VSlice _ None | VMap _ None
  | VChan _ None | VFunc _ true => true
  | _ => false
  end.

(** An [interface{}] handed to [Encode]: nil, a concrete value, or a
    [reflect.Value] passed as such (what [kMapCanonical] does with its
    keys). *)
Inductive iface : Type :=
| INil
| IVal (v : value)
| IReflect (rv : value).

(** The identity of a pointer on the circular-reference stack: the
    interface made from the pointer, that is its type and its address
    (see the comment on the [ci] field). *)
Definition sptrT : Type := (rtype * N)%type.

Definition eq4i (a b : sptrT) : bool :=
  rtype_eqb (fst a) (fst b) && N.eqb (snd a) (snd b).

(** ** The driver and the output trace *)

(** A byte slice, one 8-bit integer per byte. *)
Definition bytes : Type := list Z.

(** The value-writing methods of [encDriver].  The engine guarantees the
    sequence and nesting of these calls, not a byte layout, so a call is
    recorded as the call itself. *)
Inductive prim : Type :=
| EncodeNil
| EncodeInt (i : Z)
| EncodeUint (u : Z)
| EncodeBool (b : bool)
| EncodeFloat32 (f : spec_float)
| EncodeFloat64 (f : spec_float)
| EncodeRawExt (re : value)
| EncodeExt (v : value) (xtag : Z)
| EncodeString (s : string)
| EncodeStringBytesRaw (v : bytes)
| EncodeTime (t : Time)
| WriteArrayStart (length : Z)
| WriteArrayEnd
| WriteMapStart (length : Z)
| WriteMapEnd.

(** Everything an [Encoder] sends out: driver calls, the separator
    calls of [encDriverContainerTracker] (made for JSON only), the
    direct writes [encWr.writeb] and [encWr.writeqstr], and the two
    finalization steps [atEndOfEncode] and [w().end()]. *)
Inductive event : Type :=
| Drv (p : prim)
| WriteArrayElem
| WriteMapElemKey
| WriteMapElemValue
| Writeb (bs : bytes)
| Writeqstr (s : string)
| AtEndOfEncode
| WriterEnd.

Coercion Drv : prim >-> event.

(** The failures of an encode (section 7 of the specification), each
    raised in the Go code by [errorf], [onerror] or [halt], and the
    run-time panic of a reflection call on a value of the wrong shape. *)
Inductive error : Type :=
| UninitializedEncoder        (* errEncoderNotInitialized *)
| NoFormatHandle              (* errNoFormatHandle *)
| UnsupportedValue            (* "unsupported kind %s, for %#v" *)
| CircularReference           (* "circular reference found: %p, %T" *)
| MalformedFlattenedSequence  (* "mapBySlice requires even slice length" *)
| RawDisallowed               (* "Raw values cannot be encoded: %v" *)
| SendOnlyChannel             (* "send-only channel cannot be encoded" *)
| CustomMarshalFailure        (* a marshal method returned an error *)
| InvalidKeyEncoding          (* must.Int, must.Uint, must.Float *)
| InvalidStructKeyType        (* "invalid struct key type: %v" *)
| ReflectPanic.

(** The container context [e.c]. *)
Inductive containerState : Type :=
| containerNone
| containerMapStart | containerMapKey | containerMapValue
| containerArrayStart | containerArrayElem.

(** The fields of [Encoder] that an encode reads or writes.  [calls]
    and [c] are declared with [encWr], outside this file; the counter
    is kept as a natural number. *)
Record Encoder : Type := mkEncoder {
  out : list event;
  ci : list sptrT;
  c : containerState;
  calls : nat;
  err : option error;
  hh : bool;
  js : bool
}.

Definition emit (ev : event) (e : Encoder) : Encoder :=
  mkEncoder (out e ++ [ev]) (ci e) (c e) (calls e) (err e) (hh e) (js e).

Definition set_c (s : containerState) (e : Encoder) : Encoder :=
  mkEncoder (out e) (ci e) s (calls e) (err e) (hh e) (js e).

Definition set_ci (l : list sptrT) (e : Encoder) : Encoder :=
  mkEncoder (out e) l (c e) (calls e) (err e) (hh e) (js e).

Definition set_calls (n : nat) (e : Encoder) : Encoder :=
  mkEncoder (out e) (ci e) (c e) n (err e) (hh e) (js e).

Definition set_err (x : option error) (e : Encoder) : Encoder :=
  mkEncoder (out e) (ci e) (c e) (calls e) x (hh e) (js e).

(** The outcome of a piece of the traversal: it returns with the new
    state of the encoder, it panics (the state is the one the panic
    leaves behind: what was written stays written), or the fuel of the
    model is used up, which stands for a traversal that does not end. *)
Inductive result : Type :=
| Ok (e : Encoder)
| Panic (x : error) (e : Encoder)
| OutOfFuel.

Definition bind (r : result) (k : Encoder -> result) : result :=
  match r with
  | Ok e => k e
  | Panic x e => Panic x e
  | OutOfFuel => OutOfFuel
  end.

Declare Scope enc_scope.
Delimit Scope enc_scope with enc.
Notation "e <- r ;; k" := (bind r (fun e => k))
  (at level 100, r at next level, right associativity) : enc_scope.
Local Open Scope enc_scope.

(** ** Type descriptors and strategies *)

Inductive valueType : Type :=
| valueTypeString | valueTypeInt | valueTypeUint | valueTypeFloat
| valueTypeOther.

(** [structFieldInfo] with the parts of its [path] the encoder reads;
    the access path is the position of the field in the struct. *)
Record structFieldInfo : Type := mkSfi {
  encName : string;
  omitEmpty : bool;
  encNameAsciiAlphaNum : bool;
  fieldIndex : nat
}.

Record typeInfo : Type := mkTypeInfo {
  rtid : rtype;
  elem : rtype;
  key : rtype;
  chandir : Z;
  mbs : bool;
  toArray : bool;
  keyType : valueType;
  sfiSrc : list structFieldInfo;
  sfiSort : list structFieldInfo;
  flagMissingFielder : bool;
  flagMissingFielderPtr : bool;
  infoFieldOmitempty : bool
}.

(** The methods a [codecFn] can be bound to ([fn.fe]). *)
Inductive encFunc : Type :=
| fe_rawExt | fe_ext | fe_selferMarshal
| fe_binaryMarshal | fe_textMarshal | fe_jsonMarshal | fe_raw
| fe_kBool | fe_kTime | fe_kString | fe_kFloat64 | fe_kFloat32
| fe_kInt | fe_kInt8 | fe_kInt16 | fe_kInt32 | fe_kInt64
| fe_kUint | fe_kUint8 | fe_kUint16 | fe_kUint32 | fe_kUint64
| fe_kUintptr
| fe_kErr | fe_kChan | fe_kSlice | fe_kArray
| fe_kStruct | fe_kStructNoOmitempty | fe_kMap.

Record codecFnInfo : Type := mkCodecFnInfo {
  ti : typeInfo;
  xfTag : Z;
  addrE : bool;
  addrEf : bool
}.

Record codecFn : Type := mkCodecFn {
  i : codecFnInfo;
  fe : encFunc
}.

(** [BasicHandle]: the [EncodeOptions] and the two per-type lookups,
    [h.fn] (the codec function cache) and [h.getTypeInfo] (the type
    registry), both built outside this file. *)
Record BasicHandle : Type := mkHandle {
  ChanRecvTimeout : Z;
  StructToArray : bool;
  Canonical : bool;
  CheckCircularRef : bool;
  RecursiveEmptyCheck : bool;
  Raw : bool;
  StringToRaw : bool;
  OptimumSize : bool;
  fn : rtype -> codecFn;
  getTypeInfo : rtype -> typeInfo
}.

(** What a strategy is called on: the value, or its address
    ([rv.Addr()], or the address of a throwaway copy). *)
Inductive feArg : Type :=
| ByValue (rv : value)
| ByAddr (rv : value).

(** What a [CodecEncodeSelf] method does with the encoder it is given:
    it writes primitives and it encodes further values with
    [MustEncode].  A method that resets the encoder, or that calls
    [Encode] and goes on after an error, is not modelled. *)
Inductive action : Type :=
| ADriver (p : prim)
| AMustEncode (iv : iface).

(** The memory the values live in and the code the engine calls but
    does not contain: the methods of user types, addressability, the
    number parsers of [strconv], the identifier [reflect.SliceOf] gives
    the slice type of an element type, and the bytes the wire-format driver
    writes for a run of events. *)
Record World : Type := mkWorld {
  heap : rtype -> N -> value;
  CanAddr : value -> bool;
  CodecEncodeSelf : feArg -> list action;
  MarshalBinary : feArg -> option bytes * bool;
  MarshalText : feArg -> option string * bool;
  MarshalJSON : feArg -> option bytes * bool;
  CodecMissingFields : value -> list (string * iface);
  ParseInt : string -> option Z;
  ParseUint : string -> option Z;
  ParseFloat : string -> option spec_float;
  SliceOf : rtype -> N;
  wire : list event -> bytes
}.

(** ** Reading values *)

Fixpoint mapM {A B : Type} (f : A -> option B) (l : list A)
  : option (list B) :=
  match l with
  | [] => Some []
  | x :: l' =>
      match f x, mapM f l' with
      | Some y, Some ys => Some (y :: ys)
      | _, _ => None
      end
  end.

(** The [rvGet...] readers; [None] is the panic of a reader applied to
    a value of another kind. *)
Definition rvGetBool (rv : value) : option bool :=
  match rv with VBool _ b => Some b | _ => None end.

Definition rvGetString (rv : value) : option string :=
  match rv with VString _ s => Some s | _ => None end.

Definition rvGetTime (rv : value) : option Time :=
  match rv with VTime t => Some t | _ => None end.

Definition rvGetIntK (k : intKind) (rv : value) : option Z :=
  match rv with
  | VInt _ k' n => if kind_eqb (kindOfInt k) (kindOfInt k') then Some n
                   else None
  | _ => None
  end.

Definition rvGetUintK (k : uintKind) (rv : value) : option Z :=
  match rv with
  | VUint _ k' n => if kind_eqb (kindOfUint k) (kindOfUint k') then Some n
                    else None
  | _ => None
  end.

Definition rvGetFloatK (k : floatKind) (rv : value) : option spec_float :=
  match rv with
  | VFloat _ k' f => if kind_eqb (kindOfFloat k) (kindOfFloat k')
                     then Some f else None
  | _ => None
  end.

(** [rv.Int()], [rv.Uint()] and [rv.Float()] of package reflect, for any
    width. *)
Definition rvInt (rv : value) : option Z :=
  match rv with VInt _ _ n => Some n | _ => None end.

Definition rvUint (rv : value) : option Z :=
  match rv with VUint _ _ n => Some n | _ => None end.

Definition rvFloat (rv : value) : option spec_float :=
  match rv with VFloat _ _ f => Some f | _ => None end.

Definition rvGetUint8 (rv : value) : option Z :=
  rvGetUintK UUint8 rv.

(** [rvGetBytes(rv)] and [rvGetArrayBytesRO(rv, ...)]. *)
Definition rvGetBytes (rv : value) : option bytes :=
  match rv with
  | VSlice _ None => Some []
  | VSlice _ (Some l) => mapM rvGetUint8 l
  | _ => None
  end.

Definition rvGetArrayBytesRO (rv : value) : option bytes :=
  match rv with
  | VArray _ l => mapM rvGetUint8 l
  | _ => None
  end.

(** [rvLenSlice(rv)], [rv.Len()] of an array, [rvLenMap(rv)], and the
    elements that indexing reaches. *)
Definition sliceElems (rv : value) : option (list value) :=
  match rv with
  | VSlice _ None => Some []
  | VSlice _ (Some l) => Some l
  | _ => None
  end.

Definition arrayElems (rv : value) : option (list value) :=
  match rv with
  | VArray _ l => Some l
  | _ => None
  end.

Definition mapEntries (rv : value) : option (list (value * value)) :=
  match rv with
  | VMap _ None => Some []
  | VMap _ (Some kvs) => Some kvs
  | _ => None
  end.

Definition len {A : Type} (l : list A) : Z := Z.of_nat (List.length l).

(** Equality of map keys ([==] of Go on comparable values): floats by
    their numeric value, so that a NaN equals nothing, pointers by
    address. *)
Fixpoint value_eqb (a b : value) {struct a} : bool :=
  let fix all2 (l m : list value) {struct l} : bool :=
    match l, m with
    | [], [] => true
    | x :: l', y :: m' => value_eqb x y && all2 l' m'
    | _, _ => false
    end in
  match a, b with
  | VInvalid, VInvalid => true
  | VBool i x, VBool j y => N.eqb i j && Bool.eqb x y
  | VInt i k x, VInt j l y =>
      N.eqb i j && kind_eqb (kindOfInt k) (kindOfInt l) && (x =? y)
  | VUint i k x, VUint j l y =>
      N.eqb i j && kind_eqb (kindOfUint k) (kindOfUint l) && (x =? y)
  | VFloat i k x, VFloat j l y =>
      N.eqb i j && kind_eqb (kindOfFloat k) (kindOfFloat l) && SFeqb x y
  | VComplex i w r1 i1, VComplex j v r2 i2 =>
      N.eqb i j && Bool.eqb w v && SFeqb r1 r2 && SFeqb i1 i2
  | VString i x, VString j y => N.eqb i j && String.eqb x y
  | VUnsafePointer i, VUnsafePointer j => N.eqb i j
  | VPtr i t None, VPtr j u None => rtype_eqb (RtPtr i t) (RtPtr j u)
  | VPtr i t (Some p), VPtr j u (Some q) =>
      rtype_eqb (RtPtr i t) (RtPtr j u) && N.eqb p q
  | VInterface i None, VInterface j None => N.eqb i j
  | VInterface i (Some x), VInterface j (Some y) =>
      N.eqb i j && value_eqb x y
  | VArray i l, VArray j m => N.eqb i j && all2 l m
  | VStruct i l, VStruct j m => N.eqb i j && all2 l m
  | VTime t, VTime u =>
      (instant t =? instant u) && N.eqb (location t) (location u)
  | _, _ => false
  end.

(** Modelled from the spec: [mapGet], of the reflection helpers, which
    are not part of this file; it reads the value stored under a key of
    the map (the invalid value when the key is not found). *)
Definition mapGet (rv k : value) : value :=
  match mapEntries rv with
  | Some kvs =>
      match find (fun kv => value_eqb (fst kv) k) kvs with
      | Some kv => snd kv
      | None => VInvalid
      end
  | None => VInvalid
  end.

(** ** Sorting *)

(** [sort.Sort] of the Go library, as an insertion sort by the [Less]
    method of the slice type.  Go's sort is not stable; on keys that
    [Less] orders totally every sort returns the same slice. *)
Fixpoint sort_insert {A : Type} (less : A -> A -> bool) (x : A)
  (l : list A) : list A :=
  match l with
  | [] => [x]
  | y :: l' => if less x y then x :: y :: l' else y :: sort_insert less x l'
  end.

Fixpoint sort_Sort {A : Type} (less : A -> A -> bool) (l : list A)
  : list A :=
  match l with
  | [] => []
  | x :: l' => sort_insert less x (sort_Sort less l')
  end.

(** Modelled from the spec: the [Less] methods of [boolRvSlice],
    [stringRvSlice], [uint64RvSlice], [int64RvSlice], [float64RvSlice],
    [timeRvSlice] and [bytesRvSlice], declared outside this file:
    false before true, the numeric order of integers, unsigned integers
    and floats, the lexicographic byte order of strings and of byte
    slices, the order of instants for times. *)
Definition boolLess (a b : bool) : bool := negb a && b.
Definition int64Less (a b : Z) : bool := a <? b.
Definition uint64Less (a b : Z) : bool := a <? b.
Definition float64Less (a b : spec_float) : bool := SFltb a b.
Definition stringLess (a b : string) : bool := String.ltb a b.
Definition timeLess (a b : Time) : bool := instant a <? instant b.

Fixpoint bytesLess (a b : bytes) : bool :=
  match a, b with
  | [], [] => false
  | [], _ :: _ => true
  | _ :: _, [] => false
  | x :: a', y :: b' =>
      if x <? y then true else if y <? x then false else bytesLess a' b'
  end.

(** The pair [{r, v}] of the [...Rv] records: the key as a value and
    what it is sorted by. *)
Definition lessRv {A : Type} (less : A -> A -> bool) (p q : value * A)
  : bool := less (snd p) (snd q).

(** ** The engine *)

Section Engine.

Variable h : BasicHandle.
Variable w : World.

(** [e.errorf(...)]: the panic that [Encode] recovers. *)
Definition errorf (x : error) (e : Encoder) : result := Panic x e.

(** *** Container tracker methods *)

Definition mapStart (length : Z) (e : Encoder) : Encoder :=
  set_c containerMapStart (emit (WriteMapStart length) e).

Definition mapElemKey (e : Encoder) : Encoder :=
  set_c containerMapKey (if js e then emit WriteMapElemKey e else e).

Definition mapElemValue (e : Encoder) : Encoder :=
  set_c containerMapValue (if js e then emit WriteMapElemValue e else e).

Definition mapEnd (e : Encoder) : Encoder :=
  set_c containerNone (emit WriteMapEnd e).

Definition arrayStart (length : Z) (e : Encoder) : Encoder :=
  set_c containerArrayStart (emit (WriteArrayStart length) e).

Definition arrayElem (e : Encoder) : Encoder :=
  set_c containerArrayElem (if js e then emit WriteArrayElem e else e).

Definition arrayEnd (e : Encoder) : Encoder :=
  set_c containerNone (emit WriteArrayEnd e).

Definition haltOnMbsOddLen (length : Z) (e : Encoder) : result :=
  if negb (Z.land length 1 =? 0)
  then errorf MalformedFlattenedSequence e
  else Ok e.

(** *** Marshalled and raw bytes *)

Definition onerror (fnerr : bool) (e : Encoder) : result :=
  if fnerr then Panic CustomMarshalFailure e else Ok e.

Definition marshalUtf8 (bs : option string) (fnerr : bool) (e : Encoder)
  : result :=
  e <- onerror fnerr e ;;
  match bs with
  | None => Ok (emit EncodeNil e)
  | Some s => Ok (emit (EncodeString s) e)
  end.

Definition marshalAsis (bs : option bytes) (fnerr : bool) (e : Encoder)
  : result :=
  e <- onerror fnerr e ;;
  match bs with
  | None => Ok (emit EncodeNil e)
  | Some b => Ok (emit (Writeb b) e)
  end.

Definition marshalRaw (bs : option bytes) (fnerr : bool) (e : Encoder)
  : result :=
  e <- onerror fnerr e ;;
  match bs with
  | None => Ok (emit EncodeNil e)
  | Some b => Ok (emit (EncodeStringBytesRaw b) e)
  end.

Definition rawBytes (v : bytes) (e : Encoder) : result :=
  if negb (Raw h) then errorf RawDisallowed e
  else Ok (emit (Writeb v) e).

Definition encStructFieldKey (name : string) (e : Encoder)
  (kt : valueType) (asciiAlphaNum : bool) : result :=
  match kt with
  | valueTypeString =>
      if js e && asciiAlphaNum then Ok (emit (Writeqstr name) e)
      else Ok (emit (EncodeString name) e)
  | valueTypeInt =>
      match ParseInt w name with
      | Some n => Ok (emit (EncodeInt n) e)
      | None => Panic InvalidKeyEncoding e
      end
  | valueTypeUint =>
      match ParseUint w name with
      | Some n => Ok (emit (EncodeUint n) e)
      | None => Panic InvalidKeyEncoding e
      end
  | valueTypeFloat =>
      match ParseFloat w name with
      | Some f => Ok (emit (EncodeFloat64 f) e)
      | None => Panic InvalidKeyEncoding e
      end
  | valueTypeOther => Panic InvalidStructKeyType e
  end.

Definition kStructFieldKey (kt : valueType) (asciiAlphaNum : bool)
  (name : string) (e : Encoder) : result :=
  encStructFieldKey name e kt asciiAlphaNum.

(** [rv.Elem()] of a non-nil pointer: what the heap holds there. *)
Definition deref (id : N) (el : rtype) (a : N) : value :=
  heap w (RtPtr id el) a.

(** *** The typed entry: [encode] *)

(** Modelled from the spec: [isNil], of the helpers outside this file;
    it returns the reflection value of its argument and whether that is
    a nil pointer, interface, slice, map, channel or function. *)
Definition isNil (iv : iface) : value * bool :=
  match iv with
  | INil => (VInvalid, true)
  | IVal v => (v, rvIsNil v)
  | IReflect rv => (VStruct 1 [rv], false)
  end.

(** The types the switch of [encode] names, and what is written for a
    value of one of them. *)
Definition directTyp (rt : rtype) : bool :=
  match rt with
  | Rt id k =>
      match k with
      | String | Bool | Int | Int8 | Int16 | Int32 | Int64
      | Uint | Uint8 | Uint16 | Uint32 | Uint64 | Uintptr
      | Float32 | Float64 | Struct => N.eqb id 0
      | Slice => N.eqb id 0 || N.eqb id 1
      | _ => false
      end
  | RtPtr _ _ => false
  end.

Definition encodeDirect (v : value) (e : Encoder) : result :=
  match v with
  | VString _ s => Ok (emit (EncodeString s) e)
  | VBool _ b => Ok (emit (EncodeBool b) e)
  | VInt _ _ n => Ok (emit (EncodeInt n) e)
  | VUint _ _ n => Ok (emit (EncodeUint n) e)
  | VFloat _ F32 f => Ok (emit (EncodeFloat32 f) e)
  | VFloat _ F64 f => Ok (emit (EncodeFloat64 f) e)
  | VTime t => Ok (emit (EncodeTime t) e)
  | VSlice id _ =>
      match rvGetBytes v with
      | Some bs =>
          if N.eqb id 1 then rawBytes bs e
          else Ok (emit (EncodeStringBytesRaw bs) e)
      | None => Panic ReflectPanic e
      end
  | _ => Panic ReflectPanic e
  end.

Section Handlers.

(** The handlers call back into [encodeValue]; they are written over
    the function they call, and [encodeValue] closes the loop below. *)
Variable encodeValue : Encoder -> value -> option codecFn -> result.

(** The fast-path type switch of the default case is generated code
    outside this file; the model takes the branch that skips it
    ([skipFastpathTypeSwitchInDirectCall]). *)
Definition encode (e : Encoder) (iv : iface) : result :=
  match iv with
  | INil => Ok (emit EncodeNil e)
  | IReflect v => encodeValue e v None
  | IVal v =>
      let (rv, ok) := isNil iv in
      if ok then Ok (emit EncodeNil e)
      else if directTyp (rvType v) then encodeDirect v e
      else
        match v with
        | VPtr id el (Some a) =>
            if N.eqb id 0 && directTyp el then
              let pv := deref id el a in
              if negb (rtype_eqb (rvType pv) el) then Panic ReflectPanic e
              else if rtype_eqb el uint8SliceTyp && rvIsNil pv
              then Ok (emit EncodeNil e)
              else encodeDirect pv e
            else encodeValue e rv None
        | _ => encodeValue e rv None
        end
  end.

(** [MustEncode]. *)
Definition MustEncode (e : Encoder) (v : iface) : result :=
  match err e with
  | Some x => Panic x e
  | None =>
      if negb (hh e) then Panic NoFormatHandle e
      else
        let e := set_calls (S (calls e)) e in
        e <- encode e v ;;
        let e := set_calls (pred (calls e)) e in
        if Nat.eqb (calls e) 0
        then Ok (emit WriterEnd (emit AtEndOfEncode e))
        else Ok e
  end.

(** [NewEncoderBytes(&out, e.hh)]: a new encoder on the same handle,
    reset. *)
Definition NewEncoderBytes (e : Encoder) : Encoder :=
  mkEncoder [] [] containerNone 0 None (hh e) (js e).

(** *** Sequences *)

Fixpoint stripPtr (rt : rtype) : rtype :=
  match rt with
  | RtPtr _ el => stripPtr el
  | Rt _ _ => rt
  end.

Definition kSeqFn (rtelem : rtype) : option codecFn :=
  let rtelem := stripPtr rtelem in
  if negb (kind_eqb (Kind rtelem) Interface) then Some (fn h rtelem)
  else None.

(** The loop of [kSliceWMbs] and [kArrayWMbs] from index [j] on. *)
Fixpoint mbsLoop (f : option codecFn) (j : Z) (xs : list value)
  (e : Encoder) : result :=
  match xs with
  | [] => Ok e
  | x :: xs' =>
      let e := if Z.land j 1 =? 0 then mapElemKey e else mapElemValue e in
      e <- encodeValue e x f ;;
      mbsLoop f (j + 1) xs' e
  end.

Definition seqWMbs (xs : list value) (t : typeInfo) (e : Encoder)
  : result :=
  let l := len xs in
  e <- (if l =? 0 then Ok (mapStart 0 e)
        else
          e <- haltOnMbsOddLen l e ;;
          let e := mapStart (Z.shiftr l 1) e in
          mbsLoop (kSeqFn (elem t)) 0 xs e) ;;
  Ok (mapEnd e).

Definition kSliceWMbs (e : Encoder) (rv : value) (t : typeInfo) : result :=
  match sliceElems rv with
  | Some xs => seqWMbs xs t e
  | None => Panic ReflectPanic e
  end.

Definition kArrayWMbs (e : Encoder) (rv : value) (t : typeInfo) : result :=
  match arrayElems rv with
  | Some xs => seqWMbs xs t e
  | None => Panic ReflectPanic e
  end.

Fixpoint seqLoop (f : option codecFn) (xs : list value) (e : Encoder)
  : result :=
  match xs with
  | [] => Ok e
  | x :: xs' =>
      e <- encodeValue (arrayElem e) x f ;;
      seqLoop f xs' e
  end.

Definition seqW (xs : list value) (t : typeInfo) (e : Encoder) : result :=
  let l := len xs in
  let e := arrayStart l e in
  e <- (if 0 <? l then seqLoop (kSeqFn (elem t)) xs e else Ok e) ;;
  Ok (arrayEnd e).

Definition kSliceW (e : Encoder) (rv : value) (t : typeInfo) : result :=
  match sliceElems rv with
  | Some xs => seqW xs t e
  | None => Panic ReflectPanic e
  end.

Definition kArrayW (e : Encoder) (rv : value) (t : typeInfo) : result :=
  match arrayElems rv with
  | Some xs => seqW xs t e
  | None => Panic ReflectPanic e
  end.

(** [reflect.RecvDir]. *)
Definition RecvDir : Z := 1.

(** [chanToSlice]: the slice of what the drain receives under
    [ChanRecvTimeout]; it stays the nil slice when nothing arrives. *)
Definition chanToSlice (rv : value) (rtslice : N) : option value :=
  match rv with
  | VChan _ (Some []) => Some (VSlice rtslice None)
  | VChan _ (Some l) => Some (VSlice rtslice (Some l))
  | _ => None
  end.

Definition kSliceBytesChan (e : Encoder) (rv : value) : result :=
  match rv with
  | VChan _ (Some l) =>
      match mapM rvGetUint8 l with
      | Some bs => Ok (emit (EncodeStringBytesRaw bs) e)
      | None => Panic ReflectPanic e
      end
  | _ => Panic ReflectPanic e
  end.

Definition kChan (e : Encoder) (f : codecFnInfo) (rv : value) : result :=
  if Z.land (chandir (ti f)) RecvDir =? 0
  then errorf SendOnlyChannel e
  else if negb (mbs (ti f)) && rtype_eqb uint8Typ (elem (ti f))
  then kSliceBytesChan e rv
  else
    let rtslice := SliceOf w (elem (ti f)) in
    match chanToSlice rv rtslice with
    | None => Panic ReflectPanic e
    | Some rv =>
        let t := getTypeInfo h (Rt rtslice Slice) in
        if mbs (ti f) then kSliceWMbs e rv t else kSliceW e rv t
    end.

Definition kSlice (e : Encoder) (f : codecFnInfo) (rv : value) : result :=
  if mbs (ti f) then kSliceWMbs e rv (ti f)
  else if rtype_eqb (rtid (ti f)) uint8SliceTyp
          || rtype_eqb uint8Typ (elem (ti f))
  then match rvGetBytes rv with
       | Some bs => Ok (emit (EncodeStringBytesRaw bs) e)
       | None => Panic ReflectPanic e
       end
  else kSliceW e rv (ti f).

Definition kArray (e : Encoder) (f : codecFnInfo) (rv : value) : result :=
  if mbs (ti f) then kArrayWMbs e rv (ti f)
  else if rtype_eqb uint8Typ (elem (ti f))
  then match rvGetArrayBytesRO rv with
       | Some bs => Ok (emit (EncodeStringBytesRaw bs) e)
       | None => Panic ReflectPanic e
       end
  else kArrayW e rv (ti f).

(** *** Emptiness *)

Definition isZeroFloat (f : spec_float) : bool :=
  match f with S754_zero _ => true | _ => false end.

(** Modelled from the spec: [isEmptyValue], of the helpers outside this
    file.  A value is empty when it is the zero value of its type:
    false, 0, a nil pointer or interface, a string, array, slice or map
    of length zero.  The recursive check also descends into interfaces
    and pointers, and both check the fields of a struct one by one.  The
    fuel bounds the descent; [None] is a check that does not end. *)
Fixpoint isEmptyValue (n : nat) (v : value) (recursive : bool)
  : option bool :=
  match n with
  | O => None
  | S n' =>
      match v with
      | VInvalid => Some true
      | VBool _ b => Some (negb b)
      | VInt _ _ x => Some (x =? 0)
      | VUint _ _ x => Some (x =? 0)
      | VFloat _ _ f => Some (isZeroFloat f)
      | VComplex _ _ r m => Some (isZeroFloat r && isZeroFloat m)
      | VString _ s => Some (Nat.eqb (String.length s) 0)
      | VFunc _ b => Some b
      | VUnsafePointer _ => Some false
      | VPtr _ _ None => Some true
      | VPtr id el (Some a) =>
          if recursive then isEmptyValue n' (deref id el a) recursive
          else Some false
      | VInterface _ None => Some true
      | VInterface _ (Some x) =>
          if recursive then isEmptyValue n' x recursive else Some false
      | VSlice _ None | VMap _ None | VChan _ None => Some true
      | VSlice _ (Some l) => Some (Nat.eqb (List.length l) 0)
      | VArray _ l => Some (Nat.eqb (List.length l) 0)
      | VMap _ (Some l) => Some (Nat.eqb (List.length l) 0)
      | VChan _ (Some _) => Some false
      | VStruct _ fs =>
          fold_right
            (fun x acc =>
               match isEmptyValue n' x recursive, acc with
               | Some a, Some b => Some (a && b)
               | _, _ => None
               end) (Some true) fs
      | VTime t => Some (instant t =? 0)
      end
  end.

(** [reflect.ValueOf(v)]. *)
Definition ValueOf (iv : iface) : value := fst (isNil iv).

(** *** Structs *)

(** Modelled from the spec: [si.path.field(rv)], the access path to the
    value of a field, declared outside this file. *)
Definition field (si : structFieldInfo) (rv : value) : value :=
  match rv with
  | VStruct _ fs => nth (fieldIndex si) fs VInvalid
  | _ => VInvalid
  end.

Definition kStructSfi (f : codecFnInfo) : list structFieldInfo :=
  if Canonical h then sfiSort (ti f) else sfiSrc (ti f).

Fixpoint noOmitArrayLoop (rv : value) (sfis : list structFieldInfo)
  (e : Encoder) : result :=
  match sfis with
  | [] => Ok e
  | si :: rest =>
      e <- encodeValue (arrayElem e) (field si rv) None ;;
      noOmitArrayLoop rv rest e
  end.

Fixpoint noOmitMapLoop (kt : valueType) (rv : value)
  (sfis : list structFieldInfo) (e : Encoder) : result :=
  match sfis with
  | [] => Ok e
  | si :: rest =>
      e <- kStructFieldKey kt (encNameAsciiAlphaNum si) (encName si)
             (mapElemKey e) ;;
      e <- encodeValue (mapElemValue e) (field si rv) None ;;
      noOmitMapLoop kt rv rest e
  end.

Definition kStructNoOmitempty (e : Encoder) (f : codecFnInfo) (rv : value)
  : result :=
  if toArray (ti f) || StructToArray h then
    e <- noOmitArrayLoop rv (sfiSrc (ti f))
           (arrayStart (len (sfiSrc (ti f))) e) ;;
    Ok (arrayEnd e)
  else
    let tisfi := kStructSfi f in
    e <- noOmitMapLoop (keyType (ti f)) rv tisfi (mapStart (len tisfi) e) ;;
    Ok (mapEnd e).

(** [sfiRv]: a field descriptor (a pointer, nil until set) and the
    value of the field. *)
Record sfiRv : Type := mkSfiRv {
  sv : option structFieldInfo;
  sr : value
}.

(** [l[n] = x]; [None] is the index-out-of-range panic. *)
Fixpoint list_set {A : Type} (l : list A) (n : nat) (x : A)
  : option (list A) :=
  match l, n with
  | [], _ => None
  | _ :: l', O => Some (x :: l')
  | y :: l', S n' => option_map (cons y) (list_set l' n' x)
  end.

(** What a pass over the fields leaves in the scratch slice. *)
Inductive collected : Type :=
| Collected (fkvs : list sfiRv) (newlen : nat)
| CollectFuel
| CollectPanic.

(** [si.path.omitEmpty && isEmptyValue(kv.r, e.h.TypeInfos, recur)]. *)
Definition omitted (n : nat) (si : structFieldInfo) (r : value)
  (recur : bool) : option bool :=
  if omitEmpty si then isEmptyValue n r recur else Some false.

(** The first loop of map mode. *)
Fixpoint collectMap (n : nat) (rv : value) (recur : bool)
  (sfis : list structFieldInfo) (fkvs : list sfiRv) (newlen : nat)
  : collected :=
  match sfis with
  | [] => Collected fkvs newlen
  | si :: rest =>
      let r := field si rv in
      match omitted n si r recur with
      | None => CollectFuel
      | Some true => collectMap n rv recur rest fkvs newlen
      | Some false =>
          match list_set fkvs newlen (mkSfiRv (Some si) r) with
          | None => CollectPanic
          | Some fkvs => collectMap n rv recur rest fkvs (S newlen)
          end
      end
  end.

(** The loop over the missing fields that deletes the ones to drop. *)
Fixpoint mfKeep (n : nat) (recur : bool) (omit : bool)
  (mf : list (string * iface)) : option (list (string * iface)) :=
  match mf with
  | [] => Some []
  | (k, v) :: rest =>
      if String.eqb k EmptyString then mfKeep n recur omit rest
      else
        match (if omit then isEmptyValue n (ValueOf v) recur
               else Some false) with
        | None => None
        | Some true => mfKeep n recur omit rest
        | Some false => option_map (cons (k, v)) (mfKeep n recur omit rest)
        end
  end.

Fixpoint structMapLoop (kt : valueType) (kvs : list sfiRv) (e : Encoder)
  : result :=
  match kvs with
  | [] => Ok e
  | kv :: rest =>
      let e := mapElemKey e in
      match sv kv with
      | None => Panic ReflectPanic e
      | Some si =>
          e <- kStructFieldKey kt (encNameAsciiAlphaNum si) (encName si) e ;;
          e <- encodeValue (mapElemValue e) (sr kv) None ;;
          structMapLoop kt rest e
      end
  end.

Fixpoint mfLoop (kt : valueType) (mf : list (string * iface))
  (e : Encoder) : result :=
  match mf with
  | [] => Ok e
  | (k, v) :: rest =>
      e <- kStructFieldKey kt false k (mapElemKey e) ;;
      e <- encode (mapElemValue e) v ;;
      mfLoop kt rest e
  end.

(** The kinds an omitted field of array mode is written as nil for. *)
Definition nilWhenOmitted (k : kind) : bool :=
  match k with
  | Struct | Interface | Ptr | Array | Map | Slice => true
  | _ => false
  end.

(** The first loop of array mode, from index [j] on. *)
Fixpoint collectArray (n : nat) (rv : value) (recur : bool)
  (sfis : list structFieldInfo) (j : nat) (fkvs : list sfiRv)
  : collected :=
  match sfis with
  | [] => Collected fkvs j
  | si :: rest =>
      let r := field si rv in
      match omitted n si r recur with
      | None => CollectFuel
      | Some o =>
          let r := if o && nilWhenOmitted (rvKind r) then VInvalid else r in
          match list_set fkvs j (mkSfiRv None r) with
          | None => CollectPanic
          | Some fkvs => collectArray n rv recur rest (S j) fkvs
          end
      end
  end.

Fixpoint structArrayLoop (kvs : list sfiRv) (e : Encoder) : result :=
  match kvs with
  | [] => Ok e
  | kv :: rest =>
      e <- encodeValue (arrayElem e) (sr kv) None ;;
      structArrayLoop rest e
  end.

(** Whether [kStruct] writes a map: [toMap] after the missing-fielder
    flags have been looked at. *)
Definition structToMap (f : codecFnInfo) : bool :=
  if flagMissingFielder (ti f) then true
  else if flagMissingFielderPtr (ti f) then true
  else negb (toArray (ti f) || StructToArray h).

Definition missingFields (f : codecFnInfo) (rv : value)
  : list (string * iface) :=
  if flagMissingFielder (ti f) then CodecMissingFields w rv
  else if flagMissingFielderPtr (ti f) then CodecMissingFields w rv
  else [].

(** [kStruct].  The scratch slice comes from a pool with whatever it
    held; the model starts it with zero records.  The fuel is that of
    the emptiness checks. *)
Definition kStruct (n : nat) (e : Encoder) (f : codecFnInfo) (rv : value)
  : result :=
  let mf := missingFields f rv in
  let newlen := (List.length mf + List.length (sfiSrc (ti f)))%nat in
  let fkvs := repeat (mkSfiRv None VInvalid) newlen in
  let recur := RecursiveEmptyCheck h in
  if structToMap f then
    match collectMap n rv recur (kStructSfi f) fkvs 0 with
    | CollectFuel => OutOfFuel
    | CollectPanic => Panic ReflectPanic e
    | Collected fkvs newlen =>
        match mfKeep n recur (infoFieldOmitempty (ti f)) mf with
        | None => OutOfFuel
        | Some mf =>
            let e := mapStart (Z.of_nat newlen + len mf) e in
            e <- structMapLoop (keyType (ti f)) (firstn newlen fkvs) e ;;
            e <- mfLoop (keyType (ti f)) mf e ;;
            Ok (mapEnd e)
        end
    end
  else
    match collectArray n rv recur (sfiSrc (ti f)) 0 fkvs with
    | CollectFuel => OutOfFuel
    | CollectPanic => Panic ReflectPanic e
    | Collected fkvs _ =>
        let newlen := List.length (sfiSrc (ti f)) in
        e <- structArrayLoop (firstn newlen fkvs)
               (arrayStart (Z.of_nat newlen) e) ;;
        Ok (arrayEnd e)
    end.

(** *** Maps *)

(** The loop of the natural order, over the entries as the iterator
    yields them. *)
Fixpoint mapLoop (keyTypeIsString : bool) (keyFn valFn : option codecFn)
  (kvs : list (value * value)) (e : Encoder) : result :=
  match kvs with
  | [] => Ok e
  | (k, v) :: rest =>
      let e := mapElemKey e in
      e <- (if keyTypeIsString then
              match rvGetString k with
              | Some s => Ok (emit (EncodeString s) e)
              | None => Panic ReflectPanic e
              end
            else encodeValue e k keyFn) ;;
      e <- encodeValue (mapElemValue e) v valFn ;;
      mapLoop keyTypeIsString keyFn valFn rest e
  end.

(** The second loop of each case of [kMapCanonical]: the sorted keys,
    each written by [put] and followed by the value stored under it. *)
Fixpoint canonLoop {A : Type} (put : A -> event) (rv : value)
  (valFn : option codecFn) (mksv : list (value * A)) (e : Encoder)
  : result :=
  match mksv with
  | [] => Ok e
  | (r, v) :: rest =>
      let e := emit (put v) (mapElemKey e) in
      e <- encodeValue (mapElemValue e) (mapGet rv r) valFn ;;
      canonLoop put rv valFn rest e
  end.

(** The first loop of a case: each key with what it is sorted by. *)
Definition capture {A : Type} (get : value -> option A)
  (mks : list value) : option (list (value * A)) :=
  mapM (fun k => option_map (pair k) (get k)) mks.

(** One case of the switch: capture, [sort.Sort], write. *)
Definition canonCase {A : Type} (get : value -> option A)
  (less : A -> A -> bool) (put : A -> event) (rv : value)
  (valFn : option codecFn) (mks : list value) (e : Encoder) : result :=
  match capture get mks with
  | None => Panic ReflectPanic e
  | Some mksv => canonLoop put rv valFn (sort_Sort (lessRv less) mksv) e
  end.

(** The first loop of the out-of-band case. *)
Inductive sideKeys : Type :=
| SideOk (mksbv : list (value * bytes)) (e2 : Encoder)
| SidePanic (x : error)
| SideFuel.

(** Each key is encoded by the second encoder [e2]; its bytes are the
    ones the driver writes for the events of that call. *)
Fixpoint encodeKeys (e2 : Encoder) (mks : list value) : sideKeys :=
  match mks with
  | [] => SideOk [] e2
  | k :: rest =>
      let l := List.length (out e2) in
      match MustEncode e2 (IReflect k) with
      | Ok e2 =>
          let v := wire w (skipn l (out e2)) in
          match encodeKeys e2 rest with
          | SideOk mksbv e2 => SideOk ((k, v) :: mksbv) e2
          | other => other
          end
      | Panic x _ => SidePanic x
      | OutOfFuel => SideFuel
      end
  end.

Definition kMapCanonical (t : typeInfo) (rv : value)
  (valFn : option codecFn) (e : Encoder) : result :=
  match mapEntries rv with
  | None => Panic ReflectPanic e
  | Some kvs =>
      let mks := map fst kvs in
      let outOfBand :=
        match encodeKeys (NewEncoderBytes e) mks with
        | SideOk mksbv _ =>
            canonLoop Writeb rv valFn (sort_Sort (lessRv bytesLess) mksbv) e
        | SidePanic x => Panic x e
        | SideFuel => OutOfFuel
        end in
      match Kind (key t) with
      | Bool =>
          canonCase rvGetBool boolLess (fun v => Drv (EncodeBool v))
            rv valFn mks e
      | String =>
          canonCase rvGetString stringLess (fun v => Drv (EncodeString v))
            rv valFn mks e
      | Uint8 | Uint16 | Uint32 | Uint64 | Uint | Uintptr =>
          canonCase rvUint uint64Less (fun v => Drv (EncodeUint v))
            rv valFn mks e
      | Int8 | Int16 | Int32 | Int64 | Int =>
          canonCase rvInt int64Less (fun v => Drv (EncodeInt v))
            rv valFn mks e
      | Float32 =>
          canonCase rvFloat float64Less (fun v => Drv (EncodeFloat32 v))
            rv valFn mks e
      | Float64 =>
          canonCase rvFloat float64Less (fun v => Drv (EncodeFloat64 v))
            rv valFn mks e
      | Struct =>
          if rtype_eqb (key t) timeTyp then
            canonCase rvGetTime timeLess (fun v => Drv (EncodeTime v))
              rv valFn mks e
          else outOfBand
      | _ => outOfBand
      end
  end.

(** [kMap].  The strategy of the values (and of the keys) is found as
    in [kSeqFn]: pointers are stripped, and an interface type gets
    none. *)
Definition kMap (e : Encoder) (f : codecFnInfo) (rv : value) : result :=
  match mapEntries rv with
  | None => Panic ReflectPanic e
  | Some kvs =>
      let l := len kvs in
      let e := mapStart l e in
      if l =? 0 then Ok (mapEnd e)
      else
        let valFn := kSeqFn (elem (ti f)) in
        if Canonical h then
          e <- kMapCanonical (ti f) rv valFn e ;;
          Ok (mapEnd e)
        else
          let rtkey := key (ti f) in
          let keyTypeIsString := rtype_eqb stringTyp rtkey in
          let keyFn := if keyTypeIsString then None else kSeqFn rtkey in
          e <- mapLoop keyTypeIsString keyFn valFn kvs e ;;
          Ok (mapEnd e)
  end.

(** *** Dispatch *)

(** A [CodecEncodeSelf] method at work on the encoder. *)
Fixpoint runActions (acts : list action) (e : Encoder) : result :=
  match acts with
  | [] => Ok e
  | ADriver p :: rest => runActions rest (emit p e)
  | AMustEncode iv :: rest =>
      e <- MustEncode e iv ;;
      runActions rest e
  end.

Definition argValue (arg : feArg) : value :=
  match arg with ByValue rv => rv | ByAddr rv => rv end.

(** A reader applied to what a built-in strategy is called on. *)
Definition reading {A : Type} (get : value -> option A) (arg : feArg)
  (put : A -> prim) (e : Encoder) : result :=
  match arg with
  | ByValue rv =>
      match get rv with
      | Some x => Ok (emit (put x) e)
      | None => Panic ReflectPanic e
      end
  | ByAddr _ => Panic ReflectPanic e
  end.

Definition onValue (arg : feArg) (k : value -> result) (e : Encoder)
  : result :=
  match arg with
  | ByValue rv => k rv
  | ByAddr _ => Panic ReflectPanic e
  end.

(** [fn.fe(e, &fn.i, rv)]. *)
Definition callFe (n : nat) (e : Encoder) (f : codecFn) (arg : feArg)
  : result :=
  match fe f with
  | fe_rawExt => Ok (emit (EncodeRawExt (argValue arg)) e)
  | fe_ext => Ok (emit (EncodeExt (argValue arg) (xfTag (i f))) e)
  | fe_selferMarshal => runActions (CodecEncodeSelf w arg) e
  | fe_binaryMarshal =>
      let (bs, fnerr) := MarshalBinary w arg in marshalRaw bs fnerr e
  | fe_textMarshal =>
      let (bs, fnerr) := MarshalText w arg in marshalUtf8 bs fnerr e
  | fe_jsonMarshal =>
      let (bs, fnerr) := MarshalJSON w arg in marshalAsis bs fnerr e
  | fe_raw =>
      onValue arg (fun rv =>
        match rvGetBytes rv with
        | Some bs => rawBytes bs e
        | None => Panic ReflectPanic e
        end) e
  | fe_kBool => reading rvGetBool arg EncodeBool e
  | fe_kTime => reading rvGetTime arg EncodeTime e
  | fe_kString => reading rvGetString arg EncodeString e
  | fe_kFloat64 => reading (rvGetFloatK F64) arg EncodeFloat64 e
  | fe_kFloat32 => reading (rvGetFloatK F32) arg EncodeFloat32 e
  | fe_kInt => reading (rvGetIntK IInt) arg EncodeInt e
  | fe_kInt8 => reading (rvGetIntK IInt8) arg EncodeInt e
  | fe_kInt16 => reading (rvGetIntK IInt16) arg EncodeInt e
  | fe_kInt32 => reading (rvGetIntK IInt32) arg EncodeInt e
  | fe_kInt64 => reading (rvGetIntK IInt64) arg EncodeInt e
  | fe_kUint => reading (rvGetUintK UUint) arg EncodeUint e
  | fe_kUint8 => reading (rvGetUintK UUint8) arg EncodeUint e
  | fe_kUint16 => reading (rvGetUintK UUint16) arg EncodeUint e
  | fe_kUint32 => reading (rvGetUintK UUint32) arg EncodeUint e
  | fe_kUint64 => reading (rvGetUintK UUint64) arg EncodeUint e
  | fe_kUintptr => reading (rvGetUintK UUintptr) arg EncodeUint e
  | fe_kErr => errorf UnsupportedValue e
  | fe_kChan => onValue arg (kChan e (i f)) e
  | fe_kSlice => onValue arg (kSlice e (i f)) e
  | fe_kArray => onValue arg (kArray e (i f)) e
  | fe_kStruct => onValue arg (kStruct n e (i f)) e
  | fe_kStructNoOmitempty => onValue arg (kStructNoOmitempty e (i f)) e
  | fe_kMap => onValue arg (kMap e (i f)) e
  end.

(** *** [encodeValue] *)

(** What the switch at [TOP] arrives at. *)
Inductive resolved : Type :=
| ToNil
| ToCircular (sptr : sptrT)
| ToCall (rv : value) (rvp : option value) (sptr : option sptrT)
| ToFuel.

(** The switch at [TOP] with its [goto TOP]; the fuel bounds the number
    of rounds.  [rvp] is the last pointer gone through. *)
Fixpoint resolve (n : nat) (stack : list sptrT) (rv : value)
  (rvp : option value) : resolved :=
  match n with
  | O => ToFuel
  | S n' =>
      match rv with
      | VPtr _ _ None => ToNil
      | VPtr id el (Some a) =>
          let rv' := deref id el a in
          if CheckCircularRef h && kind_eqb (rvKind rv') Struct then
            let sptr := (RtPtr id el, a) in
            if existsb (eq4i sptr) stack then ToCircular sptr
            else ToCall rv' (Some rv) (Some sptr)
          else resolve n' stack rv' (Some rv)
      | VInterface _ None => ToNil
      | VInterface _ (Some x) => resolve n' stack x rvp
      | VSlice _ None | VMap _ None | VChan _ None => ToNil
      | VInvalid | VFunc _ _ => ToNil
      | _ => ToCall rv rvp None
      end
  end.

(** The strategy: the one passed in, or the one of the type. *)
Definition fnFor (fnv : option codecFn) (rv : value) : codecFn :=
  match fnv with
  | Some f => f
  | None => fn h (rvType rv)
  end.

(** Which form of the value the strategy is called on. *)
Definition feArgFor (f : codecFn) (rv : value) (rvp : option value)
  : feArg :=
  if negb (addrE (i f)) then ByValue rv
  else
    match rvp with
    | Some p => ByValue p
    | None =>
        if CanAddr w rv then ByAddr rv
        else if addrEf (i f) then ByAddr rv
        else ByValue rv
    end.

(** [e.ci = e.ci[:len(e.ci)-1]]. *)
Definition popCi (e : Encoder) : result :=
  match ci e with
  | [] => Panic ReflectPanic e
  | _ => Ok (set_ci (removelast (ci e)) e)
  end.

(** One call of [encodeValue], with [n] the fuel left for the calls it
    makes. *)
Definition encodeValueStep (n : nat) (e : Encoder) (rv : value)
  (fnv : option codecFn) : result :=
  match resolve (S n) (ci e) rv None with
  | ToFuel => OutOfFuel
  | ToNil => Ok (emit EncodeNil e)
  | ToCircular _ => errorf CircularReference e
  | ToCall rv rvp sptr =>
      let e := match sptr with
               | Some s => set_ci (ci e ++ [s]) e
               | None => e
               end in
      let f := fnFor fnv rv in
      e <- callFe n e f (feArgFor f rv rvp) ;;
      match sptr with
      | Some _ => popCi e
      | None => Ok e
      end
  end.

End Handlers.

Fixpoint encodeValue (n : nat) (e : Encoder) (rv : value)
  (fnv : option codecFn) {struct n} : result :=
  match n with
  | O => OutOfFuel
  | S n' => encodeValueStep (encodeValue n') n' e rv fnv
  end.

(** [Encode]: [MustEncode] with its panic recovered into [e.err] and
    returned; [None] is an encode that does not end. *)
Definition Encode (n : nat) (e : Encoder) (v : iface)
  : option (Encoder * option error) :=
  match MustEncode (encodeValue n) e v with
  | Ok e => Some (e, None)
  | Panic x e => Some (set_err (Some x) e, Some x)
  | OutOfFuel => None
  end.

(** An encoder bound to a handle and reset ([resetCommon]). *)
Definition newEncoder (json : bool) : Encoder :=
  mkEncoder [] [] containerNone 0 None true json.

End Engine.

(** ** Making and resetting an encoder *)

(** [init]: the encoder of a new driver, bound to the handle [h] and
    not yet given an output; [json] is whether the handle is the JSON
    one. *)
Definition init (json : bool) : Encoder :=
  mkEncoder [] [] containerNone 0 (Some UninitializedEncoder) true json.

(** [resetCommon]. *)
Definition resetCommon (e : Encoder) : Encoder :=
  set_err None (set_calls 0 (set_c containerNone (set_ci [] e))).

(** The encoder turned to a new output: nothing has been sent to it. *)
Definition retarget (e : Encoder) : Encoder :=
  mkEncoder [] (ci e) (c e) (calls e) (err e) (hh e) (js e).

(** [Reset(w)]; [target] is [None] for a nil writer. *)
Definition Reset {W : Type} (target : option W) (e : Encoder) : Encoder :=
  match target with
  | None => e
  | Some _ => resetCommon (retarget e)
  end.

(** [ResetBytes(out)]; [target] is [None] for a nil pointer. *)
Definition ResetBytes {W : Type} (target : option W) (e : Encoder)
  : Encoder :=
  match target with
  | None => e
  | Some _ => resetCommon (retarget e)
  end.

(** [NewEncoder(w, h)]. *)
Definition NewEncoder {W : Type} (target : option W) (json : bool)
  : Encoder :=
  Reset target (init json).

(** * Readings of the specification *)

(** The reading of the specification: the elements taken two by two,
    the first of each pair written as a key and the second as the
    value. *)
Fixpoint emitPairs (ev : Encoder -> value -> option codecFn -> result)
  (f : option codecFn) (xs : list value) (e : Encoder)
  : result :=
  match xs with
  | k :: v :: rest =>
      e <- ev (mapElemKey e) k f ;;
      e <- ev (mapElemValue e) v f ;;
      emitPairs ev f rest e
  | _ => Ok e
  end.

(** What the specification asks of a map-by-slice sequence [xs], said
    of the outcome [r] of encoding it from the state [e], with [ev] the
    encoding of its elements. *)
Definition mbsContract (h : BasicHandle)
  (ev : Encoder -> value -> option codecFn -> result)
  (r : result) (xs : list value) (t : typeInfo) (e : Encoder) : Prop :=
  (Z.odd (len xs) = true -> r = Panic MalformedFlattenedSequence e) /\
  (Z.even (len xs) = true ->
   r = (e1 <- emitPairs ev (kSeqFn h (elem t)) xs
                (mapStart (len xs / 2) e) ;;
        Ok (mapEnd e1))) /\
  ((forall e0 x g e', ev e0 x g <> Panic MalformedFlattenedSequence e') ->
   ((exists e', r = Panic MalformedFlattenedSequence e') <->
    Z.odd (len xs) = true)).

(** The active representation of [rv] is nil: a nil pointer, interface,
    slice, map or channel, reached through at most [d] pointers and
    interfaces. *)
Fixpoint nilWithin (w : World) (d : nat) (rv : value) {struct d} : bool :=
  match rv with
  | VPtr _ _ None | VInterface _ None | VSlice _ None | VMap _ None
  | VChan _ None => true
  | VPtr id el (Some a) =>
      match d with
      | O => false
      | S d' => nilWithin w d' (deref w id el a)
      end
  | VInterface _ (Some x) =>
      match d with
      | O => false
      | S d' => nilWithin w d' x
      end
  | _ => false
  end.

(** The two finalization steps. *)
Definition isFinal (ev : event) : bool :=
  match ev with
  | AtEndOfEncode | WriterEnd => true
  | _ => false
  end.

(** No finalization step among the events [d]. *)
Definition nofinal (d : list event) : Prop :=
  forallb (fun ev => negb (isFinal ev)) d = true.

(** [frame e e']: from [e] to [e'] the circular-reference stack, the
    reentrancy counter and the error are as they were, and the output
    has grown by events among which, when the counter is not zero,
    there is no finalization step. *)
Definition frame (e e' : Encoder) : Prop :=
  ci e' = ci e /\ calls e' = calls e /\ err e' = err e /\
  hh e' = hh e /\ js e' = js e /\
  exists d, out e' = out e ++ d /\ ((1 <= calls e)%nat -> nofinal d).

(** An element encoder that keeps the frame. *)
Definition framed (ev : Encoder -> value -> option codecFn -> result)
  : Prop :=
  forall e rv f e', ev e rv f = Ok e' -> frame e e'.

(** The reading of the specification, map mode: the fields in order,
    without the ones whose omit-if-empty flag is set and whose value
    is empty. *)
Fixpoint keptFields (w : World) (n : nat) (rv : value) (recur : bool)
  (sfis : list structFieldInfo) : option (list structFieldInfo) :=
  match sfis with
  | [] => Some []
  | si :: rest =>
      match omitted w n si (field si rv) recur,
            keptFields w n rv recur rest with
      | Some o, Some l => Some (if o then l else si :: l)
      | _, _ => None
      end
  end.

(** The reading of the specification, array mode: one value for each
    field, nil for an omitted field of a kind that would be bulky. *)
Fixpoint arrayValues (w : World) (n : nat) (rv : value) (recur : bool)
  (sfis : list structFieldInfo) : option (list value) :=
  match sfis with
  | [] => Some []
  | si :: rest =>
      let r := field si rv in
      match omitted w n si r recur, arrayValues w n rv recur rest with
      | Some o, Some l =>
          Some ((if o && nilWhenOmitted (rvKind r) then VInvalid else r) :: l)
      | _, _ => None
      end
  end.

(** The scratch record of a kept field. *)
Definition scratch (si : structFieldInfo) (rv : value) : sfiRv :=
  mkSfiRv (Some si) (field si rv).

(** The kinds written by a single primitive, and the primitive. *)
Definition isPrimitive (k : kind) : bool :=
  match k with
  | Bool | String | Int | Int8 | Int16 | Int32 | Int64
  | Uint | Uint8 | Uint16 | Uint32 | Uint64 | Uintptr
  | Float32 | Float64 => true
  | _ => false
  end.

(** The primitive a value of such a kind is written as. *)
Definition literal (r : value) : option prim :=
  match r with
  | VBool _ b => Some (EncodeBool b)
  | VInt _ _ x => Some (EncodeInt x)
  | VUint _ _ x => Some (EncodeUint x)
  | VFloat _ F32 x => Some (EncodeFloat32 x)
  | VFloat _ F64 x => Some (EncodeFloat64 x)
  | VString _ s => Some (EncodeString s)
  | _ => None
  end.

(** The literal zero values: false, 0, 0.0 and the empty string. *)
Definition isZeroPrim (p : prim) : bool :=
  match p with
  | EncodeBool b => negb b
  | EncodeInt x | EncodeUint x => x =? 0
  | EncodeFloat32 x | EncodeFloat64 x => isZeroFloat x
  | EncodeString s => Nat.eqb (String.length s) 0
  | _ => false
  end.

(** Modelled from the spec: the built-in strategy of a primitive kind
    (the last entry of the precedence order of section 4.1), chosen
    when the codec function of a type is built, outside this file. *)
Definition kindFe (k : kind) : option encFunc :=
  match k with
  | Bool => Some fe_kBool
  | String => Some fe_kString
  | Int => Some fe_kInt | Int8 => Some fe_kInt8 | Int16 => Some fe_kInt16
  | Int32 => Some fe_kInt32 | Int64 => Some fe_kInt64
  | Uint => Some fe_kUint | Uint8 => Some fe_kUint8
  | Uint16 => Some fe_kUint16 | Uint32 => Some fe_kUint32
  | Uint64 => Some fe_kUint64 | Uintptr => Some fe_kUintptr
  | Float32 => Some fe_kFloat32 | Float64 => Some fe_kFloat64
  | _ => None
  end.

(** [a] may stand before [b] in a sorted slice. *)
Definition inOrder {A : Type} (less : A -> A -> bool) (a b : A) : Prop :=
  less b a = false.

(** The reading of the specification: the pairs in the order given,
    each key written as the event that stands for it, then its value. *)
Fixpoint pairsLoop (ev : Encoder -> value -> option codecFn -> result)
  (valFn : option codecFn) (l : list (event * value))
  (e : Encoder) : result :=
  match l with
  | [] => Ok e
  | (kev, v) :: rest =>
      e <- ev (mapElemValue (emit kev (mapElemKey e))) v valFn ;;
      pairsLoop ev valFn rest e
  end.

(** Every key equals itself (none is a NaN, none is of a kind that
    cannot be compared). *)
Definition keysComparable (kvs : list (value * value)) : bool :=
  forallb (fun kv => value_eqb (fst kv) (fst kv)) kvs.

(** What the specification asks of a canonical map with the entries
    [kvs]: [mksv] are the captured keys, each with what it is sorted
    by; the pairs come out in the sorted order of the keys, each key
    followed by the value stored under it. *)
Definition sortedOutput (h : BasicHandle) (w : World)
  (ev : Encoder -> value -> option codecFn -> result)
  {A : Type} (less : A -> A -> bool)
  (put : A -> event) (e : Encoder) (f : codecFnInfo) (rv : value)
  (kvs : list (value * value)) (mksv : list (value * A)) : Prop :=
  let sorted := sort_Sort (lessRv less) mksv in
  kMap h w ev e f rv =
  (e1 <- pairsLoop ev (kSeqFn h (elem (ti f)))
           (map (fun p => (put (snd p), mapGet rv (fst p))) sorted)
           (mapStart (len kvs) e) ;;
   Ok (mapEnd e1)) /\
  map fst mksv = map fst kvs /\
  Permutation sorted mksv /\
  Sorted (fun p q => inOrder less (snd p) (snd q)) sorted /\
  (keysComparable kvs = true ->
   forall p, In p sorted ->
     exists k' v,
       In (k', v) kvs /\ value_eqb k' (fst p) = true /\
       mapGet rv (fst p) = v).

(** The kinds of the unsigned and of the signed case of
    [kMapCanonical]. *)
Definition isUintKind (k : kind) : bool :=
  match k with
  | Uint8 | Uint16 | Uint32 | Uint64 | Uint | Uintptr => true
  | _ => false
  end.

Definition isIntKind (k : kind) : bool :=
  match k with
  | Int8 | Int16 | Int32 | Int64 | Int => true
  | _ => false
  end.

(** The key types that have no case of their own in [kMapCanonical]. *)
Definition outOfBand (rtkey : rtype) : bool :=
  match Kind rtkey with
  | Bool | String | Float32 | Float64 => false
  | Struct => negb (rtype_eqb rtkey timeTyp)
  | k => negb (isUintKind k || isIntKind k)
  end.

(** * The shape of the output *)

(** The containers that are open, innermost first. *)
Inductive bracket : Type := BArray | BMap.

(** What an event does to the open containers; [None] is an end with
    no start to match. *)
Definition nest1 (ev : event) (st : list bracket)
  : option (list bracket) :=
  match ev with
  | Drv (WriteArrayStart _) => Some (BArray :: st)
  | Drv (WriteMapStart _) => Some (BMap :: st)
  | Drv WriteArrayEnd =>
      match st with BArray :: st' => Some st' | _ => None end
  | Drv WriteMapEnd =>
      match st with BMap :: st' => Some st' | _ => None end
  | _ => Some st
  end.

Fixpoint nest (d : list event) (st : list bracket)
  : option (list bracket) :=
  match d with
  | [] => Some st
  | ev :: d' =>
      match nest1 ev st with
      | Some st' => nest d' st'
      | None => None
      end
  end.

(** The same for the steps of a [CodecEncodeSelf] method, the values
    it encodes counted as closed. *)
Fixpoint nestActions (acts : list action) (st : list bracket)
  : option (list bracket) :=
  match acts with
  | [] => Some st
  | ADriver p :: rest =>
      match nest1 (Drv p) st with
      | Some st' => nestActions rest st'
      | None => None
      end
  | AMustEncode _ :: rest => nestActions rest st
  end.

(** Every [CodecEncodeSelf] method closes the containers it opens, and
    no other. *)
Definition scriptsNested (w : World) : Prop :=
  forall arg st, nestActions (CodecEncodeSelf w arg) st = Some st.

(** The calls made for JSON only. *)
Definition jsonOnly (ev : event) : bool :=
  match ev with
  | WriteArrayElem | WriteMapElemKey | WriteMapElemValue | Writeqstr _ =>
      true
  | _ => false
  end.

(** The events an encoder may send, given whether it is a JSON one. *)
Definition allowed (json : bool) (ev : event) : bool :=
  if jsonOnly ev then json else true.

(** An event that opens and closes nothing and is sent in every
    format. *)
Definition plain (ev : event) : bool :=
  match ev with
  | Drv (WriteArrayStart _) | Drv (WriteMapStart _)
  | Drv WriteArrayEnd | Drv WriteMapEnd => false
  | _ => negb (jsonOnly ev)
  end.

(** [grown e0 e]: from [e0] to [e] the handle and the error are as they
    were and the output has grown, by events the format allows. *)
Definition grown (e0 e : Encoder) : Prop :=
  js e = js e0 /\ hh e = hh e0 /\ err e = err e0 /\
  exists d, out e = out e0 ++ d /\ forallb (allowed (js e0)) d = true.

(** [tidy w e0 e op]: moreover the events sent since [e0] have left
    the containers [op] open, on top of the ones that were. *)
Definition tidy (w : World) (e0 e : Encoder) (op : list bracket) : Prop :=
  js e = js e0 /\ hh e = hh e0 /\ err e = err e0 /\
  exists d, out e = out e0 ++ d /\ forallb (allowed (js e0)) d = true /\
            (scriptsNested w -> forall st, nest d st = Some (op ++ st)).

(** What is asked of an outcome reached from a state that is tidy: a
    return has opened nothing more, a panic has at least kept what was
    written. *)
Definition post (w : World) (e0 : Encoder) (op : list bracket)
  (r : result) : Prop :=
  match r with
  | Ok e => tidy w e0 e op
  | Panic _ e => grown e0 e
  | OutOfFuel => True
  end.

(** An element encoder that keeps the output tidy. *)
Definition tidily (w : World)
  (ev : Encoder -> value -> option codecFn -> result) : Prop :=
  forall e0 e op rv f, tidy w e0 e op -> post w e0 op (ev e rv f).

(** What a key of one of the totally ordered kinds is sorted by. *)
Inductive sortKey : Type :=
| ByBool (b : bool)
| ByInt (i : Z)
| ByUint (u : Z)
| ByString (s : string).

Definition sortKeyOf (k : kind) (v : value) : option sortKey :=
  match k with
  | Bool => option_map ByBool (rvGetBool v)
  | String => option_map ByString (rvGetString v)
  | Int8 | Int16 | Int32 | Int64 | Int => option_map ByInt (rvInt v)
  | Uint8 | Uint16 | Uint32 | Uint64 | Uint | Uintptr =>
      option_map ByUint (rvUint v)
  | _ => None
  end.

(** The key kinds whose [Less] is a total order of the keys: not the
    floats (a NaN), not the times (two locations of one instant), not
    the kinds sorted by their encoded bytes. *)
Definition totalOrderKind (k : kind) : bool :=
  match k with
  | Bool | String => true
  | _ => isIntKind k || isUintKind k
  end.

(** * Two runs of the engine *)

(** [aside p q e e']: the two encoders differ in what they wrote
    before, [p] and [q], and in the container state, and in nothing
    else. *)
Definition aside (p q : list event) (e e' : Encoder) : Prop :=
  ci e' = ci e /\ calls e' = calls e /\ err e' = err e /\
  hh e' = hh e /\ js e' = js e /\
  exists d, out e = p ++ d /\ out e' = q ++ d.

(** Two outcomes of the same kind, on encoders that are aside. *)
Definition asideR (p q : list event) (r r' : result) : Prop :=
  match r, r' with
  | Ok a, Ok b => aside p q a b
  | Panic x a, Panic y b => x = y /\ aside p q a b
  | OutOfFuel, OutOfFuel => True
  | _, _ => False
  end.

(** An element encoder that does the same on encoders that are
    aside. *)
Definition asideEv (ev : Encoder -> value -> option codecFn -> result)
  : Prop :=
  forall p q e e' rv f, aside p q e e' -> asideR p q (ev e rv f) (ev e' rv f).

(** * Counting the values written *)

(** An open container and the number of values still to come in it. *)
Definition level : Type := (bracket * Z)%type.

(** The open containers, innermost first, and the number of values
    completed outside them. *)
Definition count : Type := (list level * nat)%type.

Definition bracket_eqb (a b : bracket) : bool :=
  match a, b with
  | BArray, BArray | BMap, BMap => true
  | _, _ => false
  end.

(** One value is completed: it is one of the values the innermost open
    container still waits for. *)
Definition tick (s : count) : option count :=
  match s with
  | ([], j) => Some ([], S j)
  | ((b, k) :: st, j) =>
      if 0 <? k then Some ((b, k - 1) :: st, j) else None
  end.

(** A container is closed: it is the innermost one, of the kind [b],
    it waits for no more value, and it is itself a value completed. *)
Definition closes (b : bracket) (s : count) : option count :=
  match s with
  | ((b', k) :: st, j) =>
      if bracket_eqb b b' && (k =? 0) then tick (st, j) else None
  | _ => None
  end.

(** What an event does to the count.  An array announces its length,
    a map its number of entries, two values each; the separator calls
    and the finalization steps write no value; every other event is one
    value. *)
Definition shape1 (ev : event) (s : count) : option count :=
  match ev with
  | Drv (WriteArrayStart l) => Some ((BArray, l) :: fst s, snd s)
  | Drv (WriteMapStart l) => Some ((BMap, 2 * l) :: fst s, snd s)
  | Drv WriteArrayEnd => closes BArray s
  | Drv WriteMapEnd => closes BMap s
  | WriteArrayElem | WriteMapElemKey | WriteMapElemValue
  | AtEndOfEncode | WriterEnd => Some s
  | _ => tick s
  end.

Fixpoint shape (d : list event) (s : count) : option count :=
  match d with
  | [] => Some s
  | ev :: d' =>
      match shape1 ev s with
      | Some s' => shape d' s'
      | None => None
      end
  end.

(** The same for the steps of a [CodecEncodeSelf] method, each value
    it encodes counted as one value. *)
Fixpoint shapeActions (acts : list action) (s : count) : option count :=
  match acts with
  | [] => Some s
  | ADriver p :: rest =>
      match shape1 (Drv p) s with
      | Some s' => shapeActions rest s'
      | None => None
      end
  | AMustEncode _ :: rest =>
      match tick s with
      | Some s' => shapeActions rest s'
      | None => None
      end
  end.

(** Every [CodecEncodeSelf] method writes one value. *)
Definition scriptsOneValue (w : World) : Prop :=
  forall arg s, shapeActions (CodecEncodeSelf w arg) s = tick s.

(** The events that write no value, and the ones that are one value
    by themselves. *)
Definition silent (ev : event) : bool :=
  match ev with
  | WriteArrayElem | WriteMapElemKey | WriteMapElemValue
  | AtEndOfEncode | WriterEnd => true
  | _ => false
  end.

Definition oneValue (ev : event) : bool :=
  match ev with
  | Drv (WriteArrayStart _) | Drv (WriteMapStart _)
  | Drv WriteArrayEnd | Drv WriteMapEnd => false
  | _ => negb (silent ev)
  end.

(** [n] values, each written in one piece. *)
Definition nils (n : nat) : list event := repeat (Drv EncodeNil) n.

(** [counted w e0 e d']: the events sent from [e0] to [e] count as the
    events [d'] do. *)
Definition counted (w : World) (e0 e : Encoder) (d' : list event) : Prop :=
  exists d, out e = out e0 ++ d /\
            (scriptsOneValue w -> forall s, shape d s = shape d' s).

Definition cpost (w : World) (e0 : Encoder) (d' : list event)
  (r : result) : Prop :=
  match r with
  | Ok e => counted w e0 e d'
  | _ => True
  end.

(** An element encoder that writes one value when it returns. *)
Definition counting (w : World)
  (ev : Encoder -> value -> option codecFn -> result) : Prop :=
  forall e0 e d rv f,
    counted w e0 e d -> cpost w e0 (d ++ [Drv EncodeNil]) (ev e rv f).

(** * The errors of an encode *)

(** An encoder that can be used: it holds no error and has a
    handle. *)
Definition ready (e : Encoder) : Prop := err e = None /\ hh e = true.

(** The errors an encode on such an encoder can end with, under the
    options of [h]. *)
Definition possible (h : BasicHandle) (x : error) : bool :=
  match x with
  | UninitializedEncoder | NoFormatHandle => false
  | CircularReference => CheckCircularRef h
  | RawDisallowed => negb (Raw h)
  | _ => true
  end.

Definition epost (h : BasicHandle) (r : result) : Prop :=
  match r with
  | Ok e => ready e
  | Panic x _ => possible h x = true
  | OutOfFuel => True
  end.

(** An element encoder that fails with these errors only. *)
Definition careful (h : BasicHandle)
  (ev : Encoder -> value -> option codecFn -> result) : Prop :=
  forall e rv f, ready e -> epost h (ev e rv f).

(** * A concrete handle and concrete values *)

Module Examples.

Local Open Scope string_scope.
Local Open Scope list_scope.

(** The types of the examples:
    [T] is [struct { Self *T }], [Pairs] a map-by-slice [[]interface{}],
    [Rec] is [struct { A int `a,omitempty`; B string `b`;
    C *T `c,omitempty` }], [RecArr] the same with [toarray],
    [ByInt] is [map[int]string], [ByArr] is [map[[2]int]string],
    [SendOnly] is [chan<- int], [Self] a struct with a
    [CodecEncodeSelf] method. *)
Definition intTyp : rtype := Rt 0 Int.
Definition ifaceTyp : rtype := Rt 0 Interface.
Definition T : rtype := Rt 10 Struct.
Definition Pairs : rtype := Rt 7 Slice.
Definition Rec : rtype := Rt 11 Struct.
Definition RecArr : rtype := Rt 12 Struct.
Definition ByInt : rtype := Rt 20 Map.
Definition ByArr : rtype := Rt 21 Map.
Definition Arr2 : rtype := Rt 30 Array.
Definition SendOnly : rtype := Rt 40 Chan.
Definition Self : rtype := Rt 50 Struct.

Definition recFields : list structFieldInfo :=
  [mkSfi "a" true true 0; mkSfi "b" false true 1; mkSfi "c" true true 2].

Definition exTypeInfo (rt : rtype) : typeInfo :=
  let base := mkTypeInfo rt ifaceTyp stringTyp 3 false false
                valueTypeString [] [] false false false in
  if rtype_eqb rt T then
    mkTypeInfo rt ifaceTyp stringTyp 3 false false valueTypeString
      [mkSfi "Self" false true 0] [mkSfi "Self" false true 0]
      false false false
  else if rtype_eqb rt Pairs then
    mkTypeInfo rt ifaceTyp stringTyp 3 true false valueTypeString [] []
      false false false
  else if rtype_eqb rt Rec then
    mkTypeInfo rt ifaceTyp stringTyp 3 false false valueTypeString
      recFields recFields false false false
  else if rtype_eqb rt RecArr then
    mkTypeInfo rt ifaceTyp stringTyp 3 false true valueTypeString
      recFields recFields false false false
  else if rtype_eqb rt ByInt then
    mkTypeInfo rt stringTyp intTyp 3 false false valueTypeString [] []
      false false false
  else if rtype_eqb rt ByArr then
    mkTypeInfo rt stringTyp Arr2 3 false false valueTypeString [] []
      false false false
  else if rtype_eqb rt Arr2 then
    mkTypeInfo rt intTyp stringTyp 3 false false valueTypeString [] []
      false false false
  else if rtype_eqb rt SendOnly then
    mkTypeInfo rt intTyp stringTyp 2 false false valueTypeString [] []
      false false false
  else base.

(** The strategy of a type: the one of its kind, but for [Self]. *)
Definition exFe (rt : rtype) : encFunc :=
  if rtype_eqb rt Self then fe_selferMarshal
  else
    match kindFe (Kind rt) with
    | Some fe => fe
    | None =>
        match Kind rt with
        | Chan => fe_kChan
        | Slice => fe_kSlice
        | Array => fe_kArray
        | Struct => fe_kStruct
        | Map => fe_kMap
        | _ => fe_kErr
        end
    end.

Definition exFn (rt : rtype) : codecFn :=
  mkCodecFn (mkCodecFnInfo (exTypeInfo rt) 0 false false) (exFe rt).

Definition exH : BasicHandle :=
  mkHandle 0 false true true false false false false exFn exTypeInfo.

(** The same handle with [CheckCircularRef] off. *)
Definition exNoCheck : BasicHandle :=
  mkHandle 0 false true false false false false false exFn exTypeInfo.

Definition bytesOf (s : list Z) : value :=
  VSlice 0 (Some (map (VUint 0 UUint8) s)).

(** The heap: at 1 a [T] that points to itself, at 2 a nil byte slice,
    at 3 the byte slice "hi", at 4 a nil [*T]. *)
Definition exHeap (rt : rtype) (a : N) : value :=
  match a with
  | 1%N => VStruct 10 [VPtr 0 T (Some 1%N)]
  | 2%N => VSlice 0 None
  | 3%N => bytesOf [104; 105]
  | _ => VPtr 0 T None
  end.

Definition exWire (evs : list event) : bytes :=
  flat_map (fun ev => match ev with
                      | Drv (EncodeInt n) => [n]
                      | _ => []
                      end) evs.

Definition exW : World :=
  mkWorld exHeap (fun _ => false)
    (fun _ => [ADriver (WriteArrayStart 1);
               AMustEncode (IVal (VInt 0 IInt 7));
               ADriver WriteArrayEnd])
    (fun _ => (None, false)) (fun _ => (None, false))
    (fun _ => (None, false)) (fun _ => [])
    (fun _ => None) (fun _ => None) (fun _ => None)
    (fun _ => 9%N) exWire.

Definition e0 : Encoder := newEncoder false.

Definition str (s : string) : value := VInterface 0 (Some (VString 0 s)).
Definition num (z : Z) : value := VInterface 0 (Some (VInt 0 IInt z)).

Definition run (n : nat) (iv : iface) : option (list event * option error) :=
  match Encode exH exW n e0 iv with
  | Some (e, x) => Some (out e, x)
  | None => None
  end.

Definition selfRef : value := VPtr 0 T (Some 1%N).

Definition recValue (id : N) : value :=
  VStruct id [VInt 0 IInt 0; VString 0 "x"; VPtr 0 T None].

Definition arr2 (a b : Z) : value := VArray 30 [VInt 0 IInt a; VInt 0 IInt b].

Definition byArr : list (value * value) :=
  [(arr2 2 1, VString 0 "q"); (arr2 1 5, VString 0 "p")].

Definition three : list value := [str "a"; num 1; str "b"].
Definition four : list value := [str "a"; num 1; str "b"; num 2].

Definition byIntEntries : list (value * value) :=
  [(VInt 0 IInt 3, VString 0 "c"); (VInt 0 IInt 1, VString 0 "a");
   (VInt 0 IInt 2, VString 0 "b")].

Definition byIntKeys : list (value * Z) :=
  [(VInt 0 IInt 3, 3); (VInt 0 IInt 1, 1); (VInt 0 IInt 2, 2)].

Definition recArrValues : list value :=
  [VInt 0 IInt 0; VString 0 "x"; VInvalid].

Definition recKept : list structFieldInfo := [mkSfi "b" false true 1].

Definition selfPtr : sptrT := (RtPtr 0 T, 1%N).
Definition onPath : Encoder := set_ci [selfPtr] e0.

Definition cplx : value := VComplex 0 true S754_nan S754_nan.

Definition selfValue : iface := IVal (VStruct 50 []).

Definition selfDone : Encoder :=
  mkEncoder [Drv (WriteArrayStart 1); Drv (EncodeInt 7); Drv WriteArrayEnd;
             AtEndOfEncode; WriterEnd]
    [] containerNone 0 None true false.

(** A slice of two interfaces, the second one holding a complex
    number, and what is left of the encoder when encoding it fails. *)
Definition mixed : value :=
  VSlice 8 (Some [num 1; VInterface 0 (Some cplx)]).

Definition halfWritten : Encoder :=
  mkEncoder [Drv (WriteArrayStart 2); Drv (EncodeInt 1)]
    [] containerArrayElem 1 (Some UnsupportedValue) true false.

Definition recDone : Encoder :=
  mkEncoder [Drv (WriteMapStart 1); Drv (EncodeString "b");
             Drv (EncodeString "x"); Drv WriteMapEnd;
             AtEndOfEncode; WriterEnd]
    [] containerNone 0 None true false.

(** The entries of [byIntEntries] as another iteration hands them
    out. *)
Definition byIntSwapped : list (value * value) :=
  [(VInt 0 IInt 1, VString 0 "a"); (VInt 0 IInt 3, VString 0 "c");
   (VInt 0 IInt 2, VString 0 "b")].

(** A world whose pointers all point to a nil [Raw]. *)
Definition rawW : World :=
  mkWorld (fun _ _ => VSlice 1 None) (fun _ => false)
    (fun _ => []) (fun _ => (None, false)) (fun _ => (None, false))
    (fun _ => (None, false)) (fun _ => [])
    (fun _ => None) (fun _ => None) (fun _ => None)
    (fun _ => 9%N) exWire.


(** A world whose [MarshalText] returns bytes together with an
    error. *)
Definition failingW : World :=
  mkWorld exHeap (fun _ => false) (fun _ => [])
    (fun _ => (None, false)) (fun _ => (Some "x", true))
    (fun _ => (None, false)) (fun _ => [])
    (fun _ => None) (fun _ => None) (fun _ => None)
    (fun _ => 9%N) exWire.

Definition byText : codecFn :=
  mkCodecFn (mkCodecFnInfo (exTypeInfo T) 0 false false) fe_textMarshal.

(** The handle of the examples with [Canonical] off, and a
    [map[string]interface{}] in two arrangements. *)
Definition exNatural : BasicHandle :=
  mkHandle 0 false false true false false false false exFn exTypeInfo.

Definition ByString : rtype := Rt 22 Map.

Definition byStringEntries : list (value * value) :=
  [(VString 0 "b", num 2); (VString 0 "a", num 1)].

Definition byStringInOrder : list (value * value) :=
  [(VString 0 "a", num 1); (VString 0 "b", num 2)].

Definition byStringKeys : list (value * string) :=
  [(VString 0 "a", "a"); (VString 0 "b", "b")].

(** What is left of the encoder when the self-referential [T] is
    found out. *)
Definition caughtInCycle : Encoder :=
  mkEncoder [Drv (WriteMapStart 1); Drv (EncodeString "Self")]
    [selfPtr] containerMapValue 1 (Some CircularReference) true false.

End Examples.

(** * Properties *)

(** ** The result monad *)

Lemma bind_Ok (r : result) (k : Encoder -> result) (e' : Encoder) :
  bind r k = Ok e' -> exists e1, r = Ok e1 /\ k e1 = Ok e'.
Proof.
  destruct r as [e1 | x e1 | ]; simpl; intros H; try discriminate.
  exists e1; split; [reflexivity | exact H].
Qed.

Lemma bind_Panic (r : result) (k : Encoder -> result) (x : error)
  (e' : Encoder) :
  bind r k = Panic x e' ->
  r = Panic x e' \/ exists e1, r = Ok e1 /\ k e1 = Panic x e'.
Proof.
  destruct r as [e1 | y e1 | ]; simpl; intros H; try discriminate.
  - right; exists e1; split; [reflexivity | exact H].
  - left; exact H.
Qed.

(** ** Map-by-slice sequences *)

Section MapBySlice.

Variable h : BasicHandle.
Variable ev : Encoder -> value -> option codecFn -> result.

Lemma land1_even (j : Z) : Z.even j = true -> Z.land j 1 = 0.
Proof.
  intros Hj. change 1 with (Z.ones 1). rewrite Z.land_ones by lia.
  change (2 ^ 1) with 2. rewrite Zmod_even, Hj. reflexivity.
Qed.

Lemma land1_odd (j : Z) : Z.odd j = true -> Z.land j 1 = 1.
Proof.
  intros Hj. change 1 with (Z.ones 1) at 1. rewrite Z.land_ones by lia.
  change (2 ^ 1) with 2. rewrite Zmod_odd, Hj. reflexivity.
Qed.

Lemma len_cons {A : Type} (x : A) (l : list A) : len (x :: l) = len l + 1.
Proof. unfold len. simpl List.length. lia. Qed.

Lemma len_nonneg {A : Type} (l : list A) : 0 <= len l.
Proof. unfold len. lia. Qed.

Lemma mbsLoop_pairs (f : option codecFn) :
  forall (m : nat) (xs : list value) (j : Z) (e : Encoder),
    (List.length xs <= m)%nat ->
    Z.even j = true -> Z.even (len xs) = true ->
    mbsLoop ev f j xs e = emitPairs ev f xs e.
Proof.
  induction m as [| m IH]; intros xs j e Hm Hj Hl.
  - destruct xs; [reflexivity | simpl in Hm; lia].
  - destruct xs as [| k [| v rest]]; [reflexivity | discriminate Hl | ].
    simpl mbsLoop. simpl emitPairs.
    rewrite (land1_even j Hj). simpl (0 =? 0).
    rewrite (land1_odd (j + 1)) by (rewrite Z.odd_add, <- Z.negb_even, Hj; reflexivity).
    simpl (1 =? 0).
    destruct (ev (mapElemKey e) k f) as [e1 | |]; simpl; try reflexivity.
    destruct (ev (mapElemValue e1) v f) as [e2 | |]; simpl; try reflexivity.
    apply IH.
    + simpl in Hm. lia.
    + replace (j + 1 + 1) with (j + 2) by lia.
      rewrite Z.even_add, Hj. reflexivity.
    + rewrite !len_cons in Hl.
      replace (len rest + 1 + 1) with (len rest + 2) in Hl by lia.
      rewrite Z.even_add in Hl. simpl in Hl.
      destruct (Z.even (len rest)); [reflexivity | discriminate].
Qed.

Lemma emitPairs_no_mbs_panic (f : option codecFn) :
  (forall e x g e', ev e x g <> Panic MalformedFlattenedSequence e') ->
  forall (m : nat) (xs : list value) (e e' : Encoder),
    (List.length xs <= m)%nat ->
    emitPairs ev f xs e <> Panic MalformedFlattenedSequence e'.
Proof.
  intros Hev. induction m as [| m IH]; intros xs e e' Hm.
  - destruct xs; [discriminate | simpl in Hm; lia].
  - destruct xs as [| k [| v rest]]; try discriminate.
    simpl. intros H.
    apply bind_Panic in H. destruct H as [H | [e1 [_ H]]].
    + exact (Hev _ _ _ _ H).
    + apply bind_Panic in H. destruct H as [H | [e2 [_ H]]].
      * exact (Hev _ _ _ _ H).
      * apply (IH rest e2 e'); [simpl in Hm; lia | exact H].
Qed.

Lemma seqWMbs_odd (xs : list value) (t : typeInfo) (e : Encoder) :
  Z.odd (len xs) = true ->
  seqWMbs h ev xs t e = Panic MalformedFlattenedSequence e.
Proof.
  intros Ho. unfold seqWMbs.
  destruct (len xs =? 0) eqn:E0.
  - apply Z.eqb_eq in E0. rewrite E0 in Ho. discriminate.
  - unfold haltOnMbsOddLen. rewrite (land1_odd _ Ho). reflexivity.
Qed.

Lemma seqWMbs_even (xs : list value) (t : typeInfo) (e : Encoder) :
  Z.even (len xs) = true ->
  seqWMbs h ev xs t e =
  (e1 <- emitPairs ev (kSeqFn h (elem t)) xs (mapStart (len xs / 2) e) ;;
   Ok (mapEnd e1)).
Proof.
  intros He. unfold seqWMbs.
  destruct (len xs =? 0) eqn:E0.
  - apply Z.eqb_eq in E0.
    destruct xs; [| rewrite len_cons in E0; pose proof (len_nonneg xs); lia].
    reflexivity.
  - unfold haltOnMbsOddLen. rewrite (land1_even _ He). simpl.
    rewrite Z.shiftr_div_pow2 by lia. change (2 ^ 1) with 2.
    rewrite (mbsLoop_pairs _ (List.length xs)); auto.
Qed.

End MapBySlice.

(** ** Dispatch *)

Section Dispatch.

Variable h : BasicHandle.
Variable w : World.

Lemma bind_ret (r : result) : bind r Ok = r.
Proof. destruct r; reflexivity. Qed.

(** A value that [TOP] hands on without a push is encoded by its
    strategy, on the encoder as it is. *)
Lemma encodeValue_call (n : nat) (e : Encoder) (rv rv' : value)
  (rvp : option value) (fnv : option codecFn) :
  resolve h w (S n) (ci e) rv None = ToCall rv' rvp None ->
  encodeValue h w (S n) e rv fnv =
  callFe h w (encodeValue h w n) n e (fnFor h fnv rv')
    (feArgFor w (fnFor h fnv rv') rv' rvp).
Proof.
  intros H. simpl encodeValue. unfold encodeValueStep. rewrite H.
  apply bind_ret.
Qed.

(** A slice, array or channel that is not nil goes to its strategy as
    it is. *)
Lemma encodeValue_direct (n : nat) (e : Encoder) (rv : value)
  (fnv : option codecFn) :
  resolve h w (S n) (ci e) rv None = ToCall rv None None ->
  addrE (i (fnFor h fnv rv)) = false ->
  encodeValue h w (S n) e rv fnv =
  callFe h w (encodeValue h w n) n e (fnFor h fnv rv) (ByValue rv).
Proof.
  intros Hr Ha. rewrite (encodeValue_call n e rv rv None fnv Hr).
  unfold feArgFor. rewrite Ha. reflexivity.
Qed.

Lemma encodeValue_slice (n : nat) (e : Encoder) (id : N)
  (xs : list value) (fnv : option codecFn) :
  let rv := VSlice id (Some xs) in
  fe (fnFor h fnv rv) = fe_kSlice -> addrE (i (fnFor h fnv rv)) = false ->
  encodeValue h w (S n) e rv fnv =
  kSlice h (encodeValue h w n) e (i (fnFor h fnv rv)) rv.
Proof.
  intros rv Hfe Ha. rewrite encodeValue_direct by (reflexivity || exact Ha).
  unfold callFe. rewrite Hfe. reflexivity.
Qed.

Lemma encodeValue_array (n : nat) (e : Encoder) (id : N)
  (xs : list value) (fnv : option codecFn) :
  let rv := VArray id xs in
  fe (fnFor h fnv rv) = fe_kArray -> addrE (i (fnFor h fnv rv)) = false ->
  encodeValue h w (S n) e rv fnv =
  kArray h (encodeValue h w n) e (i (fnFor h fnv rv)) rv.
Proof.
  intros rv Hfe Ha. rewrite encodeValue_direct by (reflexivity || exact Ha).
  unfold callFe. rewrite Hfe. reflexivity.
Qed.

Lemma encodeValue_chan (n : nat) (e : Encoder) (id : N)
  (l : list value) (fnv : option codecFn) :
  let rv := VChan id (Some l) in
  fe (fnFor h fnv rv) = fe_kChan -> addrE (i (fnFor h fnv rv)) = false ->
  encodeValue h w (S n) e rv fnv =
  kChan h w (encodeValue h w n) e (i (fnFor h fnv rv)) rv.
Proof.
  intros rv Hfe Ha. rewrite encodeValue_direct by (reflexivity || exact Ha).
  unfold callFe. rewrite Hfe. reflexivity.
Qed.

(** A struct and a map that is not nil go to their strategies with
    [encodeValue] itself, one unit of fuel lower, as the encoder of
    their parts: what is proved of [kStruct] and [kMap] over any such
    encoder holds of the calls [encodeValue] makes. *)
Lemma encodeValue_struct (n : nat) (e : Encoder) (id : N)
  (fs : list value) (fnv : option codecFn) :
  let rv := VStruct id fs in
  fe (fnFor h fnv rv) = fe_kStruct -> addrE (i (fnFor h fnv rv)) = false ->
  encodeValue h w (S n) e rv fnv =
  kStruct h w (encodeValue h w n) n e (i (fnFor h fnv rv)) rv.
Proof.
  intros rv Hfe Ha. rewrite encodeValue_direct by (reflexivity || exact Ha).
  unfold callFe. rewrite Hfe. reflexivity.
Qed.

Lemma encodeValue_map (n : nat) (e : Encoder) (id : N)
  (kvs : list (value * value)) (fnv : option codecFn) :
  let rv := VMap id (Some kvs) in
  fe (fnFor h fnv rv) = fe_kMap -> addrE (i (fnFor h fnv rv)) = false ->
  encodeValue h w (S n) e rv fnv =
  kMap h w (encodeValue h w n) e (i (fnFor h fnv rv)) rv.
Proof.
  intros rv Hfe Ha. rewrite encodeValue_direct by (reflexivity || exact Ha).
  unfold callFe. rewrite Hfe. reflexivity.
Qed.

Lemma seqWMbs_contract (ev : Encoder -> value -> option codecFn -> result)
  (xs : list value) (t : typeInfo) (e : Encoder) :
  mbsContract h ev (seqWMbs h ev xs t e) xs t e.
Proof.
  unfold mbsContract. split; [| split].
  - apply seqWMbs_odd.
  - apply seqWMbs_even.
  - intros Hev. split.
    + intros [e' H]. destruct (Z.odd (len xs)) eqn:Ho; [reflexivity |].
      exfalso. rewrite seqWMbs_even in H
        by (rewrite <- Z.negb_odd, Ho; reflexivity).
      apply bind_Panic in H. destruct H as [H | [e1 [_ H]]].
      * exact (emitPairs_no_mbs_panic ev _ Hev (List.length xs) xs _ _
                 (Nat.le_refl _) H).
      * discriminate H.
    + intros Ho. exists e. apply seqWMbs_odd. exact Ho.
Qed.

(** C1.  A sequence whose type is declared map-by-slice is refused with
    MalformedFlattenedSequence, nothing written, exactly when its length
    is odd; with an even length l it is written as a map of l/2 pairs,
    element 2i as the key and element 2i+1 as the value of pair i, in
    index order.  This holds of the two handlers on every sequence they
    are given, and of [encodeValue] on every slice and array whose
    strategy is the sequence handler of a map-by-slice type. *)
Theorem mapBySlice_even_pairs_odd_fails :
  (forall ev e rv xs t,
      sliceElems rv = Some xs ->
      mbsContract h ev (kSliceWMbs h ev e rv t) xs t e) /\
  (forall ev e rv xs t,
      arrayElems rv = Some xs ->
      mbsContract h ev (kArrayWMbs h ev e rv t) xs t e) /\
  (forall n e id xs fnv,
      let rv := VSlice id (Some xs) in
      let f := fnFor h fnv rv in
      fe f = fe_kSlice -> addrE (i f) = false -> mbs (ti (i f)) = true ->
      mbsContract h (encodeValue h w n)
        (encodeValue h w (S n) e rv fnv) xs (ti (i f)) e) /\
  (forall n e id xs fnv,
      let rv := VArray id xs in
      let f := fnFor h fnv rv in
      fe f = fe_kArray -> addrE (i f) = false -> mbs (ti (i f)) = true ->
      mbsContract h (encodeValue h w n)
        (encodeValue h w (S n) e rv fnv) xs (ti (i f)) e).
Proof.
  split; [| split; [| split]].
  - intros ev e rv xs t H. unfold kSliceWMbs. rewrite H.
    apply seqWMbs_contract.
  - intros ev e rv xs t H. unfold kArrayWMbs. rewrite H.
    apply seqWMbs_contract.
  - intros n e id xs fnv rv f Hfe Ha Hm. subst f rv.
    rewrite encodeValue_slice by assumption. unfold kSlice. rewrite Hm.
    apply (seqWMbs_contract (encodeValue h w n) xs).
  - intros n e id xs fnv rv f Hfe Ha Hm. subst f rv.
    rewrite encodeValue_array by assumption. unfold kArray. rewrite Hm.
    apply (seqWMbs_contract (encodeValue h w n) xs).
Qed.

(** *** Nil values *)

Lemma nilWithin_not_struct (d : nat) (rv : value) :
  nilWithin w d rv = true -> kind_eqb (rvKind rv) Struct = false.
Proof. destruct d, rv; simpl; intros H; try discriminate; reflexivity. Qed.

Lemma resolve_nil :
  forall (d n : nat) (stack : list sptrT) (rv : value) (rvp : option value),
    nilWithin w d rv = true -> (d < n)%nat ->
    resolve h w n stack rv rvp = ToNil.
Proof.
  induction d as [| d IH]; intros n stack rv rvp Hn Hd;
    (destruct n as [| n]; [lia |]).
  - destruct rv as [ | | | | | | | | | ? ? [?|] | ? [?|] | ? [?|] | | ? [?|]
                     | ? [?|] | | ]; simpl in Hn; try discriminate;
      reflexivity.
  - destruct rv as [ | | | | | | | | | id el [a|] | ? [x|] | ? [?|] | | ? [?|]
                     | ? [?|] | | ]; simpl in Hn; try discriminate;
      try reflexivity.
    + simpl. rewrite (nilWithin_not_struct d _ Hn), andb_false_r.
      apply (IH n); [exact Hn | lia].
    + simpl. apply (IH n); [exact Hn | lia].
Qed.

Lemma resolve_call_not_nil :
  forall (n : nat) (stack : list sptrT) (rv : value) (rvp : option value)
         (rv' : value) (rvp' : option value) (sptr : option sptrT),
    resolve h w n stack rv rvp = ToCall rv' rvp' sptr ->
    rvIsNil rv' = false /\ rvKind rv' <> Invalid.
Proof.
  induction n as [| n IH]; intros stack rv rvp rv' rvp' sptr H;
    [discriminate |].
  destruct rv as [ | | | | ? []| ? [] | | | | id el [a|] | ? [x|] | ? [?|] |
                   | ? [?|] | ? [?|] | | ]; simpl in H;
    try discriminate;
    try (injection H as <- _ _; split; [reflexivity | ];
         try discriminate; match goal with
                           | |- rvKind (VInt _ ?k _) <> _ => destruct k
                           | |- rvKind (VUint _ ?k _) <> _ => destruct k
                           end; discriminate).
  - destruct (CheckCircularRef h && kind_eqb (rvKind (deref w id el a)) Struct)
      eqn:E.
    + destruct (existsb _ stack); [discriminate |].
      injection H as <- _ _. apply andb_prop in E. destruct E as [_ E].
      destruct (deref w id el a) as [ | | ? [] | ? [] | ? [] | ? [] | | | | |
                                     | | | | | | ];
        simpl in E; try discriminate; split; (reflexivity || discriminate).
    + exact (IH _ _ _ _ _ _ H).
  - exact (IH _ _ _ _ _ _ H).
Qed.

(** C6.  A value whose active representation is nil (a nil pointer, nil
    interface, nil slice, nil map or nil channel, behind any number of
    pointers and interfaces) makes [encodeValue] write exactly one nil
    and return, the encoder otherwise untouched; and whatever [TOP]
    hands on to a strategy is neither nil nor invalid, so that no
    container handler is called on a nil value. *)
Theorem encodeValue_nil_emits_nil :
  (forall d n e rv fnv,
      nilWithin w d rv = true -> (d <= n)%nat ->
      encodeValue h w (S n) e rv fnv = Ok (emit EncodeNil e)) /\
  (forall n stack rv rvp rv' rvp' sptr,
      resolve h w n stack rv rvp = ToCall rv' rvp' sptr ->
      rvIsNil rv' = false /\ rvKind rv' <> Invalid).
Proof.
  split.
  - intros d n e rv fnv Hn Hd. simpl encodeValue. unfold encodeValueStep.
    rewrite (resolve_nil d) by (assumption || lia). reflexivity.
  - exact resolve_call_not_nil.
Qed.

(** *** Values without a strategy *)

(** C7, as the code has it.  A value that [TOP] hands on and whose
    strategy is [kErr] (the strategy of the kinds that cannot be
    encoded) fails with UnsupportedValue; a function value is not handed
    on: like the invalid value it is written as nil, whatever strategy
    is passed or cached for its type. *)
Theorem unsupported_kind_fails_func_is_nil :
  (forall n e rv rv' rvp fnv,
      resolve h w (S n) (ci e) rv None = ToCall rv' rvp None ->
      fe (fnFor h fnv rv') = fe_kErr ->
      encodeValue h w (S n) e rv fnv = Panic UnsupportedValue e) /\
  (forall n e id isnil fnv,
      encodeValue h w (S n) e (VFunc id isnil) fnv = Ok (emit EncodeNil e)).
Proof.
  split.
  - intros n e rv rv' rvp fnv Hr Hf.
    rewrite (encodeValue_call n e rv rv' rvp fnv Hr).
    unfold callFe. rewrite Hf. reflexivity.
  - intros. reflexivity.
Qed.

(** *** Send-only channels *)

(** C8.  The channel handler, on every channel whose type has no
    receive direction, fails with SendOnlyChannel before it drains
    anything or writes anything: the panic leaves the encoder as it
    was.  So does [encodeValue] on every channel value that reaches the
    handler (a nil channel does not: it is written as nil, see C6). *)
Theorem sendOnly_channel_fails :
  (forall ev e f rv,
      Z.land (chandir (ti f)) RecvDir = 0 ->
      kChan h w ev e f rv = Panic SendOnlyChannel e) /\
  (forall n e id l fnv,
      let rv := VChan id (Some l) in
      let f := fnFor h fnv rv in
      fe f = fe_kChan -> addrE (i f) = false ->
      Z.land (chandir (ti (i f))) RecvDir = 0 ->
      encodeValue h w (S n) e rv fnv = Panic SendOnlyChannel e).
Proof.
  split.
  - intros ev e f rv Hd. unfold kChan. rewrite Hd. reflexivity.
  - intros n e id l fnv rv f Hfe Ha Hd. subst f rv.
    rewrite encodeValue_chan by assumption.
    unfold kChan. rewrite Hd. reflexivity.
Qed.

(** *** Byte slices at the entry point *)

Lemma Encode_same (n : nat) (e : Encoder) (p q : iface) :
  (forall e', encode h w (encodeValue h w n) e' p =
              encode h w (encodeValue h w n) e' q) ->
  Encode h w n e p = Encode h w n e q.
Proof.
  intros H. unfold Encode, MustEncode. rewrite H. reflexivity.
Qed.

(** C10.  At the entry point a non-nil pointer to a byte slice is
    written as nil when the slice it points to is nil, and as a raw
    byte string when that slice is not nil, the empty one included; a
    nil byte slice passed directly is written as nil too, so that
    [Encode] returns the same for the two. *)
Theorem encode_ptr_to_bytes :
  forall ev n e a,
    let p := IVal (VPtr 0 uint8SliceTyp (Some a)) in
    (deref w 0 uint8SliceTyp a = VSlice 0 None ->
     encode h w ev e p = Ok (emit EncodeNil e) /\
     Encode h w n e p = Encode h w n e (IVal (VSlice 0 None))) /\
    (forall l bs,
        deref w 0 uint8SliceTyp a = VSlice 0 (Some l) ->
        mapM rvGetUint8 l = Some bs ->
        encode h w ev e p = Ok (emit (EncodeStringBytesRaw bs) e) /\
        Encode h w n e p = Encode h w n e (IVal (VSlice 0 (Some l)))) /\
    encode h w ev e (IVal (VSlice 0 None)) = Ok (emit EncodeNil e).
Proof.
  intros ev n e a p. split; [| split].
  - intros Hd. split.
    + unfold p, encode, deref in *. simpl. rewrite Hd. reflexivity.
    + apply Encode_same. intros e'. unfold p, encode, deref in *. simpl.
      rewrite Hd. reflexivity.
  - intros l bs Hd Hb. split.
    + unfold p, encode, deref in *. simpl. rewrite Hd. simpl.
      rewrite Hb. reflexivity.
    + apply Encode_same. intros e'. unfold p, encode, deref in *. simpl.
      rewrite Hd. simpl. reflexivity.
  - reflexivity.
Qed.

End Dispatch.

(** ** What an encode leaves of the encoder *)

Lemma nofinal_app (d1 d2 : list event) :
  nofinal d1 -> nofinal d2 -> nofinal (d1 ++ d2).
Proof.
  unfold nofinal. intros H1 H2. rewrite forallb_app, H1, H2. reflexivity.
Qed.

Lemma frame_refl (e : Encoder) : frame e e.
Proof.
  unfold frame. repeat split. exists []. split.
  - symmetry. apply app_nil_r.
  - intros _. reflexivity.
Qed.

Lemma frame_trans (e1 e2 e3 : Encoder) :
  frame e1 e2 -> frame e2 e3 -> frame e1 e3.
Proof.
  unfold frame.
  intros (Hc1 & Hn1 & He1 & Hh1 & Hj1 & d1 & Ho1 & Hf1)
         (Hc2 & Hn2 & He2 & Hh2 & Hj2 & d2 & Ho2 & Hf2).
  repeat split; try congruence.
  exists (d1 ++ d2). split.
  - rewrite Ho2, Ho1, app_assoc. reflexivity.
  - intros Hge. apply nofinal_app; [apply Hf1 | apply Hf2]; congruence.
Qed.

Lemma frame_emit_r (e e1 : Encoder) (ev : event) :
  isFinal ev = false -> frame e e1 -> frame e (emit ev e1).
Proof.
  intros Hev H. apply (frame_trans e e1); [exact H |].
  unfold frame. simpl. repeat split. exists [ev]. split; [reflexivity |].
  intros _. unfold nofinal. simpl. rewrite Hev. reflexivity.
Qed.

Lemma frame_set_c_r (e e1 : Encoder) (s : containerState) :
  frame e e1 -> frame e (set_c s e1).
Proof.
  intros H. apply (frame_trans e e1); [exact H |].
  unfold frame. simpl. repeat split. exists []. split.
  - symmetry. apply app_nil_r.
  - intros _. reflexivity.
Qed.

(** Taking a sequence of steps apart. *)
Ltac inv_ok :=
  repeat match goal with
    | H : bind _ _ = Ok _ |- _ =>
        apply bind_Ok in H; destruct H as [? [? H]]
    | H : Ok _ = Ok _ |- _ => injection H as H; subst
    | H : Panic _ _ = Ok _ |- _ => discriminate H
    | H : OutOfFuel = Ok _ |- _ => discriminate H
    | H : errorf _ _ = Ok _ |- _ => discriminate H
    | H : (if ?b then _ else _) = Ok _ |- _ => destruct b eqn:?
    | H : match ?x with _ => _ end = Ok _ |- _ => destruct x eqn:?
    | H : (let (_, _) := ?x in _) = Ok _ |- _ => destruct x eqn:?
    end.

Create HintDb frame_steps.

(** Going back from the last state to the first, one step at a time. *)
Ltac frame_peel :=
  lazymatch goal with
  | |- frame ?e ?e => apply frame_refl
  | |- frame _ (emit _ _) =>
      apply frame_emit_r; [first [reflexivity | solve [auto]] |]
  | |- frame _ (set_c _ _) => apply frame_set_c_r
  | |- frame _ (if ?b then _ else _) => destruct b
  | |- frame _ (mapStart _ _) => unfold mapStart
  | |- frame _ (mapElemKey _) => unfold mapElemKey
  | |- frame _ (mapElemValue _) => unfold mapElemValue
  | |- frame _ (mapEnd _) => unfold mapEnd
  | |- frame _ (arrayStart _ _) => unfold arrayStart
  | |- frame _ (arrayElem _) => unfold arrayElem
  | |- frame _ (arrayEnd _) => unfold arrayEnd
  | |- frame _ ?e' =>
      is_var e'; eapply frame_trans; cycle 1;
      [solve [eauto with frame_steps] |]
  end.

Ltac frame_solve := repeat frame_peel.

Section Frame.

Variable h : BasicHandle.
Variable w : World.

Section FramedHandlers.

Variable ev : Encoder -> value -> option codecFn -> result.
Hypothesis Hev : framed ev.

Local Hint Resolve Hev : frame_steps.

Lemma frame_rawBytes (v : bytes) (e e' : Encoder) :
  rawBytes h v e = Ok e' -> frame e e'.
Proof. unfold rawBytes. intros H. inv_ok. frame_solve. Qed.

Lemma frame_marshalUtf8 bs fnerr (e e' : Encoder) :
  marshalUtf8 bs fnerr e = Ok e' -> frame e e'.
Proof. unfold marshalUtf8, onerror. intros H. inv_ok; frame_solve. Qed.

Lemma frame_marshalAsis bs fnerr (e e' : Encoder) :
  marshalAsis bs fnerr e = Ok e' -> frame e e'.
Proof. unfold marshalAsis, onerror. intros H. inv_ok; frame_solve. Qed.

Lemma frame_marshalRaw bs fnerr (e e' : Encoder) :
  marshalRaw bs fnerr e = Ok e' -> frame e e'.
Proof. unfold marshalRaw, onerror. intros H. inv_ok; frame_solve. Qed.

Lemma frame_kStructFieldKey kt a name (e e' : Encoder) :
  kStructFieldKey w kt a name e = Ok e' -> frame e e'.
Proof.
  unfold kStructFieldKey, encStructFieldKey. intros H.
  inv_ok; frame_solve.
Qed.

Local Hint Resolve frame_rawBytes frame_marshalUtf8 frame_marshalAsis
  frame_marshalRaw frame_kStructFieldKey : frame_steps.

Lemma frame_encodeDirect (v : value) (e e' : Encoder) :
  encodeDirect h v e = Ok e' -> frame e e'.
Proof. unfold encodeDirect. intros H. inv_ok; frame_solve. Qed.

Local Hint Resolve frame_encodeDirect : frame_steps.

Lemma frame_encode (e : Encoder) (iv : iface) (e' : Encoder) :
  encode h w ev e iv = Ok e' -> frame e e'.
Proof.
  unfold encode. intros H.
  destruct iv as [| v | rv]; [inv_ok; frame_solve | | eauto].
  cbv zeta in H. simpl isNil in H. cbv iota beta in H.
  destruct (rvIsNil v); [inv_ok; frame_solve |].
  destruct (directTyp (rvType v)); [eauto with frame_steps |].
  destruct v; eauto.
  destruct p; eauto.
  inv_ok; try frame_solve; eauto with frame_steps.
Qed.

Lemma frame_MustEncode (e : Encoder) (iv : iface) (e' : Encoder) :
  MustEncode h w ev e iv = Ok e' -> frame e e'.
Proof.
  unfold MustEncode. intros H.
  destruct (err e) eqn:Ee; [discriminate |].
  destruct (negb (hh e)); [discriminate |].
  apply bind_Ok in H. destruct H as [e1 [H1 H]].
  apply frame_encode in H1.
  destruct H1 as (Hc & Hn & Her & Hh & Hj & d & Ho & Hf).
  simpl in *. rewrite Hn in H. simpl in H.
  destruct (calls e) as [| k] eqn:Ek; simpl in H; injection H as <-.
  - unfold frame. simpl. repeat split; try congruence.
    exists (d ++ [AtEndOfEncode; WriterEnd]). split.
    + rewrite Ho, <- !app_assoc. reflexivity.
    + intros Hge. lia.
  - unfold frame. simpl. repeat split; try congruence.
    exists d. split; [exact Ho |]. intros _. apply Hf. lia.
Qed.

Local Hint Resolve frame_encode frame_MustEncode : frame_steps.

Lemma frame_mbsLoop f : forall xs j e e',
  mbsLoop ev f j xs e = Ok e' -> frame e e'.
Proof.
  induction xs as [| x xs IH]; simpl; intros j e e' H; inv_ok;
    frame_solve.
Qed.

Lemma frame_seqLoop f : forall xs e e',
  seqLoop ev f xs e = Ok e' -> frame e e'.
Proof.
  induction xs as [| x xs IH]; simpl; intros e e' H; inv_ok; frame_solve.
Qed.

Local Hint Resolve frame_mbsLoop frame_seqLoop : frame_steps.

Lemma frame_seqWMbs xs t e e' :
  seqWMbs h ev xs t e = Ok e' -> frame e e'.
Proof.
  unfold seqWMbs, haltOnMbsOddLen. intros H. inv_ok; frame_solve.
Qed.

Lemma frame_seqW xs t e e' :
  seqW h ev xs t e = Ok e' -> frame e e'.
Proof. unfold seqW. intros H. inv_ok; frame_solve. Qed.

Local Hint Resolve frame_seqWMbs frame_seqW : frame_steps.

Lemma frame_kSliceWMbs e rv t e' :
  kSliceWMbs h ev e rv t = Ok e' -> frame e e'.
Proof. unfold kSliceWMbs. intros H. inv_ok. eauto with frame_steps. Qed.

Lemma frame_kSliceW e rv t e' :
  kSliceW h ev e rv t = Ok e' -> frame e e'.
Proof. unfold kSliceW. intros H. inv_ok. eauto with frame_steps. Qed.

Lemma frame_kArrayWMbs e rv t e' :
  kArrayWMbs h ev e rv t = Ok e' -> frame e e'.
Proof. unfold kArrayWMbs. intros H. inv_ok. eauto with frame_steps. Qed.

Lemma frame_kArrayW e rv t e' :
  kArrayW h ev e rv t = Ok e' -> frame e e'.
Proof. unfold kArrayW. intros H. inv_ok. eauto with frame_steps. Qed.

Local Hint Resolve frame_kSliceWMbs frame_kSliceW frame_kArrayWMbs
  frame_kArrayW : frame_steps.

Lemma frame_kChan e f rv e' :
  kChan h w ev e f rv = Ok e' -> frame e e'.
Proof.
  unfold kChan, kSliceBytesChan. intros H.
  inv_ok; try frame_solve; eauto with frame_steps.
Qed.

Lemma frame_kSlice e f rv e' :
  kSlice h ev e f rv = Ok e' -> frame e e'.
Proof.
  unfold kSlice. intros H. inv_ok; try frame_solve; eauto with frame_steps.
Qed.

Lemma frame_kArray e f rv e' :
  kArray h ev e f rv = Ok e' -> frame e e'.
Proof.
  unfold kArray. intros H. inv_ok; try frame_solve; eauto with frame_steps.
Qed.

Local Hint Resolve frame_kChan frame_kSlice frame_kArray : frame_steps.

Lemma frame_noOmitArrayLoop rv : forall sfis e e',
  noOmitArrayLoop ev rv sfis e = Ok e' -> frame e e'.
Proof.
  induction sfis as [| si sfis IH]; simpl; intros e e' H; inv_ok;
    frame_solve.
Qed.

Lemma frame_noOmitMapLoop kt rv : forall sfis e e',
  noOmitMapLoop w ev kt rv sfis e = Ok e' -> frame e e'.
Proof.
  induction sfis as [| si sfis IH]; simpl; intros e e' H; inv_ok;
    frame_solve.
Qed.

Lemma frame_structMapLoop kt : forall kvs e e',
  structMapLoop w ev kt kvs e = Ok e' -> frame e e'.
Proof.
  induction kvs as [| kv kvs IH]; simpl; intros e e' H; inv_ok;
    frame_solve.
Qed.

Lemma frame_mfLoop kt : forall mf e e',
  mfLoop h w ev kt mf e = Ok e' -> frame e e'.
Proof.
  induction mf as [| [k v] mf IH]; simpl; intros e e' H; inv_ok;
    frame_solve.
Qed.

Lemma frame_structArrayLoop : forall kvs e e',
  structArrayLoop ev kvs e = Ok e' -> frame e e'.
Proof.
  induction kvs as [| kv kvs IH]; simpl; intros e e' H; inv_ok;
    frame_solve.
Qed.

Local Hint Resolve frame_noOmitArrayLoop frame_noOmitMapLoop
  frame_structMapLoop frame_mfLoop frame_structArrayLoop : frame_steps.

Lemma frame_kStructNoOmitempty e f rv e' :
  kStructNoOmitempty h w ev e f rv = Ok e' -> frame e e'.
Proof. unfold kStructNoOmitempty. intros H. inv_ok; frame_solve. Qed.

Lemma frame_kStruct n e f rv e' :
  kStruct h w ev n e f rv = Ok e' -> frame e e'.
Proof. unfold kStruct. intros H. inv_ok; frame_solve. Qed.

Lemma frame_mapLoop ks kf vf : forall kvs e e',
  mapLoop ev ks kf vf kvs e = Ok e' -> frame e e'.
Proof.
  induction kvs as [| [k v] kvs IH]; simpl; intros e e' H; inv_ok;
    frame_solve.
Qed.

Lemma frame_canonLoop {A : Type} (put : A -> event) rv vf :
  (forall a, isFinal (put a) = false) ->
  forall mksv e e',
    canonLoop ev put rv vf mksv e = Ok e' -> frame e e'.
Proof.
  intros Hput.
  induction mksv as [| [r v] mksv IH]; simpl; intros e e' H; inv_ok;
    frame_solve.
Qed.

Lemma frame_canonCase {A : Type} (get : value -> option A) less
  (put : A -> event) rv vf mks e e' :
  (forall a, isFinal (put a) = false) ->
  canonCase ev get less put rv vf mks e = Ok e' -> frame e e'.
Proof.
  unfold canonCase. intros Hput H. inv_ok.
  eapply frame_canonLoop; eauto.
Qed.

Lemma frame_kMapCanonical t rv vf e e' :
  kMapCanonical h w ev t rv vf e = Ok e' -> frame e e'.
Proof.
  unfold kMapCanonical. intros H.
  destruct (mapEntries rv); [| discriminate].
  assert (Hside :
    match encodeKeys h w ev (NewEncoderBytes e) (map fst l) with
    | SideOk mksbv _ =>
        canonLoop ev Writeb rv vf (sort_Sort (lessRv bytesLess) mksbv) e
    | SidePanic x => Panic x e
    | SideFuel => OutOfFuel
    end = Ok e' -> frame e e').
  { intros H'. destruct (encodeKeys _ _ _ _ _); try discriminate.
    eapply frame_canonLoop; [| exact H']. reflexivity. }
  destruct (Kind (key t)); try (exact (Hside H));
    try (eapply frame_canonCase; [| exact H]; reflexivity).
  destruct (rtype_eqb (key t) timeTyp); [| exact (Hside H)].
  eapply frame_canonCase; [| exact H]. reflexivity.
Qed.

Local Hint Resolve frame_mapLoop frame_kMapCanonical : frame_steps.

Lemma frame_kMap e f rv e' :
  kMap h w ev e f rv = Ok e' -> frame e e'.
Proof. unfold kMap. intros H. inv_ok; frame_solve. Qed.

Lemma frame_runActions : forall acts e e',
  runActions h w ev acts e = Ok e' -> frame e e'.
Proof.
  induction acts as [| [p | iv] acts IH]; simpl; intros e e' H.
  - inv_ok. frame_solve.
  - apply (frame_trans e (emit p e)); [frame_solve | eauto].
  - inv_ok. frame_solve.
Qed.

Lemma frame_reading {A : Type} (get : value -> option A) arg
  (put : A -> prim) e e' :
  reading get arg put e = Ok e' -> frame e e'.
Proof. unfold reading. intros H. inv_ok. frame_solve. Qed.

Lemma frame_callFe n e f arg e' :
  callFe h w ev n e f arg = Ok e' -> frame e e'.
Proof.
  unfold callFe, onValue. intros H.
  destruct (fe f);
    try (eapply frame_reading; exact H);
    try (inv_ok; frame_solve; fail);
    try (destruct arg; [| discriminate]);
    eauto using frame_runActions, frame_kStructNoOmitempty, frame_kStruct,
      frame_kMap with frame_steps.
Qed.

Lemma removelast_snoc {A : Type} (l : list A) (x : A) :
  removelast (l ++ [x]) = l.
Proof. apply removelast_last. Qed.

Lemma frame_encodeValueStep n e rv fnv e' :
  encodeValueStep h w ev n e rv fnv = Ok e' -> frame e e'.
Proof.
  unfold encodeValueStep. intros H.
  destruct (resolve h w (S n) (ci e) rv None) as [| s | rv' rvp [s |] |];
    try discriminate.
  - injection H as <-. frame_solve.
  - apply bind_Ok in H. destruct H as [e1 [H1 H]].
    apply frame_callFe in H1.
    destruct H1 as (Hc & Hn & Her & Hh & Hj & d & Ho & Hf). simpl in *.
    unfold popCi in H. rewrite Hc in H.
    destruct (ci e ++ [s]) eqn:E; [destruct (ci e); discriminate |].
    rewrite <- E in H. injection H as <-.
    unfold frame. simpl. rewrite removelast_snoc.
    repeat split; try assumption. exists d. split; assumption.
  - apply bind_Ok in H. destruct H as [e1 [H1 H]]. injection H as <-.
    eapply frame_callFe. exact H1.
Qed.

End FramedHandlers.

(** Every successful [encodeValue] keeps the frame. *)
Lemma frame_encodeValue : forall n, framed (encodeValue h w n).
Proof.
  induction n as [| n IH]; intros e rv f e' H; [discriminate |].
  simpl in H. eapply frame_encodeValueStep; [exact IH | exact H].
Qed.

End Frame.

(** ** Circular references and nested encodes *)

Lemma kind_eqb_eq (a b : kind) : kind_eqb a b = true <-> a = b.
Proof. split; [destruct a, b; simpl; congruence | intros <-; destruct a; reflexivity]. Qed.

Lemma rtype_eqb_eq : forall a b : rtype, rtype_eqb a b = true <-> a = b.
Proof.
  induction a as [id k | id el IH]; destruct b as [jd l | jd el']; simpl;
    split; intros H; try discriminate.
  - apply andb_prop in H. destruct H as [H1 H2].
    apply N.eqb_eq in H1. apply kind_eqb_eq in H2. congruence.
  - injection H as <- <-. rewrite N.eqb_refl.
    apply (proj2 (kind_eqb_eq k k)). reflexivity.
  - apply andb_prop in H. destruct H as [H1 H2].
    apply N.eqb_eq in H1. apply IH in H2. congruence.
  - injection H as <- <-. rewrite N.eqb_refl.
    apply (proj2 (IH el)). reflexivity.
Qed.

Lemma eq4i_eq (a b : sptrT) : eq4i a b = true <-> a = b.
Proof.
  destruct a as [t p], b as [u q]. unfold eq4i. simpl. split; intros H.
  - apply andb_prop in H. destruct H as [H1 H2].
    apply rtype_eqb_eq in H1. apply N.eqb_eq in H2. congruence.
  - injection H as <- <-. rewrite N.eqb_refl.
    rewrite (proj2 (rtype_eqb_eq t t) eq_refl). reflexivity.
Qed.

Lemma on_stack (s : sptrT) (stack : list sptrT) :
  existsb (eq4i s) stack = true <-> In s stack.
Proof.
  rewrite existsb_exists. split.
  - intros [x [Hin Hx]]. apply eq4i_eq in Hx. subst. exact Hin.
  - intros Hin. exists s. split; [exact Hin | apply eq4i_eq; reflexivity].
Qed.

Section Reentrancy.

Variable h : BasicHandle.
Variable w : World.

(** C5.  With [CheckCircularRef] on, a pointer to a struct is encoded
    as follows.  When its identity is already on the stack the encode
    fails at once with CircularReference, nothing written and nothing
    pushed.  When it is not, the strategy of the struct runs with the
    identity pushed on top of the stack and the identity is popped
    after: the encode, if it returns, returns the stack as it found it
    (as does every [encodeValue]). *)
Theorem circular_reference_stack :
  forall n e id el a fnv,
    CheckCircularRef h = true ->
    rvKind (deref w id el a) = Struct ->
    let sptr := (RtPtr id el, a) in
    let rv := VPtr id el (Some a) in
    let f := fnFor h fnv (deref w id el a) in
    (In sptr (ci e) ->
     encodeValue h w (S n) e rv fnv = Panic CircularReference e) /\
    (~ In sptr (ci e) ->
     encodeValue h w (S n) e rv fnv =
     (e1 <- callFe h w (encodeValue h w n) n (set_ci (ci e ++ [sptr]) e) f
              (feArgFor w f (deref w id el a) (Some rv)) ;;
      popCi e1) /\
     (forall e1,
         callFe h w (encodeValue h w n) n (set_ci (ci e ++ [sptr]) e) f
           (feArgFor w f (deref w id el a) (Some rv)) = Ok e1 ->
         ci e1 = ci e ++ [sptr] /\ popCi e1 = Ok (set_ci (ci e) e1))) /\
    (forall m e0 rv0 fnv0 e',
        encodeValue h w m e0 rv0 fnv0 = Ok e' -> ci e' = ci e0).
Proof.
  intros n e id el a fnv Hc Hk sptr rv f. split; [| split].
  - intros Hin. simpl encodeValue. unfold encodeValueStep. simpl resolve.
    fold (deref w id el a). rewrite Hc, Hk. simpl.
    fold sptr. rewrite (proj2 (on_stack sptr (ci e)) Hin). reflexivity.
  - intros Hin.
    assert (Hex : existsb (eq4i sptr) (ci e) = false).
    { destruct (existsb (eq4i sptr) (ci e)) eqn:E; [| reflexivity].
      apply on_stack in E. contradiction. }
    split.
    + simpl encodeValue. unfold encodeValueStep. simpl resolve.
      fold (deref w id el a). rewrite Hc, Hk. simpl.
      fold sptr. rewrite Hex. reflexivity.
    + intros e1 H1.
      apply (frame_callFe h w _ (frame_encodeValue h w n)) in H1.
      destruct H1 as (Hci & _). simpl in Hci. split; [exact Hci |].
      unfold popCi. rewrite Hci, removelast_snoc.
      destruct (ci e ++ [sptr]) eqn:E; [destruct (ci e); discriminate |].
      reflexivity.
  - intros m e0 rv0 fnv0 e' H.
    apply (frame_encodeValue h w m) in H. apply H.
Qed.

(** C9.  A [MustEncode] that returns has run its body with the counter
    one higher and returns it as it found it.  The body, nested calls
    included, has fired no finalization step; the two steps (the
    driver's end-of-encode hook, then the writer's end) come after it,
    once, when the counter is back to zero, that is at the end of the
    outermost call, and not at all at the end of a nested one. *)
Theorem mustEncode_finalizes_outermost_only :
  forall n e v e',
    MustEncode h w (encodeValue h w n) e v = Ok e' ->
    exists e1 d,
      encode h w (encodeValue h w n) (set_calls (S (calls e)) e) v = Ok e1 /\
      calls e1 = S (calls e) /\
      out e1 = out e ++ d /\ nofinal d /\
      calls e' = calls e /\
      out e' = out e ++ d ++
               (if Nat.eqb (calls e) 0 then [AtEndOfEncode; WriterEnd]
                else []).
Proof.
  intros n e v e' H. unfold MustEncode in H.
  destruct (err e); [discriminate |].
  destruct (negb (hh e)); [discriminate |].
  apply bind_Ok in H. destruct H as [e1 [H1 H]].
  pose proof (frame_encode h w _ (frame_encodeValue h w n) _ _ _ H1) as Hf.
  destruct Hf as (_ & Hn & _ & _ & _ & d & Ho & Hf). simpl in Hn, Ho, Hf.
  exists e1, d. split; [exact H1 |]. split; [exact Hn |].
  split; [exact Ho |]. split; [apply Hf; lia |].
  simpl in H. rewrite Hn in H. simpl in H.
  destruct (calls e) as [| k]; simpl in H; injection H as <-; simpl.
  - split; [reflexivity |]. rewrite Ho, <- !app_assoc. reflexivity.
  - split; [reflexivity |]. rewrite Ho, app_nil_r. reflexivity.
Qed.

End Reentrancy.

(** ** Structs *)

Lemma list_set_length {A : Type} : forall (l : list A) n x l',
  list_set l n x = Some l' -> List.length l' = List.length l.
Proof.
  induction l as [| y l IH]; intros [| n] x l' H; simpl in H;
    try discriminate.
  - injection H as <-. reflexivity.
  - destruct (list_set l n x) eqn:E; [| discriminate].
    injection H as <-. simpl. f_equal. eapply IH. exact E.
Qed.

Lemma list_set_some {A : Type} : forall (l : list A) n x,
  (n < List.length l)%nat -> exists l', list_set l n x = Some l'.
Proof.
  induction l as [| y l IH]; intros [| n] x H; simpl in *; try lia.
  - eexists. reflexivity.
  - destruct (IH n x) as [l' El]; [lia |]. rewrite El. eexists. reflexivity.
Qed.

Lemma list_set_firstn {A : Type} : forall (l : list A) n x l',
  list_set l n x = Some l' -> firstn (S n) l' = firstn n l ++ [x].
Proof.
  induction l as [| y l IH]; intros [| n] x l' H; simpl in H;
    try discriminate.
  - injection H as <-. reflexivity.
  - destruct (list_set l n x) eqn:E; [| discriminate].
    injection H as <-. simpl. f_equal. exact (IH n x l0 E).
Qed.

Section Structs.

Variable h : BasicHandle.
Variable w : World.
Variable ev : Encoder -> value -> option codecFn -> result.

Lemma collectMap_kept (n : nat) (rv : value) (recur : bool) :
  forall sfis kept fkvs newlen,
    keptFields w n rv recur sfis = Some kept ->
    (newlen + List.length sfis <= List.length fkvs)%nat ->
    exists fkvs',
      collectMap w n rv recur sfis fkvs newlen =
      Collected fkvs' (newlen + List.length kept) /\
      firstn (newlen + List.length kept) fkvs' =
      firstn newlen fkvs ++ map (fun si => scratch si rv) kept.
Proof.
  induction sfis as [| si sfis IH]; intros kept fkvs newlen Hk Hl.
  - injection Hk as <-. exists fkvs. simpl.
    rewrite Nat.add_0_r, app_nil_r. split; reflexivity.
  - simpl in Hk, Hl. simpl collectMap.
    destruct (omitted w n si (field si rv) recur) as [[|] |];
      [| | discriminate];
      destruct (keptFields w n rv recur sfis) as [l |] eqn:El;
      try discriminate; injection Hk as <-.
    + apply IH; [reflexivity | lia].
    + destruct (list_set_some fkvs newlen (scratch si rv)) as [fk Efk];
        [lia |].
      unfold scratch in Efk. rewrite Efk.
      destruct (IH l fk (S newlen) eq_refl) as [fkvs' [Hc Hf]].
      { rewrite (list_set_length _ _ _ _ Efk). lia. }
      exists fkvs'. simpl List.length.
      replace (newlen + S (List.length l))%nat
        with (S newlen + List.length l)%nat by lia.
      split; [exact Hc |]. rewrite Hf.
      rewrite (list_set_firstn _ _ _ _ Efk), <- app_assoc. reflexivity.
Qed.

Lemma structMapLoop_scratch (kt : valueType) (rv : value) :
  forall kept e,
    structMapLoop w ev kt (map (fun si => scratch si rv) kept) e =
    noOmitMapLoop w ev kt rv kept e.
Proof.
  induction kept as [| si kept IH]; intros e; simpl; [reflexivity |].
  destruct (kStructFieldKey w kt (encNameAsciiAlphaNum si) (encName si)
              (mapElemKey e)) as [e1 | |]; simpl; try reflexivity.
  destruct (ev (mapElemValue e1) (field si rv) None) as [e2 | |]; simpl;
    try reflexivity.
  apply IH.
Qed.

Lemma keptFields_sound (n : nat) (rv : value) (recur : bool) :
  forall sfis kept,
    keptFields w n rv recur sfis = Some kept ->
    forall si, In si kept ->
      In si sfis /\ omitted w n si (field si rv) recur = Some false.
Proof.
  induction sfis as [| s sfis IH]; intros kept Hk si Hin.
  - injection Hk as <-. destruct Hin.
  - simpl in Hk.
    destruct (omitted w n s (field s rv) recur) as [[|] |] eqn:Eo;
      [| | discriminate];
      destruct (keptFields w n rv recur sfis) as [l |]; try discriminate;
      injection Hk as <-.
    + destruct (IH l eq_refl si Hin). split; [right |]; assumption.
    + destruct Hin as [<- | Hin].
      * split; [left; reflexivity | exact Eo].
      * destruct (IH l eq_refl si Hin). split; [right |]; assumption.
Qed.

Lemma keptFields_complete (n : nat) (rv : value) (recur : bool) :
  forall sfis kept,
    keptFields w n rv recur sfis = Some kept ->
    forall si, In si sfis ->
      omitted w n si (field si rv) recur = Some false -> In si kept.
Proof.
  induction sfis as [| s sfis IH]; intros kept Hk si Hin Ho.
  - destruct Hin.
  - simpl in Hk.
    destruct (omitted w n s (field s rv) recur) as [[|] |] eqn:Eo;
      [| | discriminate];
      destruct (keptFields w n rv recur sfis) as [l |]; try discriminate;
      injection Hk as <-.
    + destruct Hin as [<- | Hin]; [congruence |]. exact (IH l eq_refl si Hin Ho).
    + destruct Hin as [<- | Hin]; [left; reflexivity |].
      right. exact (IH l eq_refl si Hin Ho).
Qed.

Lemma kStruct_map_mode (n : nat) (e : Encoder) (f : codecFnInfo)
  (rv : value) (kept : list structFieldInfo) (mfk : list (string * iface)) :
  structToMap h f = true ->
  (List.length (kStructSfi h f) <=
   List.length (missingFields w f rv) + List.length (sfiSrc (ti f)))%nat ->
  keptFields w n rv (RecursiveEmptyCheck h) (kStructSfi h f) = Some kept ->
  mfKeep w n (RecursiveEmptyCheck h) (infoFieldOmitempty (ti f))
    (missingFields w f rv) = Some mfk ->
  kStruct h w ev n e f rv =
  (e1 <- noOmitMapLoop w ev (keyType (ti f)) rv kept
           (mapStart (len kept + len mfk) e) ;;
   e2 <- mfLoop h w ev (keyType (ti f)) mfk e1 ;;
   Ok (mapEnd e2)).
Proof.
  intros Hmap Hlen Hk Hmf. unfold kStruct. rewrite Hmap.
  destruct (collectMap_kept n rv (RecursiveEmptyCheck h) (kStructSfi h f)
              kept
              (repeat (mkSfiRv None VInvalid)
                 (List.length (missingFields w f rv) +
                  List.length (sfiSrc (ti f)))) 0 Hk)
    as [fkvs' [Hc Hf]].
  { rewrite repeat_length. simpl. exact Hlen. }
  rewrite Hc, Hmf. simpl in Hf. simpl Nat.add. rewrite Hf.
  rewrite structMapLoop_scratch. unfold len. reflexivity.
Qed.

(** Without a flagged field every field is kept. *)
Lemma keptFields_all (n : nat) (rv : value) (recur : bool) :
  forall sfis,
    forallb (fun si => negb (omitEmpty si)) sfis = true ->
    keptFields w n rv recur sfis = Some sfis.
Proof.
  induction sfis as [| si sfis IH]; intros H; [reflexivity |].
  simpl in H. apply andb_prop in H. destruct H as [H1 H2].
  simpl. unfold omitted. apply negb_true_iff in H1. rewrite H1.
  rewrite (IH H2). reflexivity.
Qed.

(** C4.  In map mode the struct is written as a map holding, for each
    field of the field list in its order (the sorted list when
    [Canonical] is set, the declared one otherwise) that is not
    omitted, the declared key of the field followed by its value, and
    then the missing fields that are kept.  A field is omitted when its
    omit-if-empty flag is set and its value is empty, by the shallow or
    the recursive check as [RecursiveEmptyCheck] says.  The scratch
    slice is sized for the declared fields and the missing ones, and
    the field list has to fit in it (the two lists of a type descriptor
    hold the same fields).  The strategy of the struct types without a
    flagged field, [kStructNoOmitempty], writes every field of the list
    in the same way. *)
Theorem struct_map_mode_omits_empty :
  forall n e f rv kept mfk,
    structToMap h f = true ->
    (List.length (kStructSfi h f) <=
     List.length (missingFields w f rv) + List.length (sfiSrc (ti f)))%nat ->
    keptFields w n rv (RecursiveEmptyCheck h) (kStructSfi h f) = Some kept ->
    mfKeep w n (RecursiveEmptyCheck h) (infoFieldOmitempty (ti f))
      (missingFields w f rv) = Some mfk ->
    kStruct h w ev n e f rv =
    (e1 <- noOmitMapLoop w ev (keyType (ti f)) rv kept
             (mapStart (len kept + len mfk) e) ;;
     e2 <- mfLoop h w ev (keyType (ti f)) mfk e1 ;;
     Ok (mapEnd e2)) /\
    (forall si,
        In si kept <->
        In si (kStructSfi h f) /\
        (if omitEmpty si
         then isEmptyValue w n (field si rv) (RecursiveEmptyCheck h)
         else Some false) = Some false) /\
    kStructSfi h f = (if Canonical h then sfiSort (ti f) else sfiSrc (ti f)) /\
    (toArray (ti f) || StructToArray h = false ->
     kStructNoOmitempty h w ev e f rv =
     (e1 <- noOmitMapLoop w ev (keyType (ti f)) rv (kStructSfi h f)
              (mapStart (len (kStructSfi h f)) e) ;;
      Ok (mapEnd e1))).
Proof.
  intros n e f rv kept mfk Hmap Hlen Hk Hmf.
  split; [| split; [| split]].
  - exact (kStruct_map_mode n e f rv kept mfk Hmap Hlen Hk Hmf).
  - intros si. split.
    + apply (keptFields_sound n rv _ _ kept Hk).
    + intros [Hin Ho]. exact (keptFields_complete n rv _ _ kept Hk si Hin Ho).
  - reflexivity.
  - intros Ha. unfold kStructNoOmitempty. rewrite Ha. reflexivity.
Qed.

Lemma collectArray_values (n : nat) (rv : value) (recur : bool) :
  forall sfis vals j fkvs,
    arrayValues w n rv recur sfis = Some vals ->
    (j + List.length sfis <= List.length fkvs)%nat ->
    List.length vals = List.length sfis /\
    exists fkvs',
      collectArray w n rv recur sfis j fkvs =
      Collected fkvs' (j + List.length sfis) /\
      firstn (j + List.length sfis) fkvs' =
      firstn j fkvs ++ map (mkSfiRv None) vals.
Proof.
  induction sfis as [| si sfis IH]; intros vals j fkvs Hv Hl.
  - injection Hv as <-. split; [reflexivity |]. exists fkvs. simpl.
    rewrite Nat.add_0_r, app_nil_r. split; reflexivity.
  - simpl in Hv, Hl. simpl collectArray.
    destruct (omitted w n si (field si rv) recur) as [o |]; [| discriminate].
    destruct (arrayValues w n rv recur sfis) as [l |] eqn:El; [| discriminate].
    injection Hv as <-.
    set (r := if o && nilWhenOmitted (rvKind (field si rv)) then VInvalid
              else field si rv).
    destruct (list_set_some fkvs j (mkSfiRv None r)) as [fk Efk]; [lia |].
    rewrite Efk.
    destruct (IH l (S j) fk eq_refl) as [Hlen [fkvs' [Hc Hf]]].
    { rewrite (list_set_length _ _ _ _ Efk). lia. }
    split; [simpl; f_equal; exact Hlen |].
    exists fkvs'. simpl List.length.
    replace (j + S (List.length sfis))%nat
      with (S j + List.length sfis)%nat by lia.
    split; [exact Hc |]. rewrite Hf.
    rewrite (list_set_firstn _ _ _ _ Efk), <- app_assoc. reflexivity.
Qed.

Lemma structArrayLoop_values : forall vals e,
  structArrayLoop ev (map (mkSfiRv None) vals) e = seqLoop ev None vals e.
Proof.
  induction vals as [| v vals IH]; intros e; simpl; [reflexivity |].
  destruct (ev (arrayElem e) v None) as [e1 | |]; simpl; try reflexivity.
  apply IH.
Qed.

Lemma arrayValues_each (n : nat) (rv : value) (recur : bool) :
  forall sfis vals,
    arrayValues w n rv recur sfis = Some vals ->
    Forall2
      (fun si v =>
         exists o, omitted w n si (field si rv) recur = Some o /\
                   v = if o && nilWhenOmitted (rvKind (field si rv))
                       then VInvalid else field si rv)
      sfis vals.
Proof.
  induction sfis as [| si sfis IH]; intros vals Hv.
  - injection Hv as <-. constructor.
  - simpl in Hv.
    destruct (omitted w n si (field si rv) recur) as [o |] eqn:Eo;
      [| discriminate].
    destruct (arrayValues w n rv recur sfis) as [l |]; [| discriminate].
    injection Hv as <-. constructor.
    + exists o. split; [exact Eo | reflexivity].
    + apply IH. reflexivity.
Qed.

Lemma empty_primitive_is_zero (n : nat) (r : value) (recur : bool) :
  isPrimitive (rvKind r) = true ->
  isEmptyValue w n r recur = Some true ->
  nilWhenOmitted (rvKind r) = false /\
  exists p, literal r = Some p /\ isZeroPrim p = true.
Proof.
  intros Hp He. destruct n as [| n]; [discriminate |].
  destruct r as [ | ? b | ? k x | ? k x | ? [|] x | ? [|] | ? s | | | | | |
                  | | | | ];
    simpl in Hp; try discriminate; simpl in He; injection He as He.
  - split; [reflexivity |]. eexists. split; [reflexivity | exact He].
  - split; [destruct k; reflexivity |].
    eexists. split; [reflexivity | exact He].
  - split; [destruct k; reflexivity |].
    eexists. split; [reflexivity | exact He].
  - split; [reflexivity |]. eexists. split; [reflexivity | exact He].
  - split; [reflexivity |]. eexists. split; [reflexivity | exact He].
  - split; [reflexivity |]. eexists. split; [reflexivity | exact He].
Qed.

Lemma primitive_literal (m : nat) (e : Encoder) (r : value) (p : prim) :
  literal r = Some p ->
  kindFe (rvKind r) = Some (fe (fn h (rvType r))) ->
  addrE (i (fn h (rvType r))) = false ->
  encodeValue h w (S m) e r None = Ok (emit p e).
Proof.
  intros Hl Hk Ha.
  assert (Hr : resolve h w (S m) (ci e) r None = ToCall r None None).
  { destruct r; simpl in Hl; try discriminate; reflexivity. }
  rewrite (encodeValue_call h w m e r r None None Hr).
  unfold callFe, feArgFor, fnFor. rewrite Ha. simpl negb. cbv iota.
  destruct r as [ | ? b | ? k x | ? k x | ? k x | | ? s | | | | | |
                  | | | | ]; simpl in Hl; try discriminate.
  - injection Hl as <-. simpl in Hk. injection Hk as Hk. simpl.
    rewrite <- Hk. reflexivity.
  - injection Hl as <-. destruct k; simpl in Hk; injection Hk as Hk; simpl;
      rewrite <- Hk; reflexivity.
  - injection Hl as <-. destruct k; simpl in Hk; injection Hk as Hk; simpl;
      rewrite <- Hk; reflexivity.
  - destruct k; injection Hl as <-; simpl in Hk; injection Hk as Hk; simpl;
      rewrite <- Hk; reflexivity.
  - injection Hl as <-. simpl in Hk. injection Hk as Hk. simpl.
    rewrite <- Hk. reflexivity.
Qed.

Lemma kStruct_array_mode (n : nat) (e : Encoder) (f : codecFnInfo)
  (rv : value) (vals : list value) :
  structToMap h f = false ->
  arrayValues w n rv (RecursiveEmptyCheck h) (sfiSrc (ti f)) = Some vals ->
  kStruct h w ev n e f rv =
  (e1 <- seqLoop ev None vals (arrayStart (len (sfiSrc (ti f))) e) ;;
   Ok (arrayEnd e1)).
Proof.
  intros Hmap Hv.
  destruct (collectArray_values n rv (RecursiveEmptyCheck h)
              (sfiSrc (ti f)) vals 0
              (repeat (mkSfiRv None VInvalid)
                 (List.length (missingFields w f rv) +
                  List.length (sfiSrc (ti f)))) Hv)
    as [Hlen [fkvs' [Hc Hf]]].
  { rewrite repeat_length. lia. }
  unfold kStruct. rewrite Hmap, Hc. simpl in Hf. rewrite Hf.
  rewrite structArrayLoop_values. reflexivity.
Qed.

Lemma noOmitArrayLoop_values (rv : value) : forall sfis e,
  noOmitArrayLoop ev rv sfis e =
  seqLoop ev None (map (fun si => field si rv) sfis) e.
Proof.
  induction sfis as [| si sfis IH]; intros e; simpl; [reflexivity |].
  destruct (ev (arrayElem e) (field si rv) None) as [e1 | |]; simpl;
    try reflexivity.
  apply IH.
Qed.

(** Without a flagged field the values are those of the fields. *)
Lemma arrayValues_all (n : nat) (rv : value) (recur : bool) :
  forall sfis,
    forallb (fun si => negb (omitEmpty si)) sfis = true ->
    arrayValues w n rv recur sfis = Some (map (fun si => field si rv) sfis).
Proof.
  induction sfis as [| si sfis IH]; intros H; [reflexivity |].
  simpl in H. apply andb_prop in H. destruct H as [H1 H2].
  simpl. unfold omitted. apply negb_true_iff in H1. rewrite H1.
  rewrite (IH H2). reflexivity.
Qed.

(** The two strategies of structs agree on the types the second one is
    made for: no flagged field, no missing fields. *)
Lemma kStruct_without_omitempty (n : nat) (e : Encoder) (f : codecFnInfo)
  (rv : value) :
  forallb (fun si => negb (omitEmpty si)) (sfiSrc (ti f)) = true ->
  forallb (fun si => negb (omitEmpty si)) (sfiSort (ti f)) = true ->
  flagMissingFielder (ti f) = false ->
  flagMissingFielderPtr (ti f) = false ->
  (List.length (sfiSort (ti f)) <= List.length (sfiSrc (ti f)))%nat ->
  kStruct h w ev n e f rv = kStructNoOmitempty h w ev e f rv.
Proof.
  intros Hsrc Hsort Hm1 Hm2 Hlen.
  assert (Hmf : missingFields w f rv = []).
  { unfold missingFields. rewrite Hm1, Hm2. reflexivity. }
  assert (Htm : structToMap h f = negb (toArray (ti f) || StructToArray h)).
  { unfold structToMap. rewrite Hm1, Hm2. reflexivity. }
  unfold kStructNoOmitempty.
  destruct (toArray (ti f) || StructToArray h) eqn:Ea; simpl in Htm.
  - rewrite (kStruct_array_mode n e f rv _ Htm
               (arrayValues_all n rv _ _ Hsrc)).
    rewrite noOmitArrayLoop_values. reflexivity.
  - assert (Hk : forallb (fun si => negb (omitEmpty si)) (kStructSfi h f)
                 = true).
    { unfold kStructSfi. destruct (Canonical h); assumption. }
    rewrite (kStruct_map_mode n e f rv (kStructSfi h f) [] Htm).
    + simpl mfLoop. rewrite Z.add_0_r.
      destruct (noOmitMapLoop w ev (keyType (ti f)) rv (kStructSfi h f)
                  (mapStart (len (kStructSfi h f)) e)); reflexivity.
    + rewrite Hmf. simpl. unfold kStructSfi.
      destruct (Canonical h); [exact Hlen | apply Nat.le_refl].
    + apply keptFields_all. exact Hk.
    + rewrite Hmf. reflexivity.
Qed.

(** C3.  In array mode the struct is written as a sequence with one
    element for each declared field, in declaration order, whatever
    the omit-if-empty flags and the values are.  The element of a field
    that is flagged and empty and whose kind is struct, interface,
    pointer, array, map or slice is the invalid value, which is written
    as nil; the element of any other field is the value of the field,
    so that an empty bool, number or string is written by the strategy
    of its kind as false, 0 or the empty string.  The strategy of the
    struct types without a flagged field, [kStructNoOmitempty], writes
    the value of every declared field likewise. *)
Theorem struct_array_mode_keeps_positions :
  forall n e f rv vals,
    structToMap h f = false ->
    arrayValues w n rv (RecursiveEmptyCheck h) (sfiSrc (ti f)) = Some vals ->
    kStruct h w ev n e f rv =
    (e1 <- seqLoop ev None vals (arrayStart (len (sfiSrc (ti f))) e) ;;
     Ok (arrayEnd e1)) /\
    List.length vals = List.length (sfiSrc (ti f)) /\
    Forall2
      (fun si v =>
         exists o,
           (if omitEmpty si
            then isEmptyValue w n (field si rv) (RecursiveEmptyCheck h)
            else Some false) = Some o /\
           v = if o && nilWhenOmitted (rvKind (field si rv))
               then VInvalid else field si rv)
      (sfiSrc (ti f)) vals /\
    (forall m e0, encodeValue h w (S m) e0 VInvalid None =
                  Ok (emit EncodeNil e0)) /\
    (forall r,
        isPrimitive (rvKind r) = true ->
        isEmptyValue w n r (RecursiveEmptyCheck h) = Some true ->
        nilWhenOmitted (rvKind r) = false /\
        exists p,
          literal r = Some p /\ isZeroPrim p = true /\
          forall m e0,
            kindFe (rvKind r) = Some (fe (fn h (rvType r))) ->
            addrE (i (fn h (rvType r))) = false ->
            encodeValue h w (S m) e0 r None = Ok (emit p e0)) /\
    (toArray (ti f) || StructToArray h = true ->
     kStructNoOmitempty h w ev e f rv =
     (e1 <- seqLoop ev None (map (fun si => field si rv) (sfiSrc (ti f)))
              (arrayStart (len (sfiSrc (ti f))) e) ;;
      Ok (arrayEnd e1))).
Proof.
  intros n e f rv vals Hmap Hv.
  split; [| split; [| split; [| split; [| split]]]].
  - exact (kStruct_array_mode n e f rv vals Hmap Hv).
  - exact (proj1 (collectArray_values n rv (RecursiveEmptyCheck h)
                    (sfiSrc (ti f)) vals 0
                    (repeat (mkSfiRv None VInvalid)
                       (List.length (sfiSrc (ti f)))) Hv
                    ltac:(rewrite repeat_length; lia))).
  - exact (arrayValues_each n rv _ _ vals Hv).
  - intros m e0. reflexivity.
  - intros r Hp He.
    destruct (empty_primitive_is_zero n r _ Hp He) as [Hnil [p [Hl Hz]]].
    split; [exact Hnil |]. exists p. split; [exact Hl |].
    split; [exact Hz |]. intros m e0 Hk Ha.
    exact (primitive_literal m e0 r p Hl Hk Ha).
  - intros Ha. unfold kStructNoOmitempty. rewrite Ha.
    rewrite noOmitArrayLoop_values. reflexivity.
Qed.

End Structs.

(** ** Sorting and the orders of map keys *)

Section Sort.

Variable A : Type.
Variable less : A -> A -> bool.

Hypothesis less_asym : forall a b, less a b = true -> less b a = false.

Lemma sort_insert_perm (x : A) : forall l,
  Permutation (sort_insert less x l) (x :: l).
Proof.
  induction l as [| y l IH]; simpl.
  - apply Permutation_refl.
  - destruct (less x y).
    + apply Permutation_refl.
    + apply (perm_trans (perm_skip y IH)). apply perm_swap.
Qed.

Lemma sort_Sort_perm : forall l, Permutation (sort_Sort less l) l.
Proof.
  induction l as [| x l IH]; simpl.
  - apply perm_nil.
  - apply (perm_trans (sort_insert_perm x _)). apply perm_skip. exact IH.
Qed.

Lemma sort_insert_hd (x y : A) : forall l,
  inOrder less y x -> HdRel (inOrder less) y l -> HdRel (inOrder less) y (sort_insert less x l).
Proof.
  intros l Hyx Hl. destruct l as [| z l]; simpl.
  - constructor. exact Hyx.
  - destruct (less x z); constructor; [exact Hyx |].
    inversion Hl; assumption.
Qed.

Lemma sort_insert_sorted (x : A) : forall l,
  Sorted (inOrder less) l -> Sorted (inOrder less) (sort_insert less x l).
Proof.
  induction l as [| y l IH]; intros Hs; simpl.
  - constructor; constructor.
  - destruct (less x y) eqn:E.
    + constructor; [exact Hs |]. constructor. unfold inOrder.
      apply less_asym. exact E.
    + inversion Hs as [| ? ? Hs' Hhd]; subst. constructor.
      * apply IH. exact Hs'.
      * apply sort_insert_hd; [exact E | exact Hhd].
Qed.

Lemma sort_Sort_sorted : forall l, Sorted (inOrder less) (sort_Sort less l).
Proof.
  induction l as [| x l IH]; simpl.
  - constructor.
  - apply sort_insert_sorted. exact IH.
Qed.

End Sort.

Lemma boolLess_asym (a b : bool) : boolLess a b = true -> boolLess b a = false.
Proof. destruct a, b; cbv; congruence. Qed.

Lemma int64Less_asym (a b : Z) : int64Less a b = true -> int64Less b a = false.
Proof. unfold int64Less. intros H. apply Z.ltb_lt in H. apply Z.ltb_ge. lia. Qed.

Lemma uint64Less_asym (a b : Z) :
  uint64Less a b = true -> uint64Less b a = false.
Proof. exact (int64Less_asym a b). Qed.

Lemma timeLess_asym (a b : Time) : timeLess a b = true -> timeLess b a = false.
Proof. unfold timeLess. intros H. apply Z.ltb_lt in H. apply Z.ltb_ge. lia. Qed.

Lemma stringLess_asym (a b : string) :
  stringLess a b = true -> stringLess b a = false.
Proof.
  unfold stringLess, String.ltb. rewrite (String.compare_antisym a b).
  destruct (String.compare b a); simpl; congruence.
Qed.

Lemma bytesLess_asym : forall a b : bytes,
  bytesLess a b = true -> bytesLess b a = false.
Proof.
  induction a as [| x a IH]; destruct b as [| y b]; simpl; try congruence.
  destruct (x <? y) eqn:E1, (y <? x) eqn:E2; try congruence.
  - apply Z.ltb_lt in E1. apply Z.ltb_lt in E2. lia.
  - apply IH.
Qed.

Lemma float64Less_asym (a b : spec_float) :
  float64Less a b = true -> float64Less b a = false.
Proof.
  unfold float64Less, SFltb, SFcompare.
  destruct a as [s1 | s1 | | s1 m1 e1], b as [s2 | s2 | | s2 m2 e2];
    try (destruct s1); try (destruct s2); try congruence.
  - rewrite (Z.compare_antisym e1 e2).
    change (Pos.compare_cont Eq m2 m1)
      with (Pos.compare_cont (CompOpp Eq) m2 m1).
    rewrite <- (Pos.compare_cont_antisym m1 m2 Eq).
    destruct (e1 ?= e2)%Z; simpl; try congruence.
    destruct (Pos.compare_cont Eq m1 m2); simpl; congruence.
  - rewrite (Z.compare_antisym e1 e2).
    change (Pos.compare_cont Eq m2 m1)
      with (Pos.compare_cont (CompOpp Eq) m2 m1).
    rewrite <- (Pos.compare_cont_antisym m1 m2 Eq).
    destruct (e1 ?= e2)%Z; simpl; try congruence.
    destruct (Pos.compare_cont Eq m1 m2); simpl; congruence.
Qed.

Lemma lessRv_asym {A : Type} (less : A -> A -> bool) :
  (forall a b, less a b = true -> less b a = false) ->
  forall p q : value * A, lessRv less p q = true -> lessRv less q p = false.
Proof. intros H p q. unfold lessRv. apply H. Qed.

(** ** Canonical maps *)

Section Maps.

Variable h : BasicHandle.
Variable w : World.
Variable ev : Encoder -> value -> option codecFn -> result.

Lemma canonLoop_pairs {A : Type} (put : A -> event) (rv : value)
  (valFn : option codecFn) : forall mksv e,
  canonLoop ev put rv valFn mksv e =
  pairsLoop ev valFn (map (fun p => (put (snd p), mapGet rv (fst p))) mksv) e.
Proof.
  induction mksv as [| [r v] mksv IH]; intros e; simpl; [reflexivity |].
  destruct (ev _ (mapGet rv r) valFn); simpl; try reflexivity. apply IH.
Qed.

Lemma mapGet_stored (id : N) (kvs : list (value * value)) (k : value) :
  keysComparable kvs = true -> In k (map fst kvs) ->
  exists k' v,
    In (k', v) kvs /\ value_eqb k' k = true /\
    mapGet (VMap id (Some kvs)) k = v.
Proof.
  intros Hc Hin. unfold mapGet, mapEntries.
  destruct (find (fun kv => value_eqb (fst kv) k) kvs) as [[k' v] |] eqn:E.
  - apply find_some in E. destruct E as [E1 E2].
    exists k', v. split; [exact E1 |]. split; [exact E2 | reflexivity].
  - exfalso. apply in_map_iff in Hin. destruct Hin as [[k0 v0] [Hk Hin]].
    simpl in Hk. subst k0.
    pose proof (find_none _ _ E _ Hin) as Hn. simpl in Hn.
    unfold keysComparable in Hc. rewrite forallb_forall in Hc.
    specialize (Hc _ Hin). simpl in Hc. congruence.
Qed.

Lemma capture_keys {A : Type} (get : value -> option A) :
  forall mks mksv, capture get mks = Some mksv -> map fst mksv = mks.
Proof.
  unfold capture. induction mks as [| k mks IH]; intros mksv H; simpl in H.
  - injection H as <-. reflexivity.
  - destruct (get k) as [a |]; simpl in H; [| discriminate].
    destruct (mapM _ mks) as [l |]; [| discriminate].
    injection H as <-. simpl. f_equal. apply IH. reflexivity.
Qed.

Lemma encodeKeys_keys : forall mks e2 mksbv e2',
  encodeKeys h w ev e2 mks = SideOk mksbv e2' -> map fst mksbv = mks.
Proof.
  induction mks as [| k mks IH]; intros e2 mksbv e2' H; simpl in H.
  - injection H as <- _. reflexivity.
  - destruct (MustEncode h w ev e2 (IReflect k)) as [e3 | |];
      try discriminate.
    destruct (encodeKeys h w ev e3 mks) as [l e4 | |] eqn:E;
      try discriminate.
    injection H as <- _. simpl. f_equal. exact (IH _ _ _ E).
Qed.

Lemma encodeKeys_bytes : forall mks e2 mksbv e2',
  encodeKeys h w ev e2 mks = SideOk mksbv e2' ->
  forall k bs, In (k, bs) mksbv ->
    exists e2a e2b,
      MustEncode h w ev e2a (IReflect k) = Ok e2b /\
      bs = wire w (skipn (List.length (out e2a)) (out e2b)).
Proof.
  induction mks as [| k0 mks IH]; intros e2 mksbv e2' H k bs Hin;
    simpl in H.
  - injection H as <- _. destruct Hin.
  - destruct (MustEncode h w ev e2 (IReflect k0)) as [e3 | |] eqn:Em;
      try discriminate.
    destruct (encodeKeys h w ev e3 mks) as [l e4 | |] eqn:E;
      try discriminate.
    injection H as <- _. destruct Hin as [Hin | Hin].
    + injection Hin as <- <-. exists e2, e3. split; [exact Em | reflexivity].
    + exact (IH _ _ _ E k bs Hin).
Qed.

Lemma sorted_output {A : Type} (less : A -> A -> bool) (put : A -> event)
  (e : Encoder) (f : codecFnInfo) (id : N) (kvs : list (value * value))
  (mksv : list (value * A)) :
  (forall a b, less a b = true -> less b a = false) ->
  Canonical h = true ->
  map fst mksv = map fst kvs ->
  kMapCanonical h w ev (ti f) (VMap id (Some kvs)) (kSeqFn h (elem (ti f)))
    (mapStart (len kvs) e) =
  canonLoop ev put (VMap id (Some kvs)) (kSeqFn h (elem (ti f)))
    (sort_Sort (lessRv less) mksv) (mapStart (len kvs) e) ->
  sortedOutput h w ev less put e f (VMap id (Some kvs)) kvs mksv.
Proof.
  intros Hasym Hc Hkeys Hk. unfold sortedOutput.
  split; [| split; [| split; [| split]]].
  - unfold kMap. change (mapEntries (VMap id (Some kvs))) with (Some kvs).
    cbv beta iota zeta.
    destruct (len kvs =? 0) eqn:E0.
    + apply Z.eqb_eq in E0.
      destruct kvs; [| rewrite len_cons in E0; pose proof (len_nonneg kvs);
                       lia].
      destruct mksv; [reflexivity | discriminate Hkeys].
    + rewrite Hc, Hk, canonLoop_pairs. reflexivity.
  - exact Hkeys.
  - apply sort_Sort_perm.
  - apply (sort_Sort_sorted _ (lessRv less) (lessRv_asym less Hasym)).
  - intros Hcmp p Hin. apply (mapGet_stored id kvs (fst p) Hcmp).
    rewrite <- Hkeys. apply in_map.
    apply (Permutation_in p (sort_Sort_perm _ (lessRv less) mksv)).
    exact Hin.
Qed.

(** C2.  With [Canonical] set, a map is written with all its keys
    captured first and its pairs in the sorted order of the keys, each
    key followed by the value stored under it.  The order is that of
    the kind of the key type: false before true for bool keys, the
    numeric order for integer, unsigned and float keys, the
    lexicographic byte order for string keys, the order of instants for
    time keys; for any other key type each key is first encoded to
    bytes by a second encoder on the same handle, the keys are sorted
    by the lexicographic order of these bytes, and the bytes are what
    is written for the key. *)
Theorem canonical_map_sorted_by_key_kind :
  forall e f id kvs,
    Canonical h = true ->
    let rv := VMap id (Some kvs) in
    let rtkey := key (ti f) in
    let mks := map fst kvs in
    (Kind rtkey = Bool ->
     forall mksv, capture rvGetBool mks = Some mksv ->
       sortedOutput h w ev boolLess (fun v => Drv (EncodeBool v))
         e f rv kvs mksv) /\
    (Kind rtkey = String ->
     forall mksv, capture rvGetString mks = Some mksv ->
       sortedOutput h w ev stringLess (fun v => Drv (EncodeString v))
         e f rv kvs mksv) /\
    (isUintKind (Kind rtkey) = true ->
     forall mksv, capture rvUint mks = Some mksv ->
       sortedOutput h w ev uint64Less (fun v => Drv (EncodeUint v))
         e f rv kvs mksv) /\
    (isIntKind (Kind rtkey) = true ->
     forall mksv, capture rvInt mks = Some mksv ->
       sortedOutput h w ev int64Less (fun v => Drv (EncodeInt v))
         e f rv kvs mksv) /\
    (Kind rtkey = Float32 ->
     forall mksv, capture rvFloat mks = Some mksv ->
       sortedOutput h w ev float64Less (fun v => Drv (EncodeFloat32 v))
         e f rv kvs mksv) /\
    (Kind rtkey = Float64 ->
     forall mksv, capture rvFloat mks = Some mksv ->
       sortedOutput h w ev float64Less (fun v => Drv (EncodeFloat64 v))
         e f rv kvs mksv) /\
    (rtkey = timeTyp ->
     forall mksv, capture rvGetTime mks = Some mksv ->
       sortedOutput h w ev timeLess (fun v => Drv (EncodeTime v))
         e f rv kvs mksv) /\
    (outOfBand rtkey = true ->
     forall mksbv e2,
       encodeKeys h w ev (NewEncoderBytes (mapStart (len kvs) e)) mks =
       SideOk mksbv e2 ->
       sortedOutput h w ev bytesLess Writeb e f rv kvs mksbv /\
       forall k bs, In (k, bs) mksbv ->
         exists e2a e2b,
           MustEncode h w ev e2a (IReflect k) = Ok e2b /\
           bs = wire w (skipn (List.length (out e2a)) (out e2b))).
Proof.
  intros e f id kvs Hc rv rtkey mks.
  assert (Hcase : forall (A : Type) (get : value -> option A) less put mksv,
             (forall a b, less a b = true -> less b a = false) ->
             capture get mks = Some mksv ->
             kMapCanonical h w ev (ti f) rv (kSeqFn h (elem (ti f)))
               (mapStart (len kvs) e) =
             canonCase ev get less put rv (kSeqFn h (elem (ti f))) mks
               (mapStart (len kvs) e) ->
             sortedOutput h w ev less put e f rv kvs mksv).
  { intros A get less put mksv Hasym Hcap Hk.
    apply sorted_output; [exact Hasym | exact Hc | |].
    - exact (capture_keys get mks mksv Hcap).
    - unfold rv in Hk. rewrite Hk. unfold canonCase. rewrite Hcap.
      reflexivity. }
  assert (Hunf : forall vf e0,
             kMapCanonical h w ev (ti f) rv vf e0 =
             let outOfBand :=
               match encodeKeys h w ev (NewEncoderBytes e0) mks with
               | SideOk mksbv _ =>
                   canonLoop ev Writeb rv vf
                     (sort_Sort (lessRv bytesLess) mksbv) e0
               | SidePanic x => Panic x e0
               | SideFuel => OutOfFuel
               end in
             match Kind rtkey with
             | Bool =>
                 canonCase ev rvGetBool boolLess (fun v => Drv (EncodeBool v))
                   rv vf mks e0
             | String =>
                 canonCase ev rvGetString stringLess
                   (fun v => Drv (EncodeString v)) rv vf mks e0
             | Uint8 | Uint16 | Uint32 | Uint64 | Uint | Uintptr =>
                 canonCase ev rvUint uint64Less (fun v => Drv (EncodeUint v))
                   rv vf mks e0
             | Int8 | Int16 | Int32 | Int64 | Int =>
                 canonCase ev rvInt int64Less (fun v => Drv (EncodeInt v))
                   rv vf mks e0
             | Float32 =>
                 canonCase ev rvFloat float64Less
                   (fun v => Drv (EncodeFloat32 v)) rv vf mks e0
             | Float64 =>
                 canonCase ev rvFloat float64Less
                   (fun v => Drv (EncodeFloat64 v)) rv vf mks e0
             | Struct =>
                 if rtype_eqb rtkey timeTyp then
                   canonCase ev rvGetTime timeLess
                     (fun v => Drv (EncodeTime v)) rv vf mks e0
                 else outOfBand
             | _ => outOfBand
             end).
  { intros vf e0. reflexivity. }
  repeat match goal with |- _ /\ _ => split end.
  - intros Hk mksv Hcap. apply (Hcase _ rvGetBool); auto using boolLess_asym.
    rewrite Hunf, Hk. reflexivity.
  - intros Hk mksv Hcap.
    apply (Hcase _ rvGetString); auto using stringLess_asym.
    rewrite Hunf, Hk. reflexivity.
  - intros Hk mksv Hcap. apply (Hcase _ rvUint); auto using uint64Less_asym.
    rewrite Hunf. destruct (Kind rtkey); try discriminate Hk; reflexivity.
  - intros Hk mksv Hcap. apply (Hcase _ rvInt); auto using int64Less_asym.
    rewrite Hunf. destruct (Kind rtkey); try discriminate Hk; reflexivity.
  - intros Hk mksv Hcap. apply (Hcase _ rvFloat); auto using float64Less_asym.
    rewrite Hunf, Hk. reflexivity.
  - intros Hk mksv Hcap. apply (Hcase _ rvFloat); auto using float64Less_asym.
    rewrite Hunf, Hk. reflexivity.
  - intros Hk mksv Hcap. apply (Hcase _ rvGetTime); auto using timeLess_asym.
    rewrite Hunf, Hk. reflexivity.
  - intros Hk mksbv e2 Hside. split.
    + apply sorted_output; [exact bytesLess_asym | exact Hc | |].
      * exact (encodeKeys_keys mks _ mksbv e2 Hside).
      * fold rv. rewrite Hunf. cbv zeta. rewrite Hside.
        unfold outOfBand in Hk. fold rtkey in Hk.
        destruct (Kind rtkey); try discriminate Hk; try reflexivity.
        apply negb_true_iff in Hk. rewrite Hk. reflexivity.
    + exact (encodeKeys_bytes mks _ mksbv e2 Hside).
Qed.

End Maps.

(** ** The shape of the output *)

Lemma nest_app (d1 d2 : list event) : forall st,
  nest (d1 ++ d2) st =
  match nest d1 st with
  | Some st' => nest d2 st'
  | None => None
  end.
Proof.
  induction d1 as [| ev d1 IH]; simpl; intros st; [reflexivity |].
  destruct (nest1 ev st); [apply IH | reflexivity].
Qed.

Lemma plain_allowed (j : bool) (ev : event) :
  plain ev = true -> allowed j ev = true.
Proof.
  unfold allowed. destruct ev as [[] | | | | | | |]; simpl; congruence.
Qed.

Lemma plain_nest1 (ev : event) (st : list bracket) :
  plain ev = true -> nest1 ev st = Some st.
Proof. destruct ev as [[] | | | | | | |]; simpl; congruence. Qed.

Lemma jsonOnly_nest1 (ev : event) (st : list bracket) :
  jsonOnly ev = true -> nest1 ev st = Some st.
Proof. destruct ev as [[] | | | | | | |]; simpl; congruence. Qed.

Lemma tidy_grown (w : World) (e0 e : Encoder) (op : list bracket) :
  tidy w e0 e op -> grown e0 e.
Proof.
  intros (Hj & Hh & He & d & Ho & Ha & _).
  repeat split; try assumption. exists d. split; assumption.
Qed.

Lemma tidy_refl (w : World) (e : Encoder) : tidy w e e [].
Proof.
  repeat split. exists []. rewrite app_nil_r. repeat split.
Qed.

(** One more event: what it does to the open containers. *)
Lemma tidy_event (w : World) (e0 e : Encoder) (op op' : list bracket)
  (ev : event) :
  allowed (js e0) ev = true ->
  (forall st, nest1 ev (op ++ st) = Some (op' ++ st)) ->
  tidy w e0 e op -> tidy w e0 (emit ev e) op'.
Proof.
  intros Ha Hn (Hj & Hh & He & d & Ho & Hd & Hs).
  repeat split; try assumption. exists (d ++ [ev]). simpl. split; [| split].
  - rewrite Ho, app_assoc. reflexivity.
  - rewrite forallb_app, Hd. simpl. rewrite Ha. reflexivity.
  - intros Hw st. rewrite nest_app, (Hs Hw st). simpl. rewrite Hn.
    reflexivity.
Qed.

Lemma tidy_emit (w : World) (e0 e : Encoder) (op : list bracket)
  (ev : event) :
  plain ev = true -> tidy w e0 e op -> tidy w e0 (emit ev e) op.
Proof.
  intros Hp. apply tidy_event.
  - apply plain_allowed. exact Hp.
  - intros st. apply plain_nest1. exact Hp.
Qed.

Lemma tidy_emit_json (w : World) (e0 e : Encoder) (op : list bracket)
  (ev : event) :
  jsonOnly ev = true -> js e = true ->
  tidy w e0 e op -> tidy w e0 (emit ev e) op.
Proof.
  intros Hev Hjs H. assert (Hj : js e0 = true).
  { destruct H as (Hj & _). congruence. }
  revert H. apply tidy_event.
  - unfold allowed. rewrite Hj, Hev. reflexivity.
  - intros st. apply jsonOnly_nest1. exact Hev.
Qed.

Lemma tidy_set_c (w : World) (e0 e : Encoder) (op : list bracket)
  (s : containerState) :
  tidy w e0 e op -> tidy w e0 (set_c s e) op.
Proof. intros H. exact H. Qed.

Lemma tidy_set_ci (w : World) (e0 e : Encoder) (op : list bracket)
  (l : list sptrT) :
  tidy w e0 e op -> tidy w e0 (set_ci l e) op.
Proof. intros H. exact H. Qed.

Lemma tidy_set_calls (w : World) (e0 e : Encoder) (op : list bracket)
  (n : nat) :
  tidy w e0 e op -> tidy w e0 (set_calls n e) op.
Proof. intros H. exact H. Qed.

Lemma tidy_mapStart (w : World) (e0 e : Encoder) (op : list bracket)
  (l : Z) :
  tidy w e0 e op -> tidy w e0 (mapStart l e) (BMap :: op).
Proof.
  intros H. unfold mapStart. apply tidy_set_c.
  revert H. apply tidy_event; reflexivity.
Qed.

Lemma tidy_arrayStart (w : World) (e0 e : Encoder) (op : list bracket)
  (l : Z) :
  tidy w e0 e op -> tidy w e0 (arrayStart l e) (BArray :: op).
Proof.
  intros H. unfold arrayStart. apply tidy_set_c.
  revert H. apply tidy_event; reflexivity.
Qed.

Lemma tidy_mapEnd (w : World) (e0 e : Encoder) (op : list bracket) :
  tidy w e0 e (BMap :: op) -> tidy w e0 (mapEnd e) op.
Proof.
  intros H. unfold mapEnd. apply tidy_set_c.
  revert H. apply tidy_event; reflexivity.
Qed.

Lemma tidy_arrayEnd (w : World) (e0 e : Encoder) (op : list bracket) :
  tidy w e0 e (BArray :: op) -> tidy w e0 (arrayEnd e) op.
Proof.
  intros H. unfold arrayEnd. apply tidy_set_c.
  revert H. apply tidy_event; reflexivity.
Qed.

Lemma tidy_mapElemKey (w : World) (e0 e : Encoder) (op : list bracket) :
  tidy w e0 e op -> tidy w e0 (mapElemKey e) op.
Proof.
  intros H. unfold mapElemKey. apply tidy_set_c.
  destruct (js e) eqn:E; [| exact H].
  apply tidy_emit_json; [reflexivity | exact E | exact H].
Qed.

Lemma tidy_mapElemValue (w : World) (e0 e : Encoder) (op : list bracket) :
  tidy w e0 e op -> tidy w e0 (mapElemValue e) op.
Proof.
  intros H. unfold mapElemValue. apply tidy_set_c.
  destruct (js e) eqn:E; [| exact H].
  apply tidy_emit_json; [reflexivity | exact E | exact H].
Qed.

Lemma tidy_arrayElem (w : World) (e0 e : Encoder) (op : list bracket) :
  tidy w e0 e op -> tidy w e0 (arrayElem e) op.
Proof.
  intros H. unfold arrayElem. apply tidy_set_c.
  destruct (js e) eqn:E; [| exact H].
  apply tidy_emit_json; [reflexivity | exact E | exact H].
Qed.

Lemma post_bind (w : World) (e0 : Encoder) (op1 op : list bracket)
  (r : result) (k : Encoder -> result) :
  post w e0 op1 r ->
  (forall e1, tidy w e0 e1 op1 -> post w e0 op (k e1)) ->
  post w e0 op (bind r k).
Proof.
  intros Hr Hk. destruct r as [e1 | x e1 |]; simpl in *; auto.
Qed.

Lemma post_Panic (w : World) (e0 e : Encoder) (op op' : list bracket)
  (x : error) :
  tidy w e0 e op' -> post w e0 op (Panic x e).
Proof. intros H. simpl. eapply tidy_grown. exact H. Qed.

Create HintDb tidy_steps.

(** The state a step is taken from. *)
Ltac tidy_state :=
  lazymatch goal with
  | |- tidy _ _ (emit _ _) _ =>
      apply tidy_emit; [first [reflexivity | solve [auto]] | tidy_state]
  | |- tidy _ _ (set_c _ _) _ => apply tidy_set_c; tidy_state
  | |- tidy _ _ (set_ci _ _) _ => apply tidy_set_ci; tidy_state
  | |- tidy _ _ (set_calls _ _) _ => apply tidy_set_calls; tidy_state
  | |- tidy _ _ (mapStart _ _) _ => eapply tidy_mapStart; tidy_state
  | |- tidy _ _ (arrayStart _ _) _ => eapply tidy_arrayStart; tidy_state
  | |- tidy _ _ (mapEnd _) _ => eapply tidy_mapEnd; tidy_state
  | |- tidy _ _ (arrayEnd _) _ => eapply tidy_arrayEnd; tidy_state
  | |- tidy _ _ (mapElemKey _) _ => apply tidy_mapElemKey; tidy_state
  | |- tidy _ _ (mapElemValue _) _ => apply tidy_mapElemValue; tidy_state
  | |- tidy _ _ (arrayElem _) _ => apply tidy_arrayElem; tidy_state
  | |- tidy _ _ (if ?b then _ else _) _ => destruct b; tidy_state
  | |- tidy _ _ _ _ => eassumption
  end.

#[global] Hint Extern 0 (tidy _ _ _ _) => tidy_state : tidy_steps.

(** Going through a handler, one step at a time. *)
Ltac tidy_step :=
  lazymatch goal with
  | |- post _ _ _ (bind _ _) => eapply post_bind; [| intros ? ?]
  | |- post _ _ _ (Ok _) => simpl post; tidy_state
  | |- post _ _ _ (Panic _ _) => eapply post_Panic; tidy_state
  | |- post _ _ _ (errorf _ _) => unfold errorf
  | |- post _ _ _ OutOfFuel => exact I
  | |- post _ _ _ (if ?b then _ else _) => destruct b eqn:?
  | |- post _ _ _ (match ?x with _ => _ end) => destruct x eqn:?
  | |- post _ _ _ _ => solve [eauto 3 with tidy_steps nocore]
  | |- tidy _ _ _ _ => tidy_state
  end.

Ltac tidy_solve := cbv zeta; repeat tidy_step.

Section Tidy.

Variable h : BasicHandle.
Variable w : World.

Section TidyHandlers.

Variable ev : Encoder -> value -> option codecFn -> result.
Hypothesis Hev : tidily w ev.

Local Hint Resolve Hev : tidy_steps.

Lemma post_rawBytes v e0 e op :
  tidy w e0 e op -> post w e0 op (rawBytes h v e).
Proof. intros H. unfold rawBytes. tidy_solve. Qed.

Lemma post_marshalUtf8 bs fnerr e0 e op :
  tidy w e0 e op -> post w e0 op (marshalUtf8 bs fnerr e).
Proof. intros H. unfold marshalUtf8, onerror. tidy_solve. Qed.

Lemma post_marshalAsis bs fnerr e0 e op :
  tidy w e0 e op -> post w e0 op (marshalAsis bs fnerr e).
Proof. intros H. unfold marshalAsis, onerror. tidy_solve. Qed.

Lemma post_marshalRaw bs fnerr e0 e op :
  tidy w e0 e op -> post w e0 op (marshalRaw bs fnerr e).
Proof. intros H. unfold marshalRaw, onerror. tidy_solve. Qed.

Lemma post_kStructFieldKey kt a name e0 e op :
  tidy w e0 e op -> post w e0 op (kStructFieldKey w kt a name e).
Proof.
  intros H. unfold kStructFieldKey, encStructFieldKey.
  destruct kt; try (tidy_solve; fail).
  destruct (js e && a) eqn:E; [simpl | tidy_solve].
  apply andb_prop in E. destruct E as [E _].
  apply tidy_emit_json; [reflexivity | exact E | exact H].
Qed.

Local Hint Resolve post_rawBytes post_marshalUtf8 post_marshalAsis
  post_marshalRaw post_kStructFieldKey : tidy_steps.

Lemma post_encodeDirect v e0 e op :
  tidy w e0 e op -> post w e0 op (encodeDirect h v e).
Proof. intros H. unfold encodeDirect. tidy_solve. Qed.

Local Hint Resolve post_encodeDirect : tidy_steps.

Lemma post_encode iv e0 e op :
  tidy w e0 e op -> post w e0 op (encode h w ev e iv).
Proof.
  intros H. unfold encode. destruct iv as [| v | rv]; [tidy_solve | | tidy_solve].
  simpl isNil. cbv iota beta. tidy_solve.
Qed.

Lemma post_MustEncode iv e0 e op :
  tidy w e0 e op -> post w e0 op (MustEncode h w ev e iv).
Proof.
  intros H. pose proof post_encode as Henc. unfold MustEncode. tidy_solve.
Qed.

Local Hint Resolve post_encode post_MustEncode : tidy_steps.

Lemma post_mbsLoop f e0 op : forall xs j e,
  tidy w e0 e op -> post w e0 op (mbsLoop ev f j xs e).
Proof.
  induction xs as [| x xs IH]; simpl; intros j e H; tidy_solve.
Qed.

Lemma post_seqLoop f e0 op : forall xs e,
  tidy w e0 e op -> post w e0 op (seqLoop ev f xs e).
Proof.
  induction xs as [| x xs IH]; simpl; intros e H; tidy_solve.
Qed.

Local Hint Resolve post_mbsLoop post_seqLoop : tidy_steps.

Lemma post_seqWMbs xs t e0 e op :
  tidy w e0 e op -> post w e0 op (seqWMbs h ev xs t e).
Proof.
  intros H. unfold seqWMbs, haltOnMbsOddLen. tidy_solve.
Qed.

Lemma post_seqW xs t e0 e op :
  tidy w e0 e op -> post w e0 op (seqW h ev xs t e).
Proof. intros H. unfold seqW. tidy_solve. Qed.

Local Hint Resolve post_seqWMbs post_seqW : tidy_steps.

Lemma post_kSliceWMbs rv t e0 e op :
  tidy w e0 e op -> post w e0 op (kSliceWMbs h ev e rv t).
Proof. intros H. unfold kSliceWMbs. tidy_solve. Qed.

Lemma post_kSliceW rv t e0 e op :
  tidy w e0 e op -> post w e0 op (kSliceW h ev e rv t).
Proof. intros H. unfold kSliceW. tidy_solve. Qed.

Lemma post_kArrayWMbs rv t e0 e op :
  tidy w e0 e op -> post w e0 op (kArrayWMbs h ev e rv t).
Proof. intros H. unfold kArrayWMbs. tidy_solve. Qed.

Lemma post_kArrayW rv t e0 e op :
  tidy w e0 e op -> post w e0 op (kArrayW h ev e rv t).
Proof. intros H. unfold kArrayW. tidy_solve. Qed.

Local Hint Resolve post_kSliceWMbs post_kSliceW post_kArrayWMbs
  post_kArrayW : tidy_steps.

Lemma post_kChan f rv e0 e op :
  tidy w e0 e op -> post w e0 op (kChan h w ev e f rv).
Proof. intros H. unfold kChan, kSliceBytesChan. tidy_solve. Qed.

Lemma post_kSlice f rv e0 e op :
  tidy w e0 e op -> post w e0 op (kSlice h ev e f rv).
Proof. intros H. unfold kSlice. tidy_solve. Qed.

Lemma post_kArray f rv e0 e op :
  tidy w e0 e op -> post w e0 op (kArray h ev e f rv).
Proof. intros H. unfold kArray. tidy_solve. Qed.

Lemma post_noOmitArrayLoop rv e0 op : forall sfis e,
  tidy w e0 e op -> post w e0 op (noOmitArrayLoop ev rv sfis e).
Proof. induction sfis as [| si sfis IH]; simpl; intros e H; tidy_solve. Qed.

Lemma post_noOmitMapLoop kt rv e0 op : forall sfis e,
  tidy w e0 e op -> post w e0 op (noOmitMapLoop w ev kt rv sfis e).
Proof. induction sfis as [| si sfis IH]; simpl; intros e H; tidy_solve. Qed.

Lemma post_structMapLoop kt e0 op : forall kvs e,
  tidy w e0 e op -> post w e0 op (structMapLoop w ev kt kvs e).
Proof. induction kvs as [| kv kvs IH]; simpl; intros e H; tidy_solve. Qed.

Lemma post_mfLoop kt e0 op : forall mf e,
  tidy w e0 e op -> post w e0 op (mfLoop h w ev kt mf e).
Proof.
  induction mf as [| [k v] mf IH]; simpl; intros e H; tidy_solve.
Qed.

Lemma post_structArrayLoop e0 op : forall kvs e,
  tidy w e0 e op -> post w e0 op (structArrayLoop ev kvs e).
Proof. induction kvs as [| kv kvs IH]; simpl; intros e H; tidy_solve. Qed.

Local Hint Resolve post_noOmitArrayLoop post_noOmitMapLoop
  post_structMapLoop post_mfLoop post_structArrayLoop : tidy_steps.

Lemma post_kStructNoOmitempty f rv e0 e op :
  tidy w e0 e op -> post w e0 op (kStructNoOmitempty h w ev e f rv).
Proof. intros H. unfold kStructNoOmitempty. tidy_solve. Qed.

Lemma post_kStruct n f rv e0 e op :
  tidy w e0 e op -> post w e0 op (kStruct h w ev n e f rv).
Proof. intros H. unfold kStruct. tidy_solve. Qed.

Lemma post_mapLoop ks kf vf e0 op : forall kvs e,
  tidy w e0 e op -> post w e0 op (mapLoop ev ks kf vf kvs e).
Proof.
  induction kvs as [| [k v] kvs IH]; simpl; intros e H; tidy_solve.
Qed.

Lemma post_canonLoop {A : Type} (put : A -> event) rv vf e0 op :
  (forall a, plain (put a) = true) ->
  forall mksv e,
    tidy w e0 e op -> post w e0 op (canonLoop ev put rv vf mksv e).
Proof.
  intros Hput.
  induction mksv as [| [r v] mksv IH]; simpl; intros e H; tidy_solve.
Qed.

Lemma post_canonCase {A : Type} (get : value -> option A) less
  (put : A -> event) rv vf mks e0 e op :
  (forall a, plain (put a) = true) ->
  tidy w e0 e op -> post w e0 op (canonCase ev get less put rv vf mks e).
Proof.
  intros Hput H. unfold canonCase.
  destruct (capture get mks); [| tidy_solve].
  apply post_canonLoop; assumption.
Qed.

Lemma post_kMapCanonical t rv vf e0 e op :
  tidy w e0 e op -> post w e0 op (kMapCanonical h w ev t rv vf e).
Proof.
  intros H. unfold kMapCanonical.
  destruct (mapEntries rv); [| tidy_solve]. cbv zeta.
  assert (Hside : post w e0 op
    match encodeKeys h w ev (NewEncoderBytes e) (map fst l) with
    | SideOk mksbv _ =>
        canonLoop ev Writeb rv vf (sort_Sort (lessRv bytesLess) mksbv) e
    | SidePanic x => Panic x e
    | SideFuel => OutOfFuel
    end).
  { destruct (encodeKeys _ _ _ _ _); [| tidy_solve | tidy_solve].
    apply post_canonLoop; [reflexivity | exact H]. }
  destruct (Kind (key t)); try exact Hside;
    try (apply post_canonCase; [reflexivity | exact H]).
  destruct (rtype_eqb (key t) timeTyp); [| exact Hside].
  apply post_canonCase; [reflexivity | exact H].
Qed.

Local Hint Resolve post_mapLoop post_kMapCanonical : tidy_steps.

Lemma post_kMap f rv e0 e op :
  tidy w e0 e op -> post w e0 op (kMap h w ev e f rv).
Proof. intros H. unfold kMap. tidy_solve. Qed.

Lemma post_reading {A : Type} (get : value -> option A) arg
  (put : A -> prim) e0 e op :
  (forall a, plain (Drv (put a)) = true) ->
  tidy w e0 e op -> post w e0 op (reading get arg put e).
Proof.
  intros Hput H. unfold reading.
  destruct arg as [rv | rv]; [| tidy_solve].
  destruct (get rv); tidy_solve.
Qed.

Lemma grown_trans (e0 e1 e2 : Encoder) :
  grown e0 e1 -> grown e1 e2 -> grown e0 e2.
Proof.
  intros (Hj1 & Hh1 & He1 & d1 & Ho1 & Ha1) (Hj2 & Hh2 & He2 & d2 & Ho2 & Ha2).
  repeat split; try congruence. exists (d1 ++ d2). split.
  - rewrite Ho2, Ho1, app_assoc. reflexivity.
  - rewrite forallb_app, Ha1. rewrite Hj1 in Ha2. rewrite Ha2. reflexivity.
Qed.

(** A [CodecEncodeSelf] method leaves open what its steps leave
    open. *)
Lemma post_runActions (e0 : Encoder) : forall acts e d0,
  js e = js e0 -> hh e = hh e0 -> err e = err e0 ->
  out e = out e0 ++ d0 -> forallb (allowed (js e0)) d0 = true ->
  match runActions h w ev acts e with
  | Ok e' =>
      js e' = js e0 /\ hh e' = hh e0 /\ err e' = err e0 /\
      exists d, out e' = out e0 ++ d0 ++ d /\
                forallb (allowed (js e0)) d = true /\
                (scriptsNested w ->
                 forall st, nest d st = nestActions acts st)
  | Panic _ e' => grown e0 e'
  | OutOfFuel => True
  end.
Proof.
  induction acts as [| [p | iv] acts IH]; intros e d0 Hj Hh He Ho Ha;
    cbn [runActions nestActions].
  - repeat split; try assumption. exists []. rewrite app_nil_r.
    repeat split. exact Ho.
  - specialize (IH (emit p e) (d0 ++ [Drv p]) Hj Hh He).
    simpl in IH. rewrite Ho, <- app_assoc in IH. specialize (IH eq_refl).
    rewrite forallb_app, Ha in IH. specialize (IH eq_refl).
    destruct (runActions h w ev acts (emit p e)) as [e' | x e' |];
      [| exact IH | exact I].
    destruct IH as (Hj' & Hh' & He' & d & Ho' & Ha' & Hn).
    repeat split; try assumption. exists (Drv p :: d). split; [| split].
    + rewrite Ho', <- !app_assoc. reflexivity.
    + simpl. exact Ha'.
    + intros Hw st. cbn [nest].
      destruct (nest1 (Drv p) st); [apply Hn; exact Hw | reflexivity].
  - pose proof (post_MustEncode iv e e [] (tidy_refl w e)) as Hm.
    destruct (MustEncode h w ev e iv) as [e1 | x e1 |]; simpl in *;
      [| | exact I].
    + destruct Hm as (Hj1 & Hh1 & He1 & d1 & Ho1 & Ha1 & Hn1).
      specialize (IH e1 (d0 ++ d1)).
      rewrite Ho1, Ho, <- app_assoc, forallb_app, Ha in IH.
      rewrite Hj in Ha1. rewrite Ha1 in IH.
      specialize (IH ltac:(congruence) ltac:(congruence) ltac:(congruence)
                     eq_refl eq_refl).
      destruct (runActions h w ev acts e1) as [e' | x e' |];
        [| exact IH | exact I].
      destruct IH as (Hj' & Hh' & He' & d & Ho' & Ha' & Hn).
      repeat split; try assumption. exists (d1 ++ d). split; [| split].
      * rewrite Ho', <- !app_assoc. reflexivity.
      * rewrite forallb_app, Ha1, Ha'. reflexivity.
      * intros Hw st. rewrite nest_app, (Hn1 Hw st). simpl.
        apply Hn. exact Hw.
    + apply (grown_trans e0 e); [| exact Hm].
      repeat split; try assumption. exists d0. split; assumption.
Qed.

Lemma post_selfer arg e0 e op :
  tidy w e0 e op ->
  post w e0 op (runActions h w ev (CodecEncodeSelf w arg) e).
Proof.
  intros (Hj & Hh & He & d0 & Ho & Ha & Hn).
  pose proof (post_runActions e0 (CodecEncodeSelf w arg) e d0
                Hj Hh He Ho Ha) as H.
  destruct (runActions h w ev (CodecEncodeSelf w arg) e) as [e' | x e' |];
    simpl; [| exact H | exact I].
  destruct H as (Hj' & Hh' & He' & d & Ho' & Ha' & Hn').
  repeat split; try assumption. exists (d0 ++ d). split; [| split].
  - exact Ho'.
  - rewrite forallb_app, Ha, Ha'. reflexivity.
  - intros Hw st. rewrite nest_app, (Hn Hw st), (Hn' Hw). apply Hw.
Qed.

Lemma post_callFe n f arg e0 e op :
  tidy w e0 e op -> post w e0 op (callFe h w ev n e f arg).
Proof.
  intros H. unfold callFe, onValue.
  destruct (fe f);
    try (apply post_reading; [reflexivity | exact H]);
    try (apply post_selfer; exact H);
    try (destruct arg; [| tidy_solve]);
    eauto using post_kChan, post_kSlice, post_kArray, post_kStruct,
      post_kStructNoOmitempty, post_kMap;
    tidy_solve.
Qed.

Lemma post_encodeValueStep n rv fnv e0 e op :
  tidy w e0 e op -> post w e0 op (encodeValueStep h w ev n e rv fnv).
Proof.
  intros H. pose proof post_callFe as Hc.
  unfold encodeValueStep, popCi.
  destruct (resolve h w (S n) (ci e) rv None) as [| s | rv' rvp [s |] |];
    tidy_solve.
Qed.

End TidyHandlers.
(** Every [encodeValue] keeps the output tidy. *)
Lemma post_encodeValue : forall n, tidily w (encodeValue h w n).
Proof.
  induction n as [| n IH]; intros e0 e op rv f H; [exact I |].
  simpl. apply post_encodeValueStep; assumption.
Qed.

End Tidy.
Section OutputShape.

Variable h : BasicHandle.
Variable w : World.

(** What every [Encode] that ends leaves behind. *)
Lemma Encode_shape n e v e' r :
  Encode h w n e v = Some (e', r) ->
  js e' = js e /\ hh e' = hh e /\ err e' = r /\
  exists d, out e' = out e ++ d /\
            forallb (allowed (js e)) d = true /\
            (r = None -> scriptsNested w ->
             forall st, nest d st = Some st).
Proof.
  unfold Encode. intros H.
  pose proof (post_MustEncode h w _ (post_encodeValue h w n) v e e []
                (tidy_refl w e)) as Hp.
  assert (He : forall e1, MustEncode h w (encodeValue h w n) e v = Ok e1 ->
                          err e = None).
  { unfold MustEncode. intros e1 H1.
    destruct (err e); [discriminate | reflexivity]. }
  destruct (MustEncode h w (encodeValue h w n) e v) as [e1 | x e1 |];
    [| | discriminate]; injection H as <- <-; simpl in Hp.
  - destruct Hp as (Hj & Hh & Her & d & Ho & Ha & Hn).
    repeat split; try assumption.
    + rewrite Her. apply (He e1). reflexivity.
    + exists d. repeat split; try assumption. intros _. exact Hn.
  - destruct Hp as (Hj & Hh & Her & d & Ho & Ha).
    repeat split; try assumption. exists d. simpl.
    repeat split; try assumption. discriminate.
Qed.

(** X1.  An [Encode] that ends, with or without an error, has only
    added to the output: what was written before it is still there,
    and what it wrote before a failure stays written.  The error it
    returns is the one it leaves in the encoder, and the handle is the
    one it found. *)
Theorem Encode_only_appends n e v e' r :
  Encode h w n e v = Some (e', r) ->
  (exists d, out e' = out e ++ d) /\
  err e' = r /\ hh e' = hh e /\ js e' = js e.
Proof.
  intros H. destruct (Encode_shape _ _ _ _ _ H) as (Hj & Hh & He & d & Ho & _).
  repeat split; try assumption. exists d. exact Ho.
Qed.

(** X2.  An encoder that is not a JSON one never makes the separator
    calls ([WriteArrayElem], [WriteMapElemKey], [WriteMapElemValue])
    and never writes a quoted string directly: none is among the
    events of an [Encode], failed ones included. *)
Theorem no_json_calls_unless_json n e v e' r d :
  js e = false ->
  Encode h w n e v = Some (e', r) ->
  out e' = out e ++ d ->
  forall ev, In ev d -> jsonOnly ev = false.
Proof.
  intros Hjs H Hd ev Hin.
  destruct (Encode_shape _ _ _ _ _ H) as (_ & _ & _ & d' & Ho & Ha & _).
  rewrite Ho in Hd. apply app_inv_head in Hd. subst d'.
  rewrite forallb_forall in Ha. specialize (Ha ev Hin).
  unfold allowed in Ha. rewrite Hjs in Ha.
  destruct (jsonOnly ev); [discriminate | reflexivity].
Qed.

(** X3.  When every [CodecEncodeSelf] method closes the containers it
    opens, so does every successful [Encode]: each [WriteArrayEnd] and
    [WriteMapEnd] it sends closes the innermost open container, which
    is of its kind, and none is left open at the end. *)
Theorem containers_well_nested n e v e' d :
  scriptsNested w ->
  Encode h w n e v = Some (e', None) ->
  out e' = out e ++ d ->
  forall st, nest d st = Some st.
Proof.
  intros Hw H Hd.
  destruct (Encode_shape _ _ _ _ _ H) as (_ & _ & _ & d' & Ho & _ & Hn).
  rewrite Ho in Hd. apply app_inv_head in Hd. subst d'.
  apply Hn; [reflexivity | exact Hw].
Qed.

Lemma set_err_same (e : Encoder) (x : option error) :
  err e = x -> set_err x e = e.
Proof. intros <-. destruct e. reflexivity. Qed.

(** X4.  An error sticks: once an [Encode] has failed, every later
    [Encode] on the encoder fails with the same error and leaves the
    encoder as it is, also after a [Reset] or [ResetBytes] with a nil
    target.  A reset with a real target clears it, together with all
    that the failed encode left behind: the encoder is the one that a
    reset before the failed encode gives. *)
Theorem error_sticks_until_reset n e v e' x :
  Encode h w n e v = Some (e', Some x) ->
  (forall m v', Encode h w m e' v' = Some (e', Some x)) /\
  (forall (W : Type) m v',
      Encode h w m (Reset (@None W) e') v' = Some (e', Some x) /\
      Encode h w m (ResetBytes (@None W) e') v' = Some (e', Some x)) /\
  (forall (W : Type) (t : W),
      Reset (Some t) e' = Reset (Some t) e /\
      ResetBytes (Some t) e' = ResetBytes (Some t) e /\
      err (Reset (Some t) e') = None).
Proof.
  intros H. destruct (Encode_shape _ _ _ _ _ H) as (Hj & Hh & He & _).
  assert (Hs : forall m v', Encode h w m e' v' = Some (e', Some x)).
  { intros m v'. unfold Encode, MustEncode. rewrite He.
    rewrite (set_err_same e' (Some x) He). reflexivity. }
  split; [exact Hs |]. split.
  - intros W m v'. split; apply Hs.
  - intros W t. unfold Reset, ResetBytes, resetCommon, retarget. simpl.
    rewrite Hj, Hh. repeat split.
Qed.

(** X5.  An encoder made on a nil writer is left uninitialized: every
    [Encode] on it fails with the uninitialized-encoder error, nothing
    written and the encoder as it was.  A later [Reset] with a real
    target makes it the encoder that [NewEncoder] gives on that
    target, which holds no error. *)
Theorem NewEncoder_nil_target (W : Type) (json : bool) :
  (forall n v,
      Encode h w n (NewEncoder (@None W) json) v =
      Some (NewEncoder (@None W) json, Some UninitializedEncoder)) /\
  out (NewEncoder (@None W) json) = [] /\
  (forall t : W,
      Reset (Some t) (NewEncoder (@None W) json) =
      NewEncoder (Some t) json /\
      err (NewEncoder (Some t) json) = None).
Proof.
  split; [| split].
  - intros n v. reflexivity.
  - reflexivity.
  - intros t. split; reflexivity.
Qed.

End OutputShape.

(** ** The canonical order does not depend on the order of iteration *)

Section SortUnique.

Variable B : Type.
Variable less : B -> B -> bool.

Hypothesis less_asym : forall a b, less a b = true -> less b a = false.
Hypothesis less_trans :
  forall a b c, less a b = true -> less b c = true -> less a c = true.

Lemma inOrder_trans (l : list B) :
  (forall a b, In a l -> In b l ->
               less a b = false -> less b a = false -> a = b) ->
  forall a b c, In a l -> In b l -> In c l ->
    inOrder less a b -> inOrder less b c -> inOrder less a c.
Proof.
  unfold inOrder. intros Htri a b c Ha Hb Hc Hab Hbc.
  destruct (less c a) eqn:Eca; [| reflexivity].
  destruct (less a b) eqn:Eab.
  - rewrite (less_trans c a b Eca Eab) in Hbc. discriminate.
  - rewrite (Htri a b Ha Hb Eab Hab) in Eca. congruence.
Qed.

Lemma sorted_head_least : forall (l : list B) (x : B),
  (forall a b, In a (x :: l) -> In b (x :: l) ->
               less a b = false -> less b a = false -> a = b) ->
  Sorted (inOrder less) (x :: l) ->
  forall y, In y l -> inOrder less x y.
Proof.
  induction l as [| z l IH]; intros x Htri Hs y Hy; [destruct Hy |].
  inversion Hs as [| ? ? Hs' Hhd]; subst.
  inversion Hhd as [| ? ? Hxz]; subst.
  destruct Hy as [<- | Hy]; [exact Hxz |].
  apply (inOrder_trans (x :: z :: l) Htri x z y);
    [left; reflexivity | right; left; reflexivity | right; right; exact Hy
    | exact Hxz |].
  apply IH; [| exact Hs' | exact Hy].
  intros a b Ha Hb. apply Htri; right; assumption.
Qed.

(** A slice has one sorted arrangement when [Less] orders its elements
    totally. *)
Lemma sorted_unique : forall l l' : list B,
  (forall a b, In a l -> In b l ->
               less a b = false -> less b a = false -> a = b) ->
  Permutation l l' ->
  Sorted (inOrder less) l -> Sorted (inOrder less) l' -> l = l'.
Proof.
  induction l as [| x l IH]; intros l' Htri Hp Hs Hs'.
  - apply Permutation_nil in Hp. subst. reflexivity.
  - destruct l' as [| y l'].
    { apply Permutation_sym, Permutation_nil in Hp. discriminate. }
    assert (Htri' : forall a b, In a (y :: l') -> In b (y :: l') ->
              less a b = false -> less b a = false -> a = b).
    { intros a b Ha Hb. apply Htri;
        eapply Permutation_in; try (apply Permutation_sym; exact Hp);
        assumption. }
    assert (Hxy : x = y).
    { assert (Hx : In x (y :: l')).
      { eapply Permutation_in; [exact Hp | left; reflexivity]. }
      assert (Hy : In y (x :: l)).
      { eapply Permutation_in; [apply Permutation_sym; exact Hp |].
        left. reflexivity. }
      destruct Hx as [-> | Hx]; [reflexivity |].
      destruct Hy as [-> | Hy]; [reflexivity |].
      pose proof (sorted_head_least l x Htri Hs y Hy) as H1.
      pose proof (sorted_head_least l' y Htri' Hs' x Hx) as H2.
      unfold inOrder in H1, H2.
      apply Htri; [left; reflexivity | right; exact Hy | exact H2 | exact H1]. }
    subst y. f_equal. apply IH.
    + intros a b Ha Hb. apply Htri; right; assumption.
    + eapply Permutation_cons_inv. exact Hp.
    + inversion Hs; assumption.
    + inversion Hs'; assumption.
Qed.

(** So [sort.Sort] gives the same slice from every arrangement. *)
Lemma sort_Sort_perm_eq (l l' : list B) :
  (forall a b, In a l -> In b l ->
               less a b = false -> less b a = false -> a = b) ->
  Permutation l l' ->
  sort_Sort less l = sort_Sort less l'.
Proof.
  intros Htri Hp. apply sorted_unique.
  - intros a b Ha Hb.
    apply Htri; apply (Permutation_in _ (sort_Sort_perm B less l));
      assumption.
  - apply (perm_trans (sort_Sort_perm B less l)).
    apply (perm_trans Hp). apply Permutation_sym, sort_Sort_perm.
  - apply sort_Sort_sorted. exact less_asym.
  - apply sort_Sort_sorted. exact less_asym.
Qed.

End SortUnique.

Lemma ascii_compare_trans (a b c : ascii) :
  Ascii.compare a b = Lt -> Ascii.compare b c = Lt ->
  Ascii.compare a c = Lt.
Proof.
  unfold Ascii.compare. rewrite !N.compare_lt_iff. apply N.lt_trans.
Qed.

Lemma string_compare_trans : forall s1 s2 s3 : string,
  String.compare s1 s2 = Lt -> String.compare s2 s3 = Lt ->
  String.compare s1 s3 = Lt.
Proof.
  induction s1 as [| x s1 IH]; intros [| y s2] [| z s3]; simpl;
    try congruence.
  destruct (Ascii.compare x y) eqn:Exy; try discriminate;
    destruct (Ascii.compare y z) eqn:Eyz; try discriminate; intros H1 H2.
  - apply Ascii.compare_eq_iff in Exy. subst y. rewrite Eyz.
    apply (IH s2 s3); assumption.
  - apply Ascii.compare_eq_iff in Exy. subst y. rewrite Eyz. reflexivity.
  - apply Ascii.compare_eq_iff in Eyz. subst z. rewrite Exy. reflexivity.
  - rewrite (ascii_compare_trans x y z Exy Eyz). reflexivity.
Qed.

Lemma stringLess_trans (a b c : string) :
  stringLess a b = true -> stringLess b c = true -> stringLess a c = true.
Proof.
  unfold stringLess, String.ltb. intros H1 H2.
  destruct (String.compare a b) eqn:E1; try discriminate.
  destruct (String.compare b c) eqn:E2; try discriminate.
  rewrite (string_compare_trans a b c E1 E2). reflexivity.
Qed.

Lemma stringLess_total (a b : string) :
  stringLess a b = false -> stringLess b a = false -> a = b.
Proof.
  unfold stringLess, String.ltb. rewrite (String.compare_antisym a b).
  destruct (String.compare b a) eqn:E; simpl; try discriminate.
  intros _ _. apply String.compare_eq_iff in E. congruence.
Qed.

Lemma boolLess_trans (a b c : bool) :
  boolLess a b = true -> boolLess b c = true -> boolLess a c = true.
Proof. destruct a, b, c; cbv; congruence. Qed.

Lemma boolLess_total (a b : bool) :
  boolLess a b = false -> boolLess b a = false -> a = b.
Proof. destruct a, b; cbv; congruence. Qed.

Lemma int64Less_trans (a b c : Z) :
  int64Less a b = true -> int64Less b c = true -> int64Less a c = true.
Proof. unfold int64Less. rewrite !Z.ltb_lt. lia. Qed.

Lemma int64Less_total (a b : Z) :
  int64Less a b = false -> int64Less b a = false -> a = b.
Proof. unfold int64Less. rewrite !Z.ltb_ge. lia. Qed.

Lemma mapM_perm {A B : Type} (f : A -> option B) : forall l l',
  Permutation l l' ->
  match mapM f l, mapM f l' with
  | Some m, Some m' => Permutation m m'
  | None, None => True
  | _, _ => False
  end.
Proof.
  induction 1 as [| x l l' Hp IH | x y l | l l' l'' Hp1 IH1 Hp2 IH2]; simpl.
  - constructor.
  - destruct (f x); [| exact I].
    destruct (mapM f l), (mapM f l'); simpl; try exact IH.
    apply perm_skip. exact IH.
  - destruct (f y), (f x); try exact I;
      destruct (mapM f l); simpl; try exact I.
    + apply perm_swap.
  - destruct (mapM f l), (mapM f l'), (mapM f l''); try contradiction;
      try exact I.
    eapply perm_trans; eassumption.
Qed.

Lemma find_perm {A : Type} (p : A -> bool) : forall l l',
  Permutation l l' ->
  (forall x y, In x l -> In y l -> p x = true -> p y = true -> x = y) ->
  find p l = find p l'.
Proof.
  induction 1 as [| x l l' Hp IH | x y l | l l' l'' Hp1 IH1 Hp2 IH2];
    intros Hu; simpl.
  - reflexivity.
  - destruct (p x); [reflexivity |]. apply IH.
    intros a b Ha Hb. apply Hu; right; assumption.
  - destruct (p y) eqn:Ey, (p x) eqn:Ex; try reflexivity.
    f_equal. apply Hu; simpl; auto.
  - rewrite (IH1 Hu). apply IH2.
    intros a b Ha Hb. apply Hu;
      apply (Permutation_in _ (Permutation_sym Hp1)); assumption.
Qed.

Lemma NoDup_map_eq {A B : Type} (f : A -> B) : forall (l : list A) x y,
  NoDup (map f l) -> In x l -> In y l -> f x = f y -> x = y.
Proof.
  induction l as [| z l IH]; intros x y Hn Hx Hy Hf; [destruct Hx |].
  simpl in Hn. inversion Hn as [| ? ? Hz Hn']; subst.
  destruct Hx as [-> | Hx], Hy as [-> | Hy]; try reflexivity.
  - exfalso. apply Hz. rewrite Hf. apply in_map. exact Hy.
  - exfalso. apply Hz. rewrite <- Hf. apply in_map. exact Hx.
  - apply IH; assumption.
Qed.

Lemma capture_vals {A : Type} (get : value -> option A) :
  forall mks mksv,
    capture get mks = Some mksv ->
    map get mks = map (fun p => Some (snd p)) mksv.
Proof.
  unfold capture. induction mks as [| k mks IH]; intros mksv H; simpl in H.
  - injection H as <-. reflexivity.
  - destruct (get k) as [a |] eqn:E; simpl in H; [| discriminate].
    destruct (mapM _ mks) as [l |]; [| discriminate].
    injection H as <-. simpl. rewrite E. f_equal. apply IH. reflexivity.
Qed.

(** The cases of [value_eqb] on values of two shapes. *)
Ltac stuck_eqb H :=
  solve [ discriminate H
        | repeat match type of H with
            | match ?x with _ => _ end = true => destruct x
            end; discriminate H ].

Lemma value_eqb_rvGetBool (a b : value) :
  value_eqb a b = true -> rvGetBool a = rvGetBool b.
Proof.
  destruct a, b; simpl; intros H; try reflexivity; try stuck_eqb H.
  apply andb_prop in H. destruct H as [_ H].
  apply Bool.eqb_prop in H. congruence.
Qed.

Lemma value_eqb_rvGetString (a b : value) :
  value_eqb a b = true -> rvGetString a = rvGetString b.
Proof.
  destruct a, b; simpl; intros H; try reflexivity; try stuck_eqb H.
  apply andb_prop in H. destruct H as [_ H].
  apply String.eqb_eq in H. congruence.
Qed.

Lemma value_eqb_rvInt (a b : value) :
  value_eqb a b = true -> rvInt a = rvInt b.
Proof.
  destruct a, b; simpl; intros H; try reflexivity; try stuck_eqb H.
  apply andb_prop in H. destruct H as [_ H].
  apply Z.eqb_eq in H. congruence.
Qed.

Lemma value_eqb_rvUint (a b : value) :
  value_eqb a b = true -> rvUint a = rvUint b.
Proof.
  destruct a, b; simpl; intros H; try reflexivity; try stuck_eqb H.
  apply andb_prop in H. destruct H as [_ H].
  apply Z.eqb_eq in H. congruence.
Qed.

Section CanonicalOrder.

Variable h : BasicHandle.
Variable w : World.
Variable ev : Encoder -> value -> option codecFn -> result.

Lemma canonLoop_ext {A : Type} (put : A -> event) (rv rv' : value) vf :
  forall mksv e,
    (forall p, In p mksv -> mapGet rv (fst p) = mapGet rv' (fst p)) ->
    canonLoop ev put rv vf mksv e = canonLoop ev put rv' vf mksv e.
Proof.
  induction mksv as [| [r v] mksv IH]; intros e Hg; simpl; [reflexivity |].
  pose proof (Hg (r, v) (or_introl eq_refl)) as Hr. simpl in Hr.
  rewrite Hr.
  destruct (ev _ (mapGet rv' r) vf); simpl; try reflexivity.
  apply IH. intros p Hp. apply Hg. right. exact Hp.
Qed.

(** One case of [kMapCanonical], on two arrangements of the entries
    of a map. *)
Lemma canonCase_perm {A : Type} (get : value -> option A)
  (less : A -> A -> bool) (put : A -> event) (id : N)
  (kvs kvs' : list (value * value)) vf e :
  (forall a b, less a b = true -> less b a = false) ->
  (forall a b c, less a b = true -> less b c = true -> less a c = true) ->
  (forall a b, less a b = false -> less b a = false -> a = b) ->
  (forall a b, value_eqb a b = true -> get a = get b) ->
  Permutation kvs kvs' ->
  NoDup (map (fun kv => get (fst kv)) kvs) ->
  canonCase ev get less put (VMap id (Some kvs)) vf (map fst kvs) e =
  canonCase ev get less put (VMap id (Some kvs')) vf (map fst kvs') e.
Proof.
  intros Hasym Htrans Htot Hget Hp Hnd. unfold canonCase.
  pose proof (mapM_perm (fun k => option_map (pair k) (get k))
                (map fst kvs) (map fst kvs') (Permutation_map fst Hp)) as Hm.
  fold (capture get (map fst kvs)) in Hm.
  fold (capture get (map fst kvs')) in Hm.
  destruct (capture get (map fst kvs)) as [m |] eqn:E;
    destruct (capture get (map fst kvs')) as [m' |] eqn:E';
    try contradiction; [| reflexivity].
  assert (Hnd' : NoDup (map snd m)).
  { apply capture_vals in E. rewrite map_map in E. rewrite E in Hnd.
    rewrite <- (map_map snd Some) in Hnd.
    apply NoDup_map_inv in Hnd. exact Hnd. }
  rewrite (sort_Sort_perm_eq _ (lessRv less)
             ltac:(intros a b; apply Hasym)
             ltac:(intros a b c; apply Htrans) m m').
  - apply canonLoop_ext. intros p _. unfold mapGet, mapEntries.
    rewrite (find_perm (fun kv => value_eqb (fst kv) (fst p)) kvs kvs' Hp);
      [reflexivity |].
    intros x y Hx Hy H1 H2.
    apply (NoDup_map_eq (fun kv => get (fst kv)) kvs x y Hnd Hx Hy).
    simpl. rewrite (Hget _ _ H1), (Hget _ _ H2). reflexivity.
  - intros a b Ha Hb H1 H2.
    apply (NoDup_map_eq snd m a b Hnd' Ha Hb).
    apply Htot; assumption.
  - exact Hm.
Qed.

Lemma NoDup_sortKey {A : Type} (c : A -> sortKey) (get : value -> option A)
  (kvs : list (value * value)) :
  NoDup (map (fun kv => option_map c (get (fst kv))) kvs) ->
  NoDup (map (fun kv => get (fst kv)) kvs).
Proof.
  intros H. rewrite <- (map_map (fun kv => get (fst kv)) (option_map c)) in H.
  apply NoDup_map_inv in H. exact H.
Qed.

(** X6.  The canonical encoding of a map does not depend on the order
    in which the map hands out its entries: for keys of kind bool,
    string, signed or unsigned integer, two arrangements of the same
    entries (no two keys sorted by the same value, as in every map of
    such a key type) are written alike, event for event. *)
Theorem canonical_map_any_iteration_order
  (e : Encoder) (f : codecFnInfo) (id : N)
  (kvs kvs' : list (value * value)) :
  Canonical h = true ->
  totalOrderKind (Kind (key (ti f))) = true ->
  Permutation kvs kvs' ->
  NoDup (map (fun kv => sortKeyOf (Kind (key (ti f))) (fst kv)) kvs) ->
  kMap h w ev e f (VMap id (Some kvs)) =
  kMap h w ev e f (VMap id (Some kvs')).
Proof.
  intros Hc Hk Hp Hnd. unfold kMap, mapEntries. cbv zeta.
  assert (Hl : len kvs' = len kvs).
  { unfold len. rewrite (Permutation_length Hp). reflexivity. }
  rewrite Hl. destruct (len kvs =? 0); [reflexivity |]. rewrite Hc.
  f_equal. unfold kMapCanonical. unfold mapEntries at 1 2. cbv zeta.
  destruct (Kind (key (ti f))); try discriminate Hk; simpl in Hnd;
    apply NoDup_sortKey in Hnd;
    first
      [ apply canonCase_perm;
          [exact boolLess_asym | exact boolLess_trans | exact boolLess_total
          | exact value_eqb_rvGetBool | exact Hp | exact Hnd]
      | apply canonCase_perm;
          [exact stringLess_asym | exact stringLess_trans
          | exact stringLess_total | exact value_eqb_rvGetString
          | exact Hp | exact Hnd]
      | apply canonCase_perm;
          [exact int64Less_asym | exact int64Less_trans
          | exact int64Less_total | exact value_eqb_rvInt
          | exact Hp | exact Hnd]
      | apply canonCase_perm;
          [exact int64Less_asym | exact int64Less_trans
          | exact int64Less_total | exact value_eqb_rvUint
          | exact Hp | exact Hnd] ].
Qed.

End CanonicalOrder.

(** ** What an encode does not depend on *)

Lemma aside_ci p q a b : aside p q a b -> ci b = ci a.
Proof. intros H. apply H. Qed.

Lemma aside_calls p q a b : aside p q a b -> calls b = calls a.
Proof. intros H. apply H. Qed.

Lemma aside_err p q a b : aside p q a b -> err b = err a.
Proof. intros H. apply H. Qed.

Lemma aside_hh p q a b : aside p q a b -> hh b = hh a.
Proof. intros H. apply H. Qed.

Lemma aside_js p q a b : aside p q a b -> js b = js a.
Proof. intros H. apply H. Qed.

Lemma aside_emit p q a b (x : event) :
  aside p q a b -> aside p q (emit x a) (emit x b).
Proof.
  intros (Hc & Hn & He & Hh & Hj & d & Ho & Ho').
  repeat split; try assumption. exists (d ++ [x]). simpl.
  rewrite Ho, Ho', !app_assoc. split; reflexivity.
Qed.

Lemma aside_set_c p q a b (s s' : containerState) :
  aside p q a b -> aside p q (set_c s a) (set_c s' b).
Proof. intros H. exact H. Qed.

Lemma aside_set_ci p q a b (l : list sptrT) :
  aside p q a b -> aside p q (set_ci l a) (set_ci l b).
Proof.
  intros (Hc & Hn & He & Hh & Hj & Hd). repeat split; assumption.
Qed.

Lemma aside_set_calls p q a b (n : nat) :
  aside p q a b -> aside p q (set_calls n a) (set_calls n b).
Proof.
  intros (Hc & Hn & He & Hh & Hj & Hd). repeat split; assumption.
Qed.

Lemma aside_mapStart p q a b l :
  aside p q a b -> aside p q (mapStart l a) (mapStart l b).
Proof. intros H. apply aside_set_c, aside_emit, H. Qed.

Lemma aside_mapEnd p q a b :
  aside p q a b -> aside p q (mapEnd a) (mapEnd b).
Proof. intros H. apply aside_set_c, aside_emit, H. Qed.

Lemma aside_arrayStart p q a b l :
  aside p q a b -> aside p q (arrayStart l a) (arrayStart l b).
Proof. intros H. apply aside_set_c, aside_emit, H. Qed.

Lemma aside_arrayEnd p q a b :
  aside p q a b -> aside p q (arrayEnd a) (arrayEnd b).
Proof. intros H. apply aside_set_c, aside_emit, H. Qed.

Lemma aside_mapElemKey p q a b :
  aside p q a b -> aside p q (mapElemKey a) (mapElemKey b).
Proof.
  intros H. unfold mapElemKey. rewrite (aside_js _ _ _ _ H).
  apply aside_set_c. destruct (js a); [apply aside_emit |]; exact H.
Qed.

Lemma aside_mapElemValue p q a b :
  aside p q a b -> aside p q (mapElemValue a) (mapElemValue b).
Proof.
  intros H. unfold mapElemValue. rewrite (aside_js _ _ _ _ H).
  apply aside_set_c. destruct (js a); [apply aside_emit |]; exact H.
Qed.

Lemma aside_arrayElem p q a b :
  aside p q a b -> aside p q (arrayElem a) (arrayElem b).
Proof.
  intros H. unfold arrayElem. rewrite (aside_js _ _ _ _ H).
  apply aside_set_c. destruct (js a); [apply aside_emit |]; exact H.
Qed.

Lemma asideR_bind p q r r' (k k' : Encoder -> result) :
  asideR p q r r' ->
  (forall a b, aside p q a b -> asideR p q (k a) (k' b)) ->
  asideR p q (bind r k) (bind r' k').
Proof.
  intros Hr Hk. destruct r, r'; simpl in *; try contradiction; auto.
Qed.

Create HintDb aside_steps.

Ltac aside_state :=
  lazymatch goal with
  | |- aside _ _ (emit _ _) (emit _ _) => apply aside_emit; aside_state
  | |- aside _ _ (set_c _ _) (set_c _ _) => apply aside_set_c; aside_state
  | |- aside _ _ (set_ci _ _) (set_ci _ _) => apply aside_set_ci; aside_state
  | |- aside _ _ (set_calls _ _) (set_calls _ _) =>
      apply aside_set_calls; aside_state
  | |- aside _ _ (mapStart _ _) (mapStart _ _) =>
      apply aside_mapStart; aside_state
  | |- aside _ _ (arrayStart _ _) (arrayStart _ _) =>
      apply aside_arrayStart; aside_state
  | |- aside _ _ (mapEnd _) (mapEnd _) => apply aside_mapEnd; aside_state
  | |- aside _ _ (arrayEnd _) (arrayEnd _) => apply aside_arrayEnd; aside_state
  | |- aside _ _ (mapElemKey _) (mapElemKey _) =>
      apply aside_mapElemKey; aside_state
  | |- aside _ _ (mapElemValue _) (mapElemValue _) =>
      apply aside_mapElemValue; aside_state
  | |- aside _ _ (arrayElem _) (arrayElem _) =>
      apply aside_arrayElem; aside_state
  | |- aside _ _ (if ?b then _ else _) (if ?b then _ else _) =>
      destruct b; aside_state
  | |- aside _ _ _ _ => assumption
  end.

#[global] Hint Extern 0 (aside _ _ _ _) => aside_state : aside_steps.

(** What the second run reads of its encoder, said of the first. *)
Ltac aside_reads :=
  repeat match goal with
    | H : aside _ _ ?a ?b |- context [js ?b] =>
        rewrite (aside_js _ _ _ _ H)
    | H : aside _ _ ?a ?b |- context [hh ?b] =>
        rewrite (aside_hh _ _ _ _ H)
    | H : aside _ _ ?a ?b |- context [err ?b] =>
        rewrite (aside_err _ _ _ _ H)
    | H : aside _ _ ?a ?b |- context [calls ?b] =>
        rewrite (aside_calls _ _ _ _ H)
    | H : aside _ _ ?a ?b |- context [ci ?b] =>
        rewrite (aside_ci _ _ _ _ H)
    end.

Ltac aside_step :=
  aside_reads;
  lazymatch goal with
  | |- asideR _ _ (bind _ _) (bind _ _) =>
      apply asideR_bind; [| intros ? ? ?]
  | |- asideR _ _ (Ok _) (Ok _) => simpl asideR; aside_state
  | |- asideR _ _ (Panic _ _) (Panic _ _) =>
      simpl asideR; split; [reflexivity | aside_state]
  | |- asideR _ _ (errorf _ _) (errorf _ _) => unfold errorf
  | |- asideR _ _ OutOfFuel OutOfFuel => exact I
  | |- asideR _ _ (if ?b then _ else _) (if ?b then _ else _) =>
      destruct b eqn:?
  | |- asideR _ _ (match ?x with _ => _ end) (match ?x with _ => _ end) =>
      destruct x eqn:?
  | |- asideR _ _ _ _ => solve [eauto 3 with aside_steps nocore]
  | |- aside _ _ _ _ => aside_state
  end.

Ltac aside_solve := cbv zeta; aside_reads; repeat aside_step.

Section Aside.

Variable h : BasicHandle.
Variable w : World.

Section AsideHandlers.

Variable ev : Encoder -> value -> option codecFn -> result.
Hypothesis Hev : asideEv ev.

Local Hint Resolve Hev : aside_steps.

Lemma aside_rawBytes v p q a b :
  aside p q a b -> asideR p q (rawBytes h v a) (rawBytes h v b).
Proof. intros H. unfold rawBytes. aside_solve. Qed.

Lemma aside_marshalUtf8 bs fnerr p q a b :
  aside p q a b ->
  asideR p q (marshalUtf8 bs fnerr a) (marshalUtf8 bs fnerr b).
Proof. intros H. unfold marshalUtf8, onerror. aside_solve. Qed.

Lemma aside_marshalAsis bs fnerr p q a b :
  aside p q a b ->
  asideR p q (marshalAsis bs fnerr a) (marshalAsis bs fnerr b).
Proof. intros H. unfold marshalAsis, onerror. aside_solve. Qed.

Lemma aside_marshalRaw bs fnerr p q a b :
  aside p q a b ->
  asideR p q (marshalRaw bs fnerr a) (marshalRaw bs fnerr b).
Proof. intros H. unfold marshalRaw, onerror. aside_solve. Qed.

Lemma aside_kStructFieldKey kt x name p q a b :
  aside p q a b ->
  asideR p q (kStructFieldKey w kt x name a) (kStructFieldKey w kt x name b).
Proof.
  intros H. unfold kStructFieldKey, encStructFieldKey. aside_solve.
Qed.

Local Hint Resolve aside_rawBytes aside_marshalUtf8 aside_marshalAsis
  aside_marshalRaw aside_kStructFieldKey : aside_steps.

Lemma aside_encodeDirect v p q a b :
  aside p q a b -> asideR p q (encodeDirect h v a) (encodeDirect h v b).
Proof. intros H. unfold encodeDirect. aside_solve. Qed.

Local Hint Resolve aside_encodeDirect : aside_steps.

Lemma aside_encode iv p q a b :
  aside p q a b -> asideR p q (encode h w ev a iv) (encode h w ev b iv).
Proof.
  intros H. unfold encode.
  destruct iv as [| v | rv]; [aside_solve | | aside_solve].
  simpl isNil. cbv iota beta. aside_solve.
Qed.

Lemma aside_MustEncode iv p q a b :
  aside p q a b ->
  asideR p q (MustEncode h w ev a iv) (MustEncode h w ev b iv).
Proof.
  intros H. pose proof aside_encode as Henc. unfold MustEncode.
  aside_reads. destruct (err a); [aside_solve |].
  destruct (negb (hh a)); [aside_solve |].
  apply asideR_bind; [apply Henc; aside_state |].
  intros a1 b1 H1. cbv zeta. simpl calls. aside_solve.
Qed.

Local Hint Resolve aside_encode aside_MustEncode : aside_steps.

Lemma aside_mbsLoop f p q : forall xs j a b,
  aside p q a b -> asideR p q (mbsLoop ev f j xs a) (mbsLoop ev f j xs b).
Proof.
  induction xs as [| x xs IH]; simpl; intros j a b H; aside_solve.
Qed.

Lemma aside_seqLoop f p q : forall xs a b,
  aside p q a b -> asideR p q (seqLoop ev f xs a) (seqLoop ev f xs b).
Proof.
  induction xs as [| x xs IH]; simpl; intros a b H; aside_solve.
Qed.

Local Hint Resolve aside_mbsLoop aside_seqLoop : aside_steps.

Lemma aside_seqWMbs xs t p q a b :
  aside p q a b -> asideR p q (seqWMbs h ev xs t a) (seqWMbs h ev xs t b).
Proof. intros H. unfold seqWMbs, haltOnMbsOddLen. aside_solve. Qed.

Lemma aside_seqW xs t p q a b :
  aside p q a b -> asideR p q (seqW h ev xs t a) (seqW h ev xs t b).
Proof. intros H. unfold seqW. aside_solve. Qed.

Local Hint Resolve aside_seqWMbs aside_seqW : aside_steps.

Lemma aside_kSliceWMbs rv t p q a b :
  aside p q a b ->
  asideR p q (kSliceWMbs h ev a rv t) (kSliceWMbs h ev b rv t).
Proof. intros H. unfold kSliceWMbs. aside_solve. Qed.

Lemma aside_kSliceW rv t p q a b :
  aside p q a b -> asideR p q (kSliceW h ev a rv t) (kSliceW h ev b rv t).
Proof. intros H. unfold kSliceW. aside_solve. Qed.

Lemma aside_kArrayWMbs rv t p q a b :
  aside p q a b ->
  asideR p q (kArrayWMbs h ev a rv t) (kArrayWMbs h ev b rv t).
Proof. intros H. unfold kArrayWMbs. aside_solve. Qed.

Lemma aside_kArrayW rv t p q a b :
  aside p q a b -> asideR p q (kArrayW h ev a rv t) (kArrayW h ev b rv t).
Proof. intros H. unfold kArrayW. aside_solve. Qed.

Local Hint Resolve aside_kSliceWMbs aside_kSliceW aside_kArrayWMbs
  aside_kArrayW : aside_steps.

Lemma aside_kChan f rv p q a b :
  aside p q a b -> asideR p q (kChan h w ev a f rv) (kChan h w ev b f rv).
Proof. intros H. unfold kChan, kSliceBytesChan. aside_solve. Qed.

Lemma aside_kSlice f rv p q a b :
  aside p q a b -> asideR p q (kSlice h ev a f rv) (kSlice h ev b f rv).
Proof. intros H. unfold kSlice. aside_solve. Qed.

Lemma aside_kArray f rv p q a b :
  aside p q a b -> asideR p q (kArray h ev a f rv) (kArray h ev b f rv).
Proof. intros H. unfold kArray. aside_solve. Qed.

Lemma aside_noOmitArrayLoop rv p q : forall sfis a b,
  aside p q a b ->
  asideR p q (noOmitArrayLoop ev rv sfis a) (noOmitArrayLoop ev rv sfis b).
Proof. induction sfis as [| si sfis IH]; simpl; intros a b H; aside_solve. Qed.

Lemma aside_noOmitMapLoop kt rv p q : forall sfis a b,
  aside p q a b ->
  asideR p q (noOmitMapLoop w ev kt rv sfis a)
    (noOmitMapLoop w ev kt rv sfis b).
Proof. induction sfis as [| si sfis IH]; simpl; intros a b H; aside_solve. Qed.

Lemma aside_structMapLoop kt p q : forall kvs a b,
  aside p q a b ->
  asideR p q (structMapLoop w ev kt kvs a) (structMapLoop w ev kt kvs b).
Proof. induction kvs as [| kv kvs IH]; simpl; intros a b H; aside_solve. Qed.

Lemma aside_mfLoop kt p q : forall mf a b,
  aside p q a b ->
  asideR p q (mfLoop h w ev kt mf a) (mfLoop h w ev kt mf b).
Proof.
  induction mf as [| [k v] mf IH]; simpl; intros a b H; aside_solve.
Qed.

Lemma aside_structArrayLoop p q : forall kvs a b,
  aside p q a b ->
  asideR p q (structArrayLoop ev kvs a) (structArrayLoop ev kvs b).
Proof. induction kvs as [| kv kvs IH]; simpl; intros a b H; aside_solve. Qed.

Local Hint Resolve aside_noOmitArrayLoop aside_noOmitMapLoop
  aside_structMapLoop aside_mfLoop aside_structArrayLoop : aside_steps.

Lemma aside_kStructNoOmitempty f rv p q a b :
  aside p q a b ->
  asideR p q (kStructNoOmitempty h w ev a f rv)
    (kStructNoOmitempty h w ev b f rv).
Proof. intros H. unfold kStructNoOmitempty. aside_solve. Qed.

Lemma aside_kStruct n f rv p q a b :
  aside p q a b ->
  asideR p q (kStruct h w ev n a f rv) (kStruct h w ev n b f rv).
Proof. intros H. unfold kStruct. aside_solve. Qed.

Lemma aside_mapLoop ks kf vf p q : forall kvs a b,
  aside p q a b ->
  asideR p q (mapLoop ev ks kf vf kvs a) (mapLoop ev ks kf vf kvs b).
Proof.
  induction kvs as [| [k v] kvs IH]; simpl; intros a b H; aside_solve.
Qed.

Lemma aside_canonLoop {A : Type} (put : A -> event) rv vf p q :
  forall mksv a b,
    aside p q a b ->
    asideR p q (canonLoop ev put rv vf mksv a) (canonLoop ev put rv vf mksv b).
Proof.
  induction mksv as [| [r v] mksv IH]; simpl; intros a b H; aside_solve.
Qed.

Lemma aside_canonCase {A : Type} (get : value -> option A) less
  (put : A -> event) rv vf mks p q a b :
  aside p q a b ->
  asideR p q (canonCase ev get less put rv vf mks a)
    (canonCase ev get less put rv vf mks b).
Proof.
  intros H. unfold canonCase.
  destruct (capture get mks); [| aside_solve].
  apply aside_canonLoop; assumption.
Qed.

Lemma aside_NewEncoderBytes p q a b :
  aside p q a b -> NewEncoderBytes b = NewEncoderBytes a.
Proof.
  intros H. unfold NewEncoderBytes.
  rewrite (aside_hh _ _ _ _ H), (aside_js _ _ _ _ H). reflexivity.
Qed.

Lemma aside_kMapCanonical t rv vf p q a b :
  aside p q a b ->
  asideR p q (kMapCanonical h w ev t rv vf a) (kMapCanonical h w ev t rv vf b).
Proof.
  intros H. unfold kMapCanonical.
  destruct (mapEntries rv); [| aside_solve]. cbv zeta.
  rewrite (aside_NewEncoderBytes _ _ _ _ H).
  assert (Hside : asideR p q
    match encodeKeys h w ev (NewEncoderBytes a) (map fst l) with
    | SideOk mksbv _ =>
        canonLoop ev Writeb rv vf (sort_Sort (lessRv bytesLess) mksbv) a
    | SidePanic x => Panic x a
    | SideFuel => OutOfFuel
    end
    match encodeKeys h w ev (NewEncoderBytes a) (map fst l) with
    | SideOk mksbv _ =>
        canonLoop ev Writeb rv vf (sort_Sort (lessRv bytesLess) mksbv) b
    | SidePanic x => Panic x b
    | SideFuel => OutOfFuel
    end).
  { destruct (encodeKeys _ _ _ _ _); [| aside_solve | aside_solve].
    apply aside_canonLoop. exact H. }
  destruct (Kind (key t)); try exact Hside;
    try (apply aside_canonCase; exact H).
  destruct (rtype_eqb (key t) timeTyp); [| exact Hside].
  apply aside_canonCase; exact H.
Qed.

Local Hint Resolve aside_mapLoop aside_kMapCanonical : aside_steps.

Lemma aside_kMap f rv p q a b :
  aside p q a b -> asideR p q (kMap h w ev a f rv) (kMap h w ev b f rv).
Proof. intros H. unfold kMap. aside_solve. Qed.

Lemma aside_runActions p q : forall acts a b,
  aside p q a b ->
  asideR p q (runActions h w ev acts a) (runActions h w ev acts b).
Proof.
  induction acts as [| [x | iv] acts IH]; simpl; intros a b H; aside_solve.
Qed.

Lemma aside_reading {A : Type} (get : value -> option A) arg
  (put : A -> prim) p q a b :
  aside p q a b -> asideR p q (reading get arg put a) (reading get arg put b).
Proof. intros H. unfold reading. aside_solve. Qed.

Lemma aside_callFe n f arg p q a b :
  aside p q a b ->
  asideR p q (callFe h w ev n a f arg) (callFe h w ev n b f arg).
Proof.
  intros H. unfold callFe, onValue.
  destruct (fe f);
    try (apply aside_reading; exact H);
    try (apply aside_runActions; exact H);
    try (destruct arg; [| aside_solve]);
    eauto using aside_kChan, aside_kSlice, aside_kArray, aside_kStruct,
      aside_kStructNoOmitempty, aside_kMap;
    aside_solve.
Qed.

Lemma aside_encodeValueStep n rv fnv p q a b :
  aside p q a b ->
  asideR p q (encodeValueStep h w ev n a rv fnv)
    (encodeValueStep h w ev n b rv fnv).
Proof.
  intros H. pose proof aside_callFe as Hc.
  unfold encodeValueStep, popCi. aside_reads.
  destruct (resolve h w (S n) (ci a) rv None) as [| s | rv' rvp [s |] |];
    aside_solve.
Qed.

End AsideHandlers.
(** [encodeValue] does the same on encoders that are aside. *)
Lemma aside_encodeValue : forall n, asideEv (encodeValue h w n).
Proof.
  induction n as [| n IH]; intros p q a b rv f H; [exact I |].
  simpl. apply aside_encodeValueStep; assumption.
Qed.

End Aside.
Section Reuse.

Variable h : BasicHandle.
Variable w : World.

Lemma Encode_aside n v p q a b :
  aside p q a b ->
  match Encode h w n a v, Encode h w n b v with
  | Some (a', r), Some (b', r') => r = r' /\ aside p q a' b'
  | None, None => True
  | _, _ => False
  end.
Proof.
  intros H. unfold Encode.
  pose proof (aside_MustEncode h w _ (aside_encodeValue h w n) v p q a b H)
    as Hm.
  destruct (MustEncode h w (encodeValue h w n) a v) as [a' | x a' |],
           (MustEncode h w (encodeValue h w n) b v) as [b' | y b' |];
    simpl in Hm; try contradiction; try exact I.
  - split; [reflexivity | exact Hm].
  - destruct Hm as [<- Hm]. split; [reflexivity |].
    destruct Hm as (Hc & Hn & He & Hh & Hj & Hd).
    repeat split; assumption.
Qed.

(** X7.  An [Encode] reads nothing of what the encoder has written
    before, nor the container state it is in: on two encoders with
    the same handle, error, call counter and circular-reference stack
    it ends alike, with the same error or none, and writes the same
    events. *)
Theorem Encode_ignores_earlier_output n v (a b : Encoder) :
  ci b = ci a -> calls b = calls a -> err b = err a ->
  hh b = hh a -> js b = js a ->
  match Encode h w n a v, Encode h w n b v with
  | Some (a', r), Some (b', r') =>
      r = r' /\ exists d, out a' = out a ++ d /\ out b' = out b ++ d
  | None, None => True
  | _, _ => False
  end.
Proof.
  intros Hc Hn He Hh Hj.
  assert (H : aside (out a) (out b) a b).
  { repeat split; try assumption. exists []. rewrite !app_nil_r.
    split; reflexivity. }
  pose proof (Encode_aside n v _ _ _ _ H) as Hr.
  destruct (Encode h w n a v) as [[a' r] |],
           (Encode h w n b v) as [[b' r'] |]; try exact Hr.
  destruct Hr as (Hr & _ & _ & _ & _ & _ & d & Ho & Ho').
  split; [exact Hr |]. exists d. split; assumption.
Qed.

(** X8.  An encoder can be used again: after a successful [Encode],
    a second [Encode] ends as it would have on the encoder before the
    first, with the same error or none, and its events follow the
    ones of the first. *)
Theorem Encode_twice n e v1 v2 e1 e2 r d1 d2 :
  Encode h w n e v1 = Some (e1, None) ->
  Encode h w n e v2 = Some (e2, r) ->
  out e1 = out e ++ d1 ->
  out e2 = out e ++ d2 ->
  exists e12,
    Encode h w n e1 v2 = Some (e12, r) /\
    out e12 = out e ++ d1 ++ d2.
Proof.
  intros H1 H2 Hd1 Hd2.
  assert (Hf : frame e e1).
  { unfold Encode in H1.
    destruct (MustEncode h w (encodeValue h w n) e v1) as [e1' | |] eqn:E;
      try discriminate.
    injection H1 as <-.
    exact (frame_MustEncode h w _ (frame_encodeValue h w n) _ _ _ E). }
  destruct Hf as (Hc & Hn & He & Hh & Hj & _).
  assert (H : aside (out e) (out e1) e e1).
  { repeat split; try assumption. exists []. rewrite !app_nil_r.
    split; reflexivity. }
  pose proof (Encode_aside n v2 _ _ _ _ H) as Hr. rewrite H2 in Hr.
  destruct (Encode h w n e1 v2) as [[e12 r'] |]; [| contradiction].
  destruct Hr as (<- & _ & _ & _ & _ & _ & d & Ho & Ho').
  exists e12. split; [reflexivity |].
  rewrite Hd2 in Ho. apply app_inv_head in Ho. subst d.
  rewrite Ho', Hd1, <- app_assoc. reflexivity.
Qed.

End Reuse.

(** ** Indirections and shortcuts *)

Section Indirection.

Variable h : BasicHandle.
Variable w : World.

(** The switch at [TOP] arrives where it arrives, with more rounds
    to spare. *)
Lemma resolve_more_fuel : forall n stack rv rvp,
  resolve h w n stack rv rvp <> ToFuel ->
  resolve h w (S n) stack rv rvp = resolve h w n stack rv rvp.
Proof.
  induction n as [| n IH]; intros stack rv rvp H; [contradiction H; reflexivity |].
  destruct rv as [ | | | | | | | | | id el [a |] | id [x |] | | | | | | ];
    try reflexivity.
  - change (resolve h w (S (S n)) stack (VPtr id el (Some a)) rvp) with
      (let rv' := deref w id el a in
       if CheckCircularRef h && kind_eqb (rvKind rv') Struct
       then (if existsb (eq4i (RtPtr id el, a)) stack
             then ToCircular (RtPtr id el, a)
             else ToCall rv' (Some (VPtr id el (Some a)))
                    (Some (RtPtr id el, a)))
       else resolve h w (S n) stack rv' (Some (VPtr id el (Some a)))).
    change (resolve h w (S n) stack (VPtr id el (Some a)) rvp) with
      (let rv' := deref w id el a in
       if CheckCircularRef h && kind_eqb (rvKind rv') Struct
       then (if existsb (eq4i (RtPtr id el, a)) stack
             then ToCircular (RtPtr id el, a)
             else ToCall rv' (Some (VPtr id el (Some a)))
                    (Some (RtPtr id el, a)))
       else resolve h w n stack rv' (Some (VPtr id el (Some a)))) in *.
    cbv zeta in *.
    destruct (CheckCircularRef h && kind_eqb (rvKind (deref w id el a)) Struct);
      [reflexivity |].
    apply IH. exact H.
  - change (resolve h w (S (S n)) stack (VInterface id (Some x)) rvp) with
      (resolve h w (S n) stack x rvp).
    change (resolve h w (S n) stack (VInterface id (Some x)) rvp) with
      (resolve h w n stack x rvp) in *.
    apply IH. exact H.
Qed.

(** The switch arrives at the same value whatever pointer was gone
    through before. *)
Lemma resolve_rvp : forall n stack rv rvp rvp',
  match resolve h w n stack rv rvp, resolve h w n stack rv rvp' with
  | ToNil, ToNil => True
  | ToCircular s, ToCircular s' => s = s'
  | ToCall r _ s, ToCall r' _ s' => r = r' /\ s = s'
  | ToFuel, ToFuel => True
  | _, _ => False
  end.
Proof.
  induction n as [| n IH]; intros stack rv rvp rvp'; [exact I |].
  destruct rv as [ | | | | | | | | | id el [a |] | id [x |] | ? [l |] | | ? [l |]
                   | ? [l |] | | ];
    simpl; try exact I; try (split; reflexivity).
  - fold (deref w id el a).
    destruct (CheckCircularRef h && kind_eqb (rvKind (deref w id el a)) Struct).
    + destruct (existsb _ stack); [reflexivity | split; reflexivity].
    + specialize (IH stack (deref w id el a)
                    (Some (VPtr id el (Some a)))
                    (Some (VPtr id el (Some a)))).
      destruct (resolve h w n stack (deref w id el a)
                  (Some (VPtr id el (Some a)))); try exact I;
        try reflexivity; try (split; reflexivity).
  - apply IH.
Qed.

(** X9.  An interface is transparent: encoding an interface that
    holds a value ends as encoding the value itself, event for event
    and error for error. *)
Theorem interface_is_transparent n e id x fnv :
  encodeValue h w (S (S n)) e (VInterface id (Some x)) fnv <> OutOfFuel ->
  encodeValue h w (S (S n)) e (VInterface id (Some x)) fnv =
  encodeValue h w (S (S n)) e x fnv.
Proof.
  intros Hf. simpl encodeValue in *. unfold encodeValueStep in *.
  change (resolve h w (S (S n)) (ci e) (VInterface id (Some x)) None) with
    (resolve h w (S n) (ci e) x None) in *.
  destruct (resolve h w (S n) (ci e) x None) eqn:E;
    try (rewrite resolve_more_fuel, E by (rewrite E; discriminate);
         reflexivity).
  contradiction Hf. reflexivity.
Qed.

(** X10.  So is a pointer, for the strategies that take the value and
    not its address, unless it is a pointer to a struct under
    [CheckCircularRef] (which is put on the stack): encoding the
    pointer ends as encoding what it points to. *)
Theorem pointer_is_transparent n e id el a fnv :
  CheckCircularRef h && kind_eqb (rvKind (deref w id el a)) Struct = false ->
  (forall rv, addrE (i (fnFor h fnv rv)) = false) ->
  encodeValue h w (S (S n)) e (VPtr id el (Some a)) fnv <> OutOfFuel ->
  encodeValue h w (S (S n)) e (VPtr id el (Some a)) fnv =
  encodeValue h w (S (S n)) e (deref w id el a) fnv.
Proof.
  intros Hc Ha Hf. simpl encodeValue in *. unfold encodeValueStep in *.
  assert (Hp : resolve h w (S (S n)) (ci e) (VPtr id el (Some a)) None =
               resolve h w (S n) (ci e) (deref w id el a)
                 (Some (VPtr id el (Some a)))).
  { change (resolve h w (S (S n)) (ci e) (VPtr id el (Some a)) None) with
      (let rv' := deref w id el a in
       if CheckCircularRef h && kind_eqb (rvKind rv') Struct
       then (if existsb (eq4i (RtPtr id el, a)) (ci e)
             then ToCircular (RtPtr id el, a)
             else ToCall rv' (Some (VPtr id el (Some a)))
                    (Some (RtPtr id el, a)))
       else resolve h w (S n) (ci e) rv' (Some (VPtr id el (Some a)))).
    cbv zeta. rewrite Hc. reflexivity. }
  rewrite Hp in *.
  pose proof (resolve_rvp (S n) (ci e) (deref w id el a)
                (Some (VPtr id el (Some a))) None) as Hr.
  destruct (resolve h w (S n) (ci e) (deref w id el a)
              (Some (VPtr id el (Some a)))) as [| s | r rvp s |] eqn:E1;
    destruct (resolve h w (S n) (ci e) (deref w id el a) None)
      as [| s' | r' rvp' s' |] eqn:E2;
    try contradiction;
    try (rewrite resolve_more_fuel, E2 by (rewrite E2; discriminate)).
  - reflexivity.
  - reflexivity.
  - destruct Hr as [<- <-]. unfold feArgFor. rewrite (Ha r). reflexivity.
Qed.

End Indirection.
Section Shortcuts.

Variable h : BasicHandle.
Variable w : World.

(** X11.  The type switch of [encode] is a shortcut and no more: for a
    bool, a number or a string, of a predeclared or of a named type,
    [encode] writes what [encodeValue] writes with the strategy of the
    kind, which is the one primitive of the value. *)
Theorem type_switch_agrees m e v p :
  literal v = Some p ->
  kindFe (rvKind v) = Some (fe (fn h (rvType v))) ->
  addrE (i (fn h (rvType v))) = false ->
  encode h w (encodeValue h w (S m)) e (IVal v) =
    encodeValue h w (S m) e v None /\
  encodeValue h w (S m) e v None = Ok (emit p e).
Proof.
  intros Hl Hk Ha.
  pose proof (primitive_literal h w m e v p Hl Hk Ha) as Hv.
  split; [| exact Hv]. rewrite Hv. unfold encode. simpl isNil.
  assert (Hn : rvIsNil v = false).
  { destruct v; simpl in Hl; try discriminate; reflexivity. }
  rewrite Hn.
  destruct (directTyp (rvType v)).
  - destruct v as [ | ? b | ? k x | ? k x | ? k x | | ? s | | | | | |
                    | | | | ]; simpl in Hl; try discriminate;
      try (injection Hl as <-; reflexivity).
    destruct k; injection Hl as <-; reflexivity.
  - destruct v; simpl in Hl; try discriminate; exact Hv.
Qed.

(** X12.  A [Raw] value handed to [encode] is written as it is when
    the [Raw] option is on and refused, nothing written, when it is
    off; a nil [Raw] is written as nil either way.  A pointer to a nil
    [Raw] is not: the type switch hands it to [rawBytes] (no bytes, or
    the refusal), where [encodeValue] writes nil. *)
Theorem Raw_by_type_switch ev e xs bs a n :
  mapM rvGetUint8 xs = Some bs ->
  deref w 0 rawTyp a = VSlice 1 None ->
  encode h w ev e (IVal (VSlice 1 (Some xs))) =
    (if Raw h then Ok (emit (Writeb bs) e) else Panic RawDisallowed e) /\
  encode h w ev e (IVal (VSlice 1 None)) = Ok (emit EncodeNil e) /\
  encode h w ev e (IVal (VPtr 0 rawTyp (Some a))) =
    (if Raw h then Ok (emit (Writeb []) e) else Panic RawDisallowed e) /\
  encodeValue h w (S (S n)) e (VPtr 0 rawTyp (Some a)) None =
    Ok (emit EncodeNil e).
Proof.
  intros Hb Hd. split; [| split; [| split]].
  - unfold encode. simpl. rewrite Hb. unfold rawBytes, errorf.
    destruct (Raw h); reflexivity.
  - reflexivity.
  - unfold encode. simpl isNil. cbv iota beta. simpl directTyp.
    cbv iota. simpl andb. cbv iota zeta. rewrite Hd. simpl.
    unfold rawBytes, errorf. destruct (Raw h); reflexivity.
  - simpl encodeValue. unfold encodeValueStep.
    change (resolve h w (S (S n)) (ci e) (VPtr 0 rawTyp (Some a)) None) with
      (let rv' := deref w 0 rawTyp a in
       if CheckCircularRef h && kind_eqb (rvKind rv') Struct
       then (if existsb (eq4i (RtPtr 0 rawTyp, a)) (ci e)
             then ToCircular (RtPtr 0 rawTyp, a)
             else ToCall rv' (Some (VPtr 0 rawTyp (Some a)))
                    (Some (RtPtr 0 rawTyp, a)))
       else resolve h w (S n) (ci e) rv' (Some (VPtr 0 rawTyp (Some a)))).
    cbv zeta. rewrite Hd. simpl. rewrite andb_false_r. reflexivity.
Qed.

(** X13.  The two strategies of structs are interchangeable on the
    types the second one is chosen for (no field flagged omit-if-empty,
    no missing-fields method). *)
Theorem struct_strategies_agree ev n e (f : codecFnInfo) arg :
  forallb (fun si => negb (omitEmpty si)) (sfiSrc (ti f)) = true ->
  forallb (fun si => negb (omitEmpty si)) (sfiSort (ti f)) = true ->
  flagMissingFielder (ti f) = false ->
  flagMissingFielderPtr (ti f) = false ->
  (List.length (sfiSort (ti f)) <= List.length (sfiSrc (ti f)))%nat ->
  callFe h w ev n e (mkCodecFn f fe_kStruct) arg =
  callFe h w ev n e (mkCodecFn f fe_kStructNoOmitempty) arg.
Proof.
  intros H1 H2 H3 H4 H5. unfold callFe, onValue. simpl.
  destruct arg as [rv | rv]; [| reflexivity].
  apply kStruct_without_omitempty; assumption.
Qed.


End Shortcuts.

(** ** One value, of the announced length *)

Lemma shape_app (d1 d2 : list event) : forall s,
  shape (d1 ++ d2) s =
  match shape d1 s with
  | Some s' => shape d2 s'
  | None => None
  end.
Proof.
  induction d1 as [| ev d1 IH]; simpl; intros s; [reflexivity |].
  destruct (shape1 ev s); [apply IH | reflexivity].
Qed.

Lemma shape_one (ev : event) (s : count) : shape [ev] s = shape1 ev s.
Proof. simpl. destruct (shape1 ev s); reflexivity. Qed.

Lemma shape_snoc (d : list event) (ev : event) (s : count) :
  shape (d ++ [ev]) s =
  match shape d s with
  | Some s' => shape1 ev s'
  | None => None
  end.
Proof.
  rewrite shape_app. destruct (shape d s); [apply shape_one | reflexivity].
Qed.

Lemma silent_shape1 (ev : event) (s : count) :
  silent ev = true -> shape1 ev s = Some s.
Proof. destruct ev as [[] | | | | | | |]; simpl; congruence. Qed.

Lemma oneValue_shape1 (ev : event) (s : count) :
  oneValue ev = true -> shape1 ev s = tick s.
Proof. destruct ev as [[] | | | | | | |]; simpl; congruence. Qed.

Lemma shape_nils : forall (n : nat) b k st j,
  Z.of_nat n <= k ->
  shape (nils n) ((b, k) :: st, j) = Some ((b, k - Z.of_nat n) :: st, j).
Proof.
  induction n as [| n IH]; intros b k st j Hk.
  - simpl. rewrite Z.sub_0_r. reflexivity.
  - change (nils (S n)) with (Drv EncodeNil :: nils n).
    cbn [shape shape1 tick].
    assert (E : (0 <? k) = true) by (apply Z.ltb_lt; lia).
    rewrite E, IH by lia.
    replace (k - 1 - Z.of_nat n) with (k - Z.of_nat (S n)) by lia.
    reflexivity.
Qed.

Lemma nils_app (n m : nat) : nils (n + m) = nils n ++ nils m.
Proof. unfold nils. apply repeat_app. Qed.

Lemma nils_S (d : list event) (n : nat) :
  d ++ nils (S n) = (d ++ [Drv EncodeNil]) ++ nils n.
Proof. rewrite <- app_assoc. reflexivity. Qed.

Lemma nils_2S (d : list event) (n : nat) :
  d ++ nils (2 * S n) =
  ((d ++ [Drv EncodeNil]) ++ [Drv EncodeNil]) ++ nils (2 * n).
Proof.
  replace (2 * S n)%nat with (S (S (2 * n))) by lia.
  rewrite <- !app_assoc. reflexivity.
Qed.

(** A container with as many values as it announces is one value. *)
Lemma container_is_value (b : bracket) (start stop : event) (k : Z)
  (n : nat) (d : list event) (s : count) :
  (forall s', shape1 start s' = Some ((b, k) :: fst s', snd s')) ->
  (forall s', shape1 stop s' = closes b s') ->
  k = Z.of_nat n ->
  shape (((d ++ [start]) ++ nils n) ++ [stop]) s =
  shape (d ++ [Drv EncodeNil]) s.
Proof.
  intros Hstart Hstop ->.
  rewrite shape_snoc, shape_app, !shape_snoc.
  destruct (shape d s) as [[st j] |]; [| reflexivity].
  rewrite Hstart. simpl fst. simpl snd.
  rewrite shape_nils by lia. rewrite Z.sub_diag, Hstop.
  unfold closes. destruct b; reflexivity.
Qed.

Lemma counted_refl (w : World) (e : Encoder) : counted w e e [].
Proof. exists []. rewrite app_nil_r. split; reflexivity. Qed.

Lemma counted_equiv (w : World) (e0 e : Encoder) (d1 d2 : list event) :
  (forall s, shape d1 s = shape d2 s) ->
  counted w e0 e d1 -> counted w e0 e d2.
Proof.
  intros He (d & Ho & Hs). exists d. split; [exact Ho |].
  intros Hw s. rewrite (Hs Hw). apply He.
Qed.

Lemma counted_emit (w : World) (e0 e : Encoder) (d : list event)
  (ev : event) :
  counted w e0 e d -> counted w e0 (emit ev e) (d ++ [ev]).
Proof.
  intros (d0 & Ho & Hs). exists (d0 ++ [ev]). simpl. split.
  - rewrite Ho, app_assoc. reflexivity.
  - intros Hw s. rewrite !shape_snoc, (Hs Hw). reflexivity.
Qed.

Lemma counted_silent (w : World) (e0 e : Encoder) (d : list event)
  (ev : event) :
  silent ev = true -> counted w e0 e d -> counted w e0 (emit ev e) d.
Proof.
  intros Hev H. apply (counted_equiv w e0 _ (d ++ [ev]));
    [| apply counted_emit; exact H].
  intros s. rewrite shape_snoc. destruct (shape d s); [| reflexivity].
  apply silent_shape1. exact Hev.
Qed.

Lemma counted_atom (w : World) (e0 e : Encoder) (d : list event)
  (ev : event) :
  oneValue ev = true ->
  counted w e0 e d -> counted w e0 (emit ev e) (d ++ [Drv EncodeNil]).
Proof.
  intros Hev H. apply (counted_equiv w e0 _ (d ++ [ev]));
    [| apply counted_emit; exact H].
  intros s. rewrite !shape_snoc. destruct (shape d s); [| reflexivity].
  apply oneValue_shape1. exact Hev.
Qed.

Lemma counted_set_c (w : World) (e0 e : Encoder) d (s : containerState) :
  counted w e0 e d -> counted w e0 (set_c s e) d.
Proof. intros H. exact H. Qed.

Lemma counted_set_ci (w : World) (e0 e : Encoder) d (l : list sptrT) :
  counted w e0 e d -> counted w e0 (set_ci l e) d.
Proof. intros H. exact H. Qed.

Lemma counted_set_calls (w : World) (e0 e : Encoder) d (n : nat) :
  counted w e0 e d -> counted w e0 (set_calls n e) d.
Proof. intros H. exact H. Qed.

Lemma counted_mapElemKey (w : World) (e0 e : Encoder) d :
  counted w e0 e d -> counted w e0 (mapElemKey e) d.
Proof.
  intros H. unfold mapElemKey. apply counted_set_c.
  destruct (js e); [apply counted_silent; [reflexivity |] |]; exact H.
Qed.

Lemma counted_mapElemValue (w : World) (e0 e : Encoder) d :
  counted w e0 e d -> counted w e0 (mapElemValue e) d.
Proof.
  intros H. unfold mapElemValue. apply counted_set_c.
  destruct (js e); [apply counted_silent; [reflexivity |] |]; exact H.
Qed.

Lemma counted_arrayElem (w : World) (e0 e : Encoder) d :
  counted w e0 e d -> counted w e0 (arrayElem e) d.
Proof.
  intros H. unfold arrayElem. apply counted_set_c.
  destruct (js e); [apply counted_silent; [reflexivity |] |]; exact H.
Qed.

Lemma counted_mapStart (w : World) (e0 e : Encoder) d (l : Z) :
  counted w e0 e d ->
  counted w e0 (mapStart l e) (d ++ [Drv (WriteMapStart l)]).
Proof. intros H. apply counted_set_c, counted_emit, H. Qed.

Lemma counted_arrayStart (w : World) (e0 e : Encoder) d (l : Z) :
  counted w e0 e d ->
  counted w e0 (arrayStart l e) (d ++ [Drv (WriteArrayStart l)]).
Proof. intros H. apply counted_set_c, counted_emit, H. Qed.

(** The end of an array that has got the values it announced. *)
Lemma counted_arrayEnd (w : World) (e0 e : Encoder) d (n : nat) :
  counted w e0 e ((d ++ [Drv (WriteArrayStart (Z.of_nat n))]) ++ nils n) ->
  counted w e0 (arrayEnd e) (d ++ [Drv EncodeNil]).
Proof.
  intros H. unfold arrayEnd. apply counted_set_c.
  apply (counted_emit _ _ _ _ (Drv WriteArrayEnd)) in H.
  revert H. apply counted_equiv. intros s.
  apply (container_is_value BArray _ _ (Z.of_nat n)); reflexivity.
Qed.

(** The end of a map that has got two values for each entry it
    announced. *)
Lemma counted_mapEnd (w : World) (e0 e : Encoder) d (l : Z) (n : nat) :
  2 * l = Z.of_nat n ->
  counted w e0 e ((d ++ [Drv (WriteMapStart l)]) ++ nils n) ->
  counted w e0 (mapEnd e) (d ++ [Drv EncodeNil]).
Proof.
  intros Hl H. unfold mapEnd. apply counted_set_c.
  apply (counted_emit _ _ _ _ (Drv WriteMapEnd)) in H.
  revert H. apply counted_equiv. intros s.
  apply (container_is_value BMap _ _ (2 * l)); [reflexivity.. | exact Hl].
Qed.

Lemma cpost_bind (w : World) (e0 : Encoder) (d1 d2 : list event)
  (r : result) (k : Encoder -> result) :
  cpost w e0 d1 r ->
  (forall e1, counted w e0 e1 d1 -> cpost w e0 d2 (k e1)) ->
  cpost w e0 d2 (bind r k).
Proof.
  intros Hr Hk. destruct r as [e1 | x e1 |]; simpl in *; auto.
Qed.

Create HintDb count_steps.

Ltac count_state :=
  lazymatch goal with
  | |- counted _ _ (set_c _ _) _ => apply counted_set_c; count_state
  | |- counted _ _ (set_ci _ _) _ => apply counted_set_ci; count_state
  | |- counted _ _ (set_calls _ _) _ => apply counted_set_calls; count_state
  | |- counted _ _ (mapElemKey _) _ => apply counted_mapElemKey; count_state
  | |- counted _ _ (mapElemValue _) _ =>
      apply counted_mapElemValue; count_state
  | |- counted _ _ (arrayElem _) _ => apply counted_arrayElem; count_state
  | |- counted _ _ (mapStart _ _) _ => eapply counted_mapStart; count_state
  | |- counted _ _ (arrayStart _ _) _ =>
      eapply counted_arrayStart; count_state
  | |- counted _ _ (emit _ _) _ =>
      first [ eapply counted_atom;
                [first [reflexivity | solve [auto]] | count_state]
            | eapply counted_silent; [reflexivity | count_state] ]
  | |- counted _ _ (if ?b then _ else _) _ => destruct b; count_state
  | |- counted _ _ _ _ => eassumption
  end.

#[global] Hint Extern 0 (counted _ _ _ _) => count_state : count_steps.

Ltac count_step :=
  lazymatch goal with
  | |- cpost _ _ _ (bind _ _) => eapply cpost_bind; [| intros ? ?]
  | |- cpost _ _ _ (Ok _) => simpl cpost; count_state
  | |- cpost _ _ _ (Panic _ _) => exact I
  | |- cpost _ _ _ (errorf _ _) => exact I
  | |- cpost _ _ _ OutOfFuel => exact I
  | |- cpost _ _ _ (if ?b then _ else _) => destruct b eqn:?
  | |- cpost _ _ _ (match ?x with _ => _ end) => destruct x eqn:?
  | |- cpost _ _ _ _ => solve [eauto 3 with count_steps nocore]
  | |- counted _ _ _ _ => count_state
  end.

Ltac count_solve := cbv zeta; repeat count_step.

Section Counting.

Variable h : BasicHandle.
Variable w : World.

Section CountingHandlers.

Variable ev : Encoder -> value -> option codecFn -> result.
Hypothesis Hev : counting w ev.

Local Hint Resolve Hev : count_steps.

Lemma count_rawBytes v e0 e d :
  counted w e0 e d -> cpost w e0 (d ++ [Drv EncodeNil]) (rawBytes h v e).
Proof. intros H. unfold rawBytes. count_solve. Qed.

Lemma count_marshalUtf8 bs fnerr e0 e d :
  counted w e0 e d ->
  cpost w e0 (d ++ [Drv EncodeNil]) (marshalUtf8 bs fnerr e).
Proof. intros H. unfold marshalUtf8, onerror. count_solve. Qed.

Lemma count_marshalAsis bs fnerr e0 e d :
  counted w e0 e d ->
  cpost w e0 (d ++ [Drv EncodeNil]) (marshalAsis bs fnerr e).
Proof. intros H. unfold marshalAsis, onerror. count_solve. Qed.

Lemma count_marshalRaw bs fnerr e0 e d :
  counted w e0 e d ->
  cpost w e0 (d ++ [Drv EncodeNil]) (marshalRaw bs fnerr e).
Proof. intros H. unfold marshalRaw, onerror. count_solve. Qed.

Lemma count_kStructFieldKey kt a name e0 e d :
  counted w e0 e d ->
  cpost w e0 (d ++ [Drv EncodeNil]) (kStructFieldKey w kt a name e).
Proof.
  intros H. unfold kStructFieldKey, encStructFieldKey. count_solve.
Qed.

Local Hint Resolve count_rawBytes count_marshalUtf8 count_marshalAsis
  count_marshalRaw count_kStructFieldKey : count_steps.

Lemma count_encodeDirect v e0 e d :
  counted w e0 e d -> cpost w e0 (d ++ [Drv EncodeNil]) (encodeDirect h v e).
Proof. intros H. unfold encodeDirect. count_solve. Qed.

Local Hint Resolve count_encodeDirect : count_steps.

Lemma count_encode iv e0 e d :
  counted w e0 e d -> cpost w e0 (d ++ [Drv EncodeNil]) (encode h w ev e iv).
Proof.
  intros H. unfold encode.
  destruct iv as [| v | rv]; [count_solve | | count_solve].
  simpl isNil. cbv iota beta. count_solve.
Qed.

Lemma count_MustEncode iv e0 e d :
  counted w e0 e d ->
  cpost w e0 (d ++ [Drv EncodeNil]) (MustEncode h w ev e iv).
Proof.
  intros H. pose proof count_encode as Henc. unfold MustEncode. count_solve.
Qed.

Local Hint Resolve count_encode count_MustEncode : count_steps.

Lemma count_mbsLoop f e0 : forall xs j e d,
  counted w e0 e d ->
  cpost w e0 (d ++ nils (List.length xs)) (mbsLoop ev f j xs e).
Proof.
  induction xs as [| x xs IH]; intros j e d H.
  - simpl. rewrite app_nil_r. exact H.
  - simpl List.length. rewrite nils_S. simpl mbsLoop. count_solve.
Qed.

Lemma count_seqLoop f e0 : forall xs e d,
  counted w e0 e d ->
  cpost w e0 (d ++ nils (List.length xs)) (seqLoop ev f xs e).
Proof.
  induction xs as [| x xs IH]; intros e d H.
  - simpl. rewrite app_nil_r. exact H.
  - simpl List.length. rewrite nils_S. simpl seqLoop. count_solve.
Qed.

Lemma count_noOmitArrayLoop rv e0 : forall sfis e d,
  counted w e0 e d ->
  cpost w e0 (d ++ nils (List.length sfis)) (noOmitArrayLoop ev rv sfis e).
Proof.
  induction sfis as [| si sfis IH]; intros e d H.
  - simpl. rewrite app_nil_r. exact H.
  - simpl List.length. rewrite nils_S. simpl noOmitArrayLoop. count_solve.
Qed.

Lemma count_structArrayLoop e0 : forall kvs e d,
  counted w e0 e d ->
  cpost w e0 (d ++ nils (List.length kvs)) (structArrayLoop ev kvs e).
Proof.
  induction kvs as [| kv kvs IH]; intros e d H.
  - simpl. rewrite app_nil_r. exact H.
  - simpl List.length. rewrite nils_S. simpl structArrayLoop. count_solve.
Qed.

Lemma count_noOmitMapLoop kt rv e0 : forall sfis e d,
  counted w e0 e d ->
  cpost w e0 (d ++ nils (2 * List.length sfis))
    (noOmitMapLoop w ev kt rv sfis e).
Proof.
  induction sfis as [| si sfis IH]; intros e d H.
  - simpl. rewrite app_nil_r. exact H.
  - simpl List.length. rewrite nils_2S. simpl noOmitMapLoop. count_solve.
Qed.

Lemma count_structMapLoop kt e0 : forall kvs e d,
  counted w e0 e d ->
  cpost w e0 (d ++ nils (2 * List.length kvs)) (structMapLoop w ev kt kvs e).
Proof.
  induction kvs as [| kv kvs IH]; intros e d H.
  - simpl. rewrite app_nil_r. exact H.
  - simpl List.length. rewrite nils_2S. simpl structMapLoop. count_solve.
Qed.

Lemma count_mfLoop kt e0 : forall mf e d,
  counted w e0 e d ->
  cpost w e0 (d ++ nils (2 * List.length mf)) (mfLoop h w ev kt mf e).
Proof.
  induction mf as [| [k v] mf IH]; intros e d H.
  - simpl. rewrite app_nil_r. exact H.
  - simpl List.length. rewrite nils_2S. simpl mfLoop. count_solve.
Qed.

Lemma count_mapLoop ks kf vf e0 : forall kvs e d,
  counted w e0 e d ->
  cpost w e0 (d ++ nils (2 * List.length kvs)) (mapLoop ev ks kf vf kvs e).
Proof.
  induction kvs as [| [k v] kvs IH]; intros e d H.
  - simpl. rewrite app_nil_r. exact H.
  - simpl List.length. rewrite nils_2S. simpl mapLoop. count_solve.
Qed.

Lemma count_canonLoop {A : Type} (put : A -> event) rv vf e0 :
  (forall a, oneValue (put a) = true) ->
  forall mksv e d,
    counted w e0 e d ->
    cpost w e0 (d ++ nils (2 * List.length mksv))
      (canonLoop ev put rv vf mksv e).
Proof.
  intros Hput. induction mksv as [| [r v] mksv IH]; intros e d H.
  - simpl. rewrite app_nil_r. exact H.
  - simpl List.length. rewrite nils_2S. simpl canonLoop. count_solve.
Qed.

Local Hint Resolve count_mbsLoop count_seqLoop count_noOmitArrayLoop
  count_structArrayLoop count_noOmitMapLoop count_structMapLoop
  count_mfLoop count_mapLoop : count_steps.

Lemma even_halves (l : Z) : Z.land l 1 = 0 -> 2 * Z.shiftr l 1 = l.
Proof.
  intros H. change 1 with (Z.ones 1) in H at 1.
  rewrite Z.land_ones in H by lia. change (2 ^ 1) with 2 in H.
  rewrite Z.shiftr_div_pow2 by lia. change (2 ^ 1) with 2.
  pose proof (Z.div_mod l 2 ltac:(lia)). lia.
Qed.

Lemma count_seqWMbs xs t e0 e d :
  counted w e0 e d ->
  cpost w e0 (d ++ [Drv EncodeNil]) (seqWMbs h ev xs t e).
Proof.
  intros H. unfold seqWMbs, haltOnMbsOddLen. cbv zeta.
  destruct (len xs =? 0) eqn:E0.
  - apply Z.eqb_eq in E0. unfold len in E0.
    destruct xs; [| simpl in E0; lia].
    simpl. apply (counted_mapEnd w e0 _ d 0 0); [reflexivity |].
    simpl. rewrite app_nil_r. apply counted_mapStart. exact H.
  - destruct (negb (Z.land (len xs) 1 =? 0)) eqn:E1; [exact I |].
    apply negb_false_iff, Z.eqb_eq, even_halves in E1.
    simpl bind at 2.
    eapply cpost_bind;
      [apply count_mbsLoop; apply counted_mapStart; exact H |].
    intros e1 H1. simpl.
    eapply counted_mapEnd; [| exact H1]. exact E1.
Qed.

Lemma count_seqW xs t e0 e d :
  counted w e0 e d ->
  cpost w e0 (d ++ [Drv EncodeNil]) (seqW h ev xs t e).
Proof.
  intros H. unfold seqW. cbv zeta.
  eapply cpost_bind; [| intros e1 H1; simpl;
                        apply (counted_arrayEnd w e0 e1 d (List.length xs));
                        exact H1].
  destruct (0 <? len xs) eqn:E0.
  - apply count_seqLoop. apply counted_arrayStart. exact H.
  - apply Z.ltb_ge in E0. unfold len in E0.
    destruct xs; [| simpl in E0; lia].
    simpl. rewrite app_nil_r. apply counted_arrayStart. exact H.
Qed.

Local Hint Resolve count_seqWMbs count_seqW : count_steps.

Lemma count_kSliceWMbs rv t e0 e d :
  counted w e0 e d ->
  cpost w e0 (d ++ [Drv EncodeNil]) (kSliceWMbs h ev e rv t).
Proof. intros H. unfold kSliceWMbs. count_solve. Qed.

Lemma count_kSliceW rv t e0 e d :
  counted w e0 e d ->
  cpost w e0 (d ++ [Drv EncodeNil]) (kSliceW h ev e rv t).
Proof. intros H. unfold kSliceW. count_solve. Qed.

Lemma count_kArrayWMbs rv t e0 e d :
  counted w e0 e d ->
  cpost w e0 (d ++ [Drv EncodeNil]) (kArrayWMbs h ev e rv t).
Proof. intros H. unfold kArrayWMbs. count_solve. Qed.

Lemma count_kArrayW rv t e0 e d :
  counted w e0 e d ->
  cpost w e0 (d ++ [Drv EncodeNil]) (kArrayW h ev e rv t).
Proof. intros H. unfold kArrayW. count_solve. Qed.

Local Hint Resolve count_kSliceWMbs count_kSliceW count_kArrayWMbs
  count_kArrayW : count_steps.

Lemma count_kChan f rv e0 e d :
  counted w e0 e d ->
  cpost w e0 (d ++ [Drv EncodeNil]) (kChan h w ev e f rv).
Proof. intros H. unfold kChan, kSliceBytesChan. count_solve. Qed.

Lemma count_kSlice f rv e0 e d :
  counted w e0 e d ->
  cpost w e0 (d ++ [Drv EncodeNil]) (kSlice h ev e f rv).
Proof. intros H. unfold kSlice. count_solve. Qed.

Lemma count_kArray f rv e0 e d :
  counted w e0 e d ->
  cpost w e0 (d ++ [Drv EncodeNil]) (kArray h ev e f rv).
Proof. intros H. unfold kArray. count_solve. Qed.

Lemma count_kStructNoOmitempty f rv e0 e d :
  counted w e0 e d ->
  cpost w e0 (d ++ [Drv EncodeNil]) (kStructNoOmitempty h w ev e f rv).
Proof.
  intros H. unfold kStructNoOmitempty. cbv zeta.
  destruct (toArray (ti f) || StructToArray h).
  - eapply cpost_bind;
      [apply count_noOmitArrayLoop; apply counted_arrayStart; exact H |].
    intros e1 H1. simpl.
    apply (counted_arrayEnd w e0 e1 d (List.length (sfiSrc (ti f)))).
    exact H1.
  - eapply cpost_bind;
      [apply count_noOmitMapLoop; apply counted_mapStart; exact H |].
    intros e1 H1. simpl.
    eapply counted_mapEnd; [| exact H1]. unfold len. lia.
Qed.

Lemma list_set_bound {A : Type} : forall (l : list A) n x l',
  list_set l n x = Some l' -> (n < List.length l)%nat.
Proof.
  induction l as [| y l IH]; intros [| n] x l' H; simpl in *;
    try discriminate; try lia.
  destruct (list_set l n x) eqn:E; [| discriminate].
  pose proof (IH n x _ E). lia.
Qed.

(** The scratch slice keeps its length, and the number of fields kept
    fits in it. *)
Lemma collectMap_bound n rv recur : forall sfis fkvs newlen fkvs' newlen',
  collectMap w n rv recur sfis fkvs newlen = Collected fkvs' newlen' ->
  (newlen <= List.length fkvs)%nat ->
  (newlen' <= List.length fkvs')%nat.
Proof.
  induction sfis as [| si sfis IH]; intros fkvs newlen fkvs' newlen' Hc Hl;
    simpl in Hc.
  - injection Hc as <- <-. exact Hl.
  - destruct (omitted w n si (field si rv) recur) as [[|] |];
      try discriminate.
    + eapply IH; eassumption.
    + destruct (list_set fkvs newlen _) as [l |] eqn:E; [| discriminate].
      apply (IH _ _ _ _ Hc).
      rewrite (list_set_length _ _ _ _ E).
      pose proof (list_set_bound _ _ _ _ E). lia.
Qed.

Lemma collectArray_length n rv recur : forall sfis j fkvs fkvs' j',
  collectArray w n rv recur sfis j fkvs = Collected fkvs' j' ->
  List.length fkvs' = List.length fkvs.
Proof.
  induction sfis as [| si sfis IH]; intros j fkvs fkvs' j' Hc; simpl in Hc.
  - injection Hc as <- _. reflexivity.
  - destruct (omitted w n si (field si rv) recur) as [o |];
      try discriminate.
    destruct (list_set fkvs j _) as [l |] eqn:E; [| discriminate].
    rewrite (IH _ _ _ _ Hc). apply (list_set_length _ _ _ _ E).
Qed.

Lemma count_kStruct n f rv e0 e d :
  counted w e0 e d ->
  cpost w e0 (d ++ [Drv EncodeNil]) (kStruct h w ev n e f rv).
Proof.
  intros H. unfold kStruct. cbv zeta.
  destruct (structToMap h f).
  - destruct (collectMap _ _ _ _ _ _ _) as [fkvs newlen | |] eqn:Ec;
      try exact I.
    destruct (mfKeep _ _ _ _ _) as [mf |]; [| exact I].
    pose proof (collectMap_bound _ _ _ _ _ _ _ _ Ec (Nat.le_0_l _)) as Hb.
    eapply cpost_bind;
      [apply count_structMapLoop; apply counted_mapStart; exact H |].
    intros e1 H1.
    eapply cpost_bind; [apply count_mfLoop; exact H1 |].
    intros e2 H2. simpl.
    rewrite <- app_assoc, <- nils_app in H2.
    eapply (counted_mapEnd w e0 e2 d); [| exact H2].
    rewrite length_firstn. unfold len. lia.
  - destruct (collectArray _ _ _ _ _ _ _) as [fkvs newlen | |] eqn:Ec;
      try exact I.
    pose proof (collectArray_length _ _ _ _ _ _ _ _ Ec) as Hl.
    rewrite repeat_length in Hl.
    eapply cpost_bind;
      [apply count_structArrayLoop; apply counted_arrayStart; exact H |].
    intros e1 H1. simpl.
    rewrite length_firstn in H1.
    replace (Init.Nat.min (List.length (sfiSrc (ti f))) (List.length fkvs))
      with (List.length (sfiSrc (ti f))) in H1 by lia.
    apply (counted_arrayEnd w e0 e1 d _ H1).
Qed.



Lemma sort_Sort_length {A : Type} (less : A -> A -> bool) (l : list A) :
  List.length (sort_Sort less l) = List.length l.
Proof. apply Permutation_length, sort_Sort_perm. Qed.

Lemma count_canonCase {A : Type} (get : value -> option A) less
  (put : A -> event) rv vf mks e0 e d :
  (forall a, oneValue (put a) = true) ->
  counted w e0 e d ->
  cpost w e0 (d ++ nils (2 * List.length mks))
    (canonCase ev get less put rv vf mks e).
Proof.
  intros Hput H. unfold canonCase.
  destruct (capture get mks) as [mksv |] eqn:E; [| exact I].
  rewrite <- (capture_keys get mks mksv E), length_map.
  rewrite <- (sort_Sort_length (lessRv less) mksv).
  apply count_canonLoop; assumption.
Qed.

Lemma count_kMapCanonical t rv vf kvs e0 e d :
  mapEntries rv = Some kvs ->
  counted w e0 e d ->
  cpost w e0 (d ++ nils (2 * List.length kvs))
    (kMapCanonical h w ev t rv vf e).
Proof.
  intros Hm H. unfold kMapCanonical. rewrite Hm. cbv zeta.
  rewrite <- (length_map fst kvs).
  assert (Hside : cpost w e0 (d ++ nils (2 * List.length (map fst kvs)))
    match encodeKeys h w ev (NewEncoderBytes e) (map fst kvs) with
    | SideOk mksbv _ =>
        canonLoop ev Writeb rv vf (sort_Sort (lessRv bytesLess) mksbv) e
    | SidePanic x => Panic x e
    | SideFuel => OutOfFuel
    end).
  { destruct (encodeKeys _ _ _ _ _) as [mksbv e2 | |] eqn:E; try exact I.
    rewrite <- (encodeKeys_keys h w ev _ _ _ _ E), length_map.
    rewrite <- (sort_Sort_length (lessRv bytesLess) mksbv).
    apply count_canonLoop; [reflexivity | exact H]. }
  destruct (Kind (key t)); try exact Hside;
    try (apply count_canonCase; [reflexivity | exact H]).
  destruct (rtype_eqb (key t) timeTyp); [| exact Hside].
  apply count_canonCase; [reflexivity | exact H].
Qed.

Lemma count_kMap f rv e0 e d :
  counted w e0 e d ->
  cpost w e0 (d ++ [Drv EncodeNil]) (kMap h w ev e f rv).
Proof.
  intros H. unfold kMap.
  destruct (mapEntries rv) as [kvs |] eqn:Em; [| exact I]. cbv zeta.
  destruct (len kvs =? 0) eqn:E0.
  - apply Z.eqb_eq in E0. simpl cpost.
    eapply (counted_mapEnd w e0 _ d _ 0); cycle 1.
    + simpl nils. rewrite app_nil_r. apply counted_mapStart. exact H.
    + rewrite E0. reflexivity.
  - destruct (Canonical h).
    + eapply cpost_bind;
        [apply (count_kMapCanonical _ _ _ kvs); [exact Em |];
         apply counted_mapStart; exact H |].
      intros e1 H1. simpl.
      eapply counted_mapEnd; [| exact H1]. unfold len. lia.
    + eapply cpost_bind;
        [apply count_mapLoop; apply counted_mapStart; exact H |].
      intros e1 H1. simpl.
      eapply counted_mapEnd; [| exact H1]. unfold len. lia.
Qed.

Lemma tick_shape (s : count) : shape [Drv EncodeNil] s = tick s.
Proof. apply shape_one. Qed.

(** A [CodecEncodeSelf] method counts as its steps do. *)
Lemma count_runActions (e0 : Encoder) : forall acts e d0,
  out e = out e0 ++ d0 ->
  match runActions h w ev acts e with
  | Ok e' =>
      exists d, out e' = out e0 ++ d0 ++ d /\
                (scriptsOneValue w ->
                 forall s, shape d s = shapeActions acts s)
  | _ => True
  end.
Proof.
  induction acts as [| [p | iv] acts IH]; intros e d0 Ho;
    cbn [runActions shapeActions].
  - exists []. rewrite app_nil_r. split; [exact Ho | reflexivity].
  - specialize (IH (emit p e) (d0 ++ [Drv p])). simpl in IH.
    rewrite Ho, <- app_assoc in IH. specialize (IH eq_refl).
    destruct (runActions h w ev acts (emit p e)) as [e' | |]; try exact I.
    destruct IH as (d & Ho' & Hs). exists (Drv p :: d). split.
    + rewrite Ho', <- !app_assoc. reflexivity.
    + intros Hw s. cbn [shape].
      destruct (shape1 (Drv p) s); [apply Hs; exact Hw | reflexivity].
  - pose proof (count_MustEncode iv e e [] (counted_refl w e)) as Hm.
    destruct (MustEncode h w ev e iv) as [e1 | |]; simpl in *; try exact I.
    destruct Hm as (d1 & Ho1 & Hs1).
    specialize (IH e1 (d0 ++ d1)).
    rewrite Ho1, Ho, <- app_assoc in IH. specialize (IH eq_refl).
    destruct (runActions h w ev acts e1) as [e' | |]; try exact I.
    destruct IH as (d & Ho' & Hs). exists (d1 ++ d). split.
    + rewrite Ho', <- !app_assoc. reflexivity.
    + intros Hw s. rewrite shape_app, (Hs1 Hw s), tick_shape.
      destruct (tick s); [apply Hs; exact Hw | reflexivity].
Qed.

Lemma count_selfer arg e0 e d :
  counted w e0 e d ->
  cpost w e0 (d ++ [Drv EncodeNil])
    (runActions h w ev (CodecEncodeSelf w arg) e).
Proof.
  intros (d0 & Ho & Hs).
  pose proof (count_runActions e0 (CodecEncodeSelf w arg) e d0 Ho) as H.
  destruct (runActions h w ev (CodecEncodeSelf w arg) e) as [e' | |];
    simpl; try exact I.
  destruct H as (d1 & Ho' & Hs'). exists (d0 ++ d1). split; [exact Ho' |].
  intros Hw s. rewrite shape_app, shape_snoc, (Hs Hw s).
  destruct (shape d s) as [s' |]; [| reflexivity].
  rewrite (Hs' Hw). apply Hw.
Qed.

Lemma count_reading {A : Type} (get : value -> option A) arg
  (put : A -> prim) e0 e d :
  (forall a, oneValue (Drv (put a)) = true) ->
  counted w e0 e d ->
  cpost w e0 (d ++ [Drv EncodeNil]) (reading get arg put e).
Proof.
  intros Hput H. unfold reading.
  destruct arg as [rv | rv]; [| exact I].
  destruct (get rv); count_solve.
Qed.

Lemma count_callFe n f arg e0 e d :
  counted w e0 e d ->
  cpost w e0 (d ++ [Drv EncodeNil]) (callFe h w ev n e f arg).
Proof.
  intros H. unfold callFe, onValue.
  destruct (fe f);
    try (apply count_reading; [reflexivity | exact H]);
    try (apply count_selfer; exact H);
    try (destruct arg; [| count_solve]);
    eauto using count_kChan, count_kSlice, count_kArray, count_kStruct,
      count_kStructNoOmitempty, count_kMap;
    count_solve.
Qed.

Lemma count_encodeValueStep n rv fnv e0 e d :
  counted w e0 e d ->
  cpost w e0 (d ++ [Drv EncodeNil]) (encodeValueStep h w ev n e rv fnv).
Proof.
  intros H. pose proof count_callFe as Hc.
  unfold encodeValueStep, popCi.
  destruct (resolve h w (S n) (ci e) rv None) as [| s | rv' rvp [s |] |];
    count_solve.
Qed.

End CountingHandlers.
(** Every [encodeValue] that returns has written one value. *)
Lemma count_encodeValue : forall n, counting w (encodeValue h w n).
Proof.
  induction n as [| n IH]; intros e0 e d rv f H; [exact I |].
  simpl. apply count_encodeValueStep; assumption.
Qed.

(** X15.  A successful [Encode] writes one value, and every container
    in it holds what it announces: when each [CodecEncodeSelf] method
    writes one value, the events of the encode count as one value,
    each [WriteArrayStart(n)] being followed by exactly [n] values
    before its [WriteArrayEnd] and each [WriteMapStart(n)] by exactly
    [2n] before its [WriteMapEnd]. *)
Theorem Encode_writes_one_value n e v e' d :
  scriptsOneValue w ->
  Encode h w n e v = Some (e', None) ->
  out e' = out e ++ d ->
  (forall s, shape d s = tick s) /\ shape d ([], O) = Some ([], 1%nat).
Proof.
  intros Hw H Hd.
  assert (Hs : forall s, shape d s = tick s).
  { unfold Encode in H.
    pose proof (count_MustEncode _ (count_encodeValue n) v e e []
                  (counted_refl w e)) as Hm.
    destruct (MustEncode h w (encodeValue h w n) e v) as [e1 | |];
      try discriminate.
    injection H as <-. simpl in Hm. destruct Hm as (d1 & Ho & Hs).
    rewrite Ho in Hd. apply app_inv_head in Hd. subst d1.
    intros s. rewrite (Hs Hw s). apply tick_shape. }
  split; [exact Hs | apply Hs].
Qed.

End Counting.

(** ** Marshal methods, and the canonical order as an order of iteration *)

Section Marshalers.

Variable h : BasicHandle.
Variable w : World.

(** X16.  A value encoded by its marshal method: when the method
    returns an error the encode fails and nothing is written for the
    value, whatever bytes came with the error; a nil result is written
    as nil; binary bytes are written as a byte string, text as a
    string, and JSON bytes as they are. *)
Theorem marshal_methods n e v (f : codecFn) :
  resolve h w (S n) (ci e) v None = ToCall v None None ->
  addrE (i f) = false ->
  (fe f = fe_binaryMarshal ->
   encodeValue h w (S n) e v (Some f) =
   match MarshalBinary w (ByValue v) with
   | (_, true) => Panic CustomMarshalFailure e
   | (None, false) => Ok (emit EncodeNil e)
   | (Some bs, false) => Ok (emit (EncodeStringBytesRaw bs) e)
   end) /\
  (fe f = fe_textMarshal ->
   encodeValue h w (S n) e v (Some f) =
   match MarshalText w (ByValue v) with
   | (_, true) => Panic CustomMarshalFailure e
   | (None, false) => Ok (emit EncodeNil e)
   | (Some s, false) => Ok (emit (EncodeString s) e)
   end) /\
  (fe f = fe_jsonMarshal ->
   encodeValue h w (S n) e v (Some f) =
   match MarshalJSON w (ByValue v) with
   | (_, true) => Panic CustomMarshalFailure e
   | (None, false) => Ok (emit EncodeNil e)
   | (Some bs, false) => Ok (emit (Writeb bs) e)
   end).
Proof.
  intros Hr Ha.
  pose proof (encodeValue_direct h w n e v (Some f) Hr Ha) as Hd.
  simpl fnFor in Hd. rewrite Hd. unfold callFe.
  split; [| split]; intros ->.
  - destruct (MarshalBinary w (ByValue v)) as [[bs |] [|]]; reflexivity.
  - destruct (MarshalText w (ByValue v)) as [[bs |] [|]]; reflexivity.
  - destruct (MarshalJSON w (ByValue v)) as [[bs |] [|]]; reflexivity.
Qed.

End Marshalers.

Section SortedNatural.

Variable ev : Encoder -> value -> option codecFn -> result.

Lemma sort_Sort_sorted_id {B : Type} (less : B -> B -> bool) (l : list B) :
  (forall a b, less a b = true -> less b a = false) ->
  (forall a b c, less a b = true -> less b c = true -> less a c = true) ->
  (forall a b, In a l -> In b l ->
               less a b = false -> less b a = false -> a = b) ->
  Sorted (inOrder less) l -> sort_Sort less l = l.
Proof.
  intros Hasym Htrans Htri Hs. symmetry.
  apply (sorted_unique B less Htrans l (sort_Sort less l) Htri).
  - apply Permutation_sym, sort_Sort_perm.
  - exact Hs.
  - apply sort_Sort_sorted. exact Hasym.
Qed.

(** The second loop of the canonical string case on the captured keys
    of the entries [l], and the loop of the natural order on [l]. *)
Lemma canonLoop_mapLoop (rv : value) vf kf : forall l m e,
  capture rvGetString (map fst l) = Some m ->
  (forall k v, In (k, v) l -> mapGet rv k = v) ->
  canonLoop ev (fun s => Drv (EncodeString s)) rv vf m e =
  mapLoop ev true kf vf l e.
Proof.
  induction l as [| [k v] l IH]; intros m e Hc Hg.
  - injection Hc as <-. reflexivity.
  - unfold capture in Hc. simpl in Hc.
    destruct (rvGetString k) as [s |] eqn:Ek; [| discriminate].
    simpl in Hc.
    destruct (mapM (fun k0 => option_map (pair k0) (rvGetString k0))
                (map fst l)) as [m' |] eqn:Em; [| discriminate].
    injection Hc as <-. simpl. rewrite Ek. simpl.
    rewrite (Hg k v (or_introl eq_refl)).
    destruct (ev _ v vf); simpl; try reflexivity.
    apply IH; [exact Em |].
    intros k' v' Hin. apply Hg. right. exact Hin.
Qed.

Lemma value_eqb_string (k : value) (s : string) :
  rvGetString k = Some s -> value_eqb k k = true.
Proof.
  destruct k; simpl; try discriminate. intros _.
  rewrite N.eqb_refl, String.eqb_refl. reflexivity.
Qed.

(** X17.  For a map with string keys the canonical encoding is the
    natural encoding of the entries taken in the order of their keys:
    the [Canonical] option changes the order of the entries and
    nothing else. *)
Theorem canonical_is_natural_in_key_order (hc hn : BasicHandle) (w : World)
  (e : Encoder) (f : codecFnInfo) (id : N)
  (kvs kvs' : list (value * value)) (m' : list (value * string)) :
  Canonical hc = true -> Canonical hn = false -> fn hn = fn hc ->
  key (ti f) = stringTyp ->
  Permutation kvs kvs' ->
  NoDup (map (fun kv => rvGetString (fst kv)) kvs) ->
  capture rvGetString (map fst kvs') = Some m' ->
  Sorted (inOrder (lessRv stringLess)) m' ->
  kMap hc w ev e f (VMap id (Some kvs)) =
  kMap hn w ev e f (VMap id (Some kvs')).
Proof.
  intros Hc Hn Hfn Hk Hp Hnd Hcap Hs.
  assert (Hnd' : NoDup (map (fun kv => rvGetString (fst kv)) kvs')).
  { eapply Permutation_NoDup; [| exact Hnd].
    apply Permutation_map. exact Hp. }
  unfold kMap, mapEntries. cbv zeta.
  assert (Hl : len kvs' = len kvs).
  { unfold len. rewrite (Permutation_length Hp). reflexivity. }
  rewrite Hl. destruct (len kvs =? 0); [reflexivity |].
  rewrite Hc, Hn, Hk. simpl rtype_eqb. cbv iota.
  assert (Hv : kSeqFn hn (elem (ti f)) = kSeqFn hc (elem (ti f))).
  { unfold kSeqFn. rewrite Hfn. reflexivity. }
  rewrite Hv. f_equal.
  unfold kMapCanonical. unfold mapEntries at 1. cbv zeta. rewrite Hk.
  simpl Kind. cbv iota.
  rewrite (canonCase_perm ev rvGetString stringLess _ id kvs kvs' _ _
             stringLess_asym stringLess_trans stringLess_total
             value_eqb_rvGetString Hp Hnd).
  unfold canonCase. rewrite Hcap.
  assert (Hnd2 : NoDup (map snd m')).
  { apply capture_vals in Hcap. rewrite map_map in Hcap.
    rewrite Hcap in Hnd'. rewrite <- (map_map snd Some) in Hnd'.
    apply NoDup_map_inv in Hnd'. exact Hnd'. }
  rewrite sort_Sort_sorted_id.
  - apply canonLoop_mapLoop; [exact Hcap |].
    intros k v Hin. unfold mapGet, mapEntries.
    assert (Hkk : value_eqb k k = true).
    { assert (Hi : In k (map fst kvs')).
      { apply in_map_iff. exists (k, v). split; [reflexivity | exact Hin]. }
      rewrite <- (capture_keys _ _ _ Hcap) in Hi.
      apply in_map_iff in Hi. destruct Hi as [[k0 s] [E Hi]].
      simpl in E. subst k0.
      assert (Hg : In (rvGetString k) (map rvGetString (map fst kvs'))).
      { apply in_map, in_map_iff. exists (k, v).
        split; [reflexivity | exact Hin]. }
      rewrite (capture_vals _ _ _ Hcap) in Hg.
      apply in_map_iff in Hg. destruct Hg as [[k1 s1] [E1 _]].
      simpl in E1. symmetry in E1.
      apply (value_eqb_string k s1 E1). }
    destruct (find (fun kv => value_eqb (fst kv) k) kvs') as [kv |] eqn:Ef.
    + apply find_some in Ef. destruct Ef as [Hin' Heq].
      assert (kv = (k, v)).
      { apply (NoDup_map_eq (fun kv => rvGetString (fst kv)) kvs' kv (k, v)
                 Hnd' Hin' Hin).
        simpl. apply value_eqb_rvGetString. exact Heq. }
      subst kv. reflexivity.
    + exfalso. pose proof (find_none _ _ Ef _ Hin) as Hx. simpl in Hx.
      congruence.
  - intros a b. apply stringLess_asym.
  - intros a b c0. apply stringLess_trans.
  - intros a b Ha Hb H1 H2.
    apply (NoDup_map_eq snd m' a b Hnd2 Ha Hb).
    apply stringLess_total; assumption.
  - exact Hs.
Qed.

End SortedNatural.

(** ** The errors an encode can end with *)

Lemma epost_bind (h : BasicHandle) (r : result) (k : Encoder -> result) :
  epost h r -> (forall e1, ready e1 -> epost h (k e1)) -> epost h (bind r k).
Proof. intros Hr Hk. destruct r as [e1 | x e1 |]; simpl in *; auto. Qed.

(** The encoder is as ready as it was: the steps in between leave the
    error and the handle alone. *)
Ltac ready_state :=
  unfold mapStart, mapEnd, arrayStart, arrayEnd, mapElemKey, mapElemValue,
    arrayElem;
  repeat match goal with
    | |- context [if ?b then _ else _] => destruct b
    end;
  match goal with
  | H : ready _ |- ready _ => exact H
  end.

Create HintDb err_steps.

#[global] Hint Extern 0 (ready _) => ready_state : err_steps.

Ltac err_step :=
  lazymatch goal with
  | |- epost _ (bind _ _) => eapply epost_bind; [| intros ? ?]
  | |- epost _ (Ok _) => simpl epost; ready_state
  | |- epost _ (Panic _ _) =>
      simpl epost; first [reflexivity | assumption]
  | |- epost _ (errorf _ _) => unfold errorf
  | |- epost _ OutOfFuel => exact I
  | |- epost _ (if ?b then _ else _) => destruct b eqn:?
  | |- epost _ (match ?x with _ => _ end) => destruct x eqn:?
  | |- epost _ _ => solve [eauto 3 with err_steps nocore]
  | |- ready _ => ready_state
  end.

Ltac err_solve := cbv zeta; repeat err_step.

Section Errors.

Variable h : BasicHandle.
Variable w : World.

Section ErrorHandlers.

Variable ev : Encoder -> value -> option codecFn -> result.
Hypothesis Hev : careful h ev.

Local Hint Resolve Hev : err_steps.

Lemma err_rawBytes v e : ready e -> epost h (rawBytes h v e).
Proof. intros H. unfold rawBytes. err_solve. Qed.

Lemma err_marshalUtf8 bs fnerr e :
  ready e -> epost h (marshalUtf8 bs fnerr e).
Proof. intros H. unfold marshalUtf8, onerror. err_solve. Qed.

Lemma err_marshalAsis bs fnerr e :
  ready e -> epost h (marshalAsis bs fnerr e).
Proof. intros H. unfold marshalAsis, onerror. err_solve. Qed.

Lemma err_marshalRaw bs fnerr e :
  ready e -> epost h (marshalRaw bs fnerr e).
Proof. intros H. unfold marshalRaw, onerror. err_solve. Qed.

Lemma err_kStructFieldKey kt a name e :
  ready e -> epost h (kStructFieldKey w kt a name e).
Proof. intros H. unfold kStructFieldKey, encStructFieldKey. err_solve. Qed.

Local Hint Resolve err_rawBytes err_marshalUtf8 err_marshalAsis
  err_marshalRaw err_kStructFieldKey : err_steps.

Lemma err_encodeDirect v e : ready e -> epost h (encodeDirect h v e).
Proof. intros H. unfold encodeDirect. err_solve. Qed.

Local Hint Resolve err_encodeDirect : err_steps.

Lemma err_encode iv e : ready e -> epost h (encode h w ev e iv).
Proof.
  intros H. unfold encode.
  destruct iv as [| v | rv]; [err_solve | | err_solve].
  simpl isNil. cbv iota beta. err_solve.
Qed.

Lemma err_MustEncode iv e : ready e -> epost h (MustEncode h w ev e iv).
Proof.
  intros H. pose proof err_encode as Henc. unfold MustEncode.
  destruct H as [He Hh]. rewrite He, Hh. simpl negb. cbv iota.
  assert (H : ready (set_calls (S (calls e)) e)) by (split; assumption).
  err_solve.
Qed.

Local Hint Resolve err_encode err_MustEncode : err_steps.

Lemma err_mbsLoop f : forall xs j e,
  ready e -> epost h (mbsLoop ev f j xs e).
Proof. induction xs as [| x xs IH]; simpl; intros j e H; err_solve. Qed.

Lemma err_seqLoop f : forall xs e, ready e -> epost h (seqLoop ev f xs e).
Proof. induction xs as [| x xs IH]; simpl; intros e H; err_solve. Qed.

Local Hint Resolve err_mbsLoop err_seqLoop : err_steps.

Lemma err_seqWMbs xs t e : ready e -> epost h (seqWMbs h ev xs t e).
Proof. intros H. unfold seqWMbs, haltOnMbsOddLen. err_solve. Qed.

Lemma err_seqW xs t e : ready e -> epost h (seqW h ev xs t e).
Proof. intros H. unfold seqW. err_solve. Qed.

Local Hint Resolve err_seqWMbs err_seqW : err_steps.

Lemma err_kChan f rv e : ready e -> epost h (kChan h w ev e f rv).
Proof.
  intros H.
  unfold kChan, kSliceBytesChan, kSliceWMbs, kSliceW. err_solve.
Qed.

Lemma err_kSlice f rv e : ready e -> epost h (kSlice h ev e f rv).
Proof. intros H. unfold kSlice, kSliceWMbs, kSliceW. err_solve. Qed.

Lemma err_kArray f rv e : ready e -> epost h (kArray h ev e f rv).
Proof. intros H. unfold kArray, kArrayWMbs, kArrayW. err_solve. Qed.

Lemma err_noOmitArrayLoop rv : forall sfis e,
  ready e -> epost h (noOmitArrayLoop ev rv sfis e).
Proof. induction sfis as [| si sfis IH]; simpl; intros e H; err_solve. Qed.

Lemma err_noOmitMapLoop kt rv : forall sfis e,
  ready e -> epost h (noOmitMapLoop w ev kt rv sfis e).
Proof. induction sfis as [| si sfis IH]; simpl; intros e H; err_solve. Qed.

Lemma err_structMapLoop kt : forall kvs e,
  ready e -> epost h (structMapLoop w ev kt kvs e).
Proof. induction kvs as [| kv kvs IH]; simpl; intros e H; err_solve. Qed.

Lemma err_mfLoop kt : forall mf e,
  ready e -> epost h (mfLoop h w ev kt mf e).
Proof. induction mf as [| [k v] mf IH]; simpl; intros e H; err_solve. Qed.

Lemma err_structArrayLoop : forall kvs e,
  ready e -> epost h (structArrayLoop ev kvs e).
Proof. induction kvs as [| kv kvs IH]; simpl; intros e H; err_solve. Qed.

Local Hint Resolve err_noOmitArrayLoop err_noOmitMapLoop
  err_structMapLoop err_mfLoop err_structArrayLoop : err_steps.

Lemma err_kStructNoOmitempty f rv e :
  ready e -> epost h (kStructNoOmitempty h w ev e f rv).
Proof. intros H. unfold kStructNoOmitempty. err_solve. Qed.

Lemma err_kStruct n f rv e : ready e -> epost h (kStruct h w ev n e f rv).
Proof. intros H. unfold kStruct. err_solve. Qed.

Lemma err_mapLoop ks kf vf : forall kvs e,
  ready e -> epost h (mapLoop ev ks kf vf kvs e).
Proof. induction kvs as [| [k v] kvs IH]; simpl; intros e H; err_solve. Qed.

Lemma err_canonLoop {A : Type} (put : A -> event) rv vf : forall mksv e,
  ready e -> epost h (canonLoop ev put rv vf mksv e).
Proof.
  induction mksv as [| [r v] mksv IH]; simpl; intros e H; err_solve.
Qed.

Lemma err_canonCase {A : Type} (get : value -> option A) less
  (put : A -> event) rv vf mks e :
  ready e -> epost h (canonCase ev get less put rv vf mks e).
Proof.
  intros H. unfold canonCase.
  destruct (capture get mks); [| err_solve].
  apply err_canonLoop; assumption.
Qed.

(** The second encoder fails as the first would. *)
Lemma err_encodeKeys : forall mks e2,
  ready e2 ->
  match encodeKeys h w ev e2 mks with
  | SidePanic x => possible h x = true
  | _ => True
  end.
Proof.
  induction mks as [| k mks IH]; simpl; intros e2 H; [exact I |].
  pose proof (err_MustEncode (IReflect k) e2 H) as Hm.
  destruct (MustEncode h w ev e2 (IReflect k)) as [e3 | x e3 |];
    simpl in Hm; [| exact Hm | exact I].
  specialize (IH e3 Hm).
  destruct (encodeKeys h w ev e3 mks); [exact I | exact IH | exact I].
Qed.

Lemma err_kMapCanonical t rv vf e :
  ready e -> epost h (kMapCanonical h w ev t rv vf e).
Proof.
  intros H. unfold kMapCanonical.
  destruct (mapEntries rv); [| err_solve]. cbv zeta.
  assert (Hside : epost h
    match encodeKeys h w ev (NewEncoderBytes e) (map fst l) with
    | SideOk mksbv _ =>
        canonLoop ev Writeb rv vf (sort_Sort (lessRv bytesLess) mksbv) e
    | SidePanic x => Panic x e
    | SideFuel => OutOfFuel
    end).
  { assert (H2 : ready (NewEncoderBytes e)).
    { destruct H as [_ Hh]. split; [reflexivity | exact Hh]. }
    pose proof (err_encodeKeys (map fst l) _ H2) as Hk.
    destruct (encodeKeys _ _ _ _ _); [| exact Hk | exact I].
    apply err_canonLoop. exact H. }
  destruct (Kind (key t)); try exact Hside;
    try (apply err_canonCase; exact H).
  destruct (rtype_eqb (key t) timeTyp); [| exact Hside].
  apply err_canonCase; exact H.
Qed.

Local Hint Resolve err_mapLoop err_kMapCanonical : err_steps.

Lemma err_kMap f rv e : ready e -> epost h (kMap h w ev e f rv).
Proof. intros H. unfold kMap. err_solve. Qed.

Lemma err_runActions : forall acts e,
  ready e -> epost h (runActions h w ev acts e).
Proof.
  induction acts as [| [p | iv] acts IH]; simpl; intros e H; err_solve.
Qed.

Lemma err_reading {A : Type} (get : value -> option A) arg
  (put : A -> prim) e :
  ready e -> epost h (reading get arg put e).
Proof. intros H. unfold reading. err_solve. Qed.

Lemma err_callFe n f arg e : ready e -> epost h (callFe h w ev n e f arg).
Proof.
  intros H. unfold callFe, onValue.
  destruct (fe f);
    try (apply err_reading; exact H);
    try (apply err_runActions; exact H);
    try (destruct arg; [| err_solve]);
    eauto using err_kChan, err_kSlice, err_kArray, err_kStruct,
      err_kStructNoOmitempty, err_kMap;
    err_solve.
Qed.

Lemma resolve_circular : forall n stack rv rvp s,
  resolve h w n stack rv rvp = ToCircular s -> CheckCircularRef h = true.
Proof.
  induction n as [| n IH]; intros stack rv rvp s H; [discriminate |].
  destruct rv as [ | | | | | | | | | id el [a |] | id [x |] | ? [l |] |
                   | ? [l |] | ? [l |] | | ]; simpl in H; try discriminate.
  - fold (deref w id el a) in H.
    destruct (CheckCircularRef h); [reflexivity |]. simpl in H.
    eapply IH. exact H.
  - eapply IH. exact H.
Qed.

Lemma err_encodeValueStep n rv fnv e :
  ready e -> epost h (encodeValueStep h w ev n e rv fnv).
Proof.
  intros H. pose proof err_callFe as Hc.
  unfold encodeValueStep, popCi.
  destruct (resolve h w (S n) (ci e) rv None) as [| s | rv' rvp [s |] |]
    eqn:Er; try (err_solve; fail).
  simpl. eapply resolve_circular. exact Er.
Qed.

End ErrorHandlers.

Lemma err_encodeValue : forall n, careful h (encodeValue h w n).
Proof.
  induction n as [| n IH]; intros e rv f H; [exact I |].
  simpl. apply err_encodeValueStep; assumption.
Qed.

(** X18.  The errors an [Encode] ends with, on an encoder that holds
    no error and has a handle: never the uninitialized-encoder error
    nor the missing-handle error; the circular-reference error only
    when [CheckCircularRef] is on, and the Raw-disallowed error only
    when [Raw] is off. *)
Theorem Encode_errors n e v e' x :
  err e = None -> hh e = true ->
  Encode h w n e v = Some (e', Some x) ->
  x <> UninitializedEncoder /\ x <> NoFormatHandle /\
  (x = CircularReference -> CheckCircularRef h = true) /\
  (x = RawDisallowed -> Raw h = false).
Proof.
  intros He Hh H. unfold Encode in H.
  pose proof (err_MustEncode _ (err_encodeValue n) v e (conj He Hh)) as Hp.
  destruct (MustEncode h w (encodeValue h w n) e v) as [e1 | y e1 |];
    try discriminate.
  injection H as _ <-. simpl in Hp.
  repeat split; try (intros ->; discriminate Hp).
  - intros ->. exact Hp.
  - intros ->. simpl in Hp. apply negb_true_iff in Hp. exact Hp.
Qed.

End Errors.

(** * The engine and the theorems at the concrete values *)

Module Witnesses.

Import Examples.
Local Open Scope string_scope.
Local Open Scope list_scope.

(** The flattened pairs of section 8: two entries from four elements,
    a failure from three. *)
Example pairs_of_four :
  run 5 (IVal (VSlice 7 (Some [str "a"; num 1; str "b"; num 2]))) =
  Some ([Drv (WriteMapStart 2); Drv (EncodeString "a"); Drv (EncodeInt 1);
         Drv (EncodeString "b"); Drv (EncodeInt 2); Drv WriteMapEnd;
         AtEndOfEncode; WriterEnd], None).
Proof. vm_compute. reflexivity. Qed.

Example pairs_of_three :
  run 5 (IVal (VSlice 7 (Some [str "a"; num 1; str "b"]))) =
  Some ([], Some MalformedFlattenedSequence).
Proof. vm_compute. reflexivity. Qed.

(** A struct that points to itself: the second visit is refused; with
    the check off the encode never ends, whatever the fuel. *)
Example self_reference_detected :
  run 9 (IVal selfRef) =
  Some ([Drv (WriteMapStart 1); Drv (EncodeString "Self")],
        Some CircularReference).
Proof. vm_compute. reflexivity. Qed.

Lemma self_reference_unchecked_never_ends :
  forall n e, encodeValue exNoCheck exW n e selfRef None = OutOfFuel.
Proof.
  induction n as [| m IH]; intros e; [reflexivity |].
  destruct m as [| k]; [reflexivity |].
  change (encodeValueStep exNoCheck exW (encodeValue exNoCheck exW (S k))
            (S k) e selfRef None = OutOfFuel).
  remember (encodeValue exNoCheck exW (S k)) as ev eqn:Eev.
  destruct e as [o c0 c1 c2 er hh0 [|]]; cbv; rewrite IH; reflexivity.
Qed.

Lemma self_reference_unchecked_Encode :
  forall n, Encode exNoCheck exW n e0 (IVal selfRef) = None.
Proof.
  intros n. unfold Encode, MustEncode. simpl err. simpl hh. cbv iota.
  simpl negb. cbv iota.
  change (encode exNoCheck exW (encodeValue exNoCheck exW n)
            (set_calls (S (calls e0)) e0) (IVal selfRef))
    with (encodeValue exNoCheck exW n (set_calls (S (calls e0)) e0)
            selfRef None).
  rewrite self_reference_unchecked_never_ends. reflexivity.
Qed.

Example rec_as_map :
  run 5 (IVal (recValue 11)) =
  Some ([Drv (WriteMapStart 1); Drv (EncodeString "b");
         Drv (EncodeString "x"); Drv WriteMapEnd; AtEndOfEncode; WriterEnd],
        None).
Proof. vm_compute. reflexivity. Qed.

Example rec_as_array :
  run 5 (IVal (recValue 12)) =
  Some ([Drv (WriteArrayStart 3); Drv (EncodeInt 0); Drv (EncodeString "x");
         Drv EncodeNil; Drv WriteArrayEnd; AtEndOfEncode; WriterEnd], None).
Proof. vm_compute. reflexivity. Qed.

Example map_by_int_sorted :
  run 5 (IVal (VMap 20 (Some byIntEntries))) =
  Some ([Drv (WriteMapStart 3);
         Drv (EncodeInt 1); Drv (EncodeString "a");
         Drv (EncodeInt 2); Drv (EncodeString "b");
         Drv (EncodeInt 3); Drv (EncodeString "c");
         Drv WriteMapEnd; AtEndOfEncode; WriterEnd], None).
Proof. vm_compute. reflexivity. Qed.

Example map_by_array_sorted :
  run 6 (IVal (VMap 21 (Some byArr))) =
  Some ([Drv (WriteMapStart 2);
         Writeb [1; 5]; Drv (EncodeString "p");
         Writeb [2; 1]; Drv (EncodeString "q");
         Drv WriteMapEnd; AtEndOfEncode; WriterEnd], None).
Proof. vm_compute. reflexivity. Qed.

(** A type that encodes itself and calls [MustEncode] again. *)
Example nested_encode_finalizes_once :
  run 5 (IVal (VStruct 50 [])) =
  Some ([Drv (WriteArrayStart 1); Drv (EncodeInt 7); Drv WriteArrayEnd;
         AtEndOfEncode; WriterEnd], None).
Proof. vm_compute. reflexivity. Qed.

Example function_value_is_nil :
  run 1 (IVal (VFunc 60 false)) =
  Some ([Drv EncodeNil; AtEndOfEncode; WriterEnd], None).
Proof. vm_compute. reflexivity. Qed.

Example complex_value_unsupported :
  run 1 (IVal (VComplex 0 true S754_nan S754_nan)) =
  Some ([], Some UnsupportedValue).
Proof. vm_compute. reflexivity. Qed.

Example nil_send_only_channel_is_nil :
  run 1 (IVal (VChan 40 None)) =
  Some ([Drv EncodeNil; AtEndOfEncode; WriterEnd], None).
Proof. vm_compute. reflexivity. Qed.

Example send_only_channel_fails :
  run 2 (IVal (VChan 40 (Some [VInt 0 IInt 1]))) =
  Some ([], Some SendOnlyChannel).
Proof. vm_compute. reflexivity. Qed.

Lemma mapBySlice_witness :
  (Z.odd (len three) = true /\
   encodeValue exH exW 3 e0 (VSlice 7 (Some three)) (Some (exFn Pairs)) =
   Panic MalformedFlattenedSequence e0) /\
  (Z.even (len four) = true /\
   encodeValue exH exW 3 e0 (VSlice 7 (Some four)) (Some (exFn Pairs)) =
   (e1 <- emitPairs (encodeValue exH exW 2)
            (kSeqFn exH (elem (ti (i (exFn Pairs))))) four
            (mapStart (len four / 2) e0) ;;
    Ok (mapEnd e1))).
Proof.
  destruct (mapBySlice_even_pairs_odd_fails exH exW) as (_ & _ & H & _).
  split; (split; [reflexivity |]).
  - destruct (H 2%nat e0 7%N three (Some (exFn Pairs)) eq_refl eq_refl
                eq_refl) as (Ho & _). apply Ho. reflexivity.
  - destruct (H 2%nat e0 7%N four (Some (exFn Pairs)) eq_refl eq_refl
                eq_refl) as (_ & He & _). apply He. reflexivity.
Defined.

Lemma canonical_map_witness :
  Canonical exH = true /\
  isIntKind (Kind (key (ti (i (exFn ByInt))))) = true /\
  capture rvInt (map fst byIntEntries) = Some byIntKeys /\
  sortedOutput exH exW (encodeValue exH exW 3) int64Less
    (fun v => Drv (EncodeInt v)) e0 (i (exFn ByInt))
    (VMap 20 (Some byIntEntries)) byIntEntries byIntKeys.
Proof.
  split; [reflexivity |]. split; [reflexivity |]. split; [reflexivity |].
  destruct (canonical_map_sorted_by_key_kind exH exW
              (encodeValue exH exW 3) e0 (i (exFn ByInt)) 20%N byIntEntries
              eq_refl) as (_ & _ & _ & H & _).
  exact (H eq_refl byIntKeys eq_refl).
Defined.

Lemma struct_array_witness :
  structToMap exH (i (exFn RecArr)) = false /\
  arrayValues exW 2 (recValue 12) (RecursiveEmptyCheck exH)
    (sfiSrc (ti (i (exFn RecArr)))) = Some recArrValues /\
  kStruct exH exW (encodeValue exH exW 3) 2 e0 (i (exFn RecArr))
    (recValue 12) =
  (e1 <- seqLoop (encodeValue exH exW 3) None recArrValues
           (arrayStart (len (sfiSrc (ti (i (exFn RecArr))))) e0) ;;
   Ok (arrayEnd e1)).
Proof.
  split; [reflexivity |]. split; [reflexivity |].
  exact (proj1 (struct_array_mode_keeps_positions exH exW
                  (encodeValue exH exW 3) 2 e0 (i (exFn RecArr))
                  (recValue 12) recArrValues eq_refl eq_refl)).
Defined.

Lemma struct_map_witness :
  structToMap exH (i (exFn Rec)) = true /\
  (List.length (kStructSfi exH (i (exFn Rec))) <=
   List.length (missingFields exW (i (exFn Rec)) (recValue 11)) +
   List.length (sfiSrc (ti (i (exFn Rec)))))%nat /\
  keptFields exW 2 (recValue 11) (RecursiveEmptyCheck exH)
    (kStructSfi exH (i (exFn Rec))) = Some recKept /\
  mfKeep exW 2 (RecursiveEmptyCheck exH)
    (infoFieldOmitempty (ti (i (exFn Rec))))
    (missingFields exW (i (exFn Rec)) (recValue 11)) = Some [] /\
  kStruct exH exW (encodeValue exH exW 3) 2 e0 (i (exFn Rec)) (recValue 11) =
  (e1 <- noOmitMapLoop exW (encodeValue exH exW 3)
           (keyType (ti (i (exFn Rec)))) (recValue 11) recKept
           (mapStart (len recKept + len (@nil (string * iface))) e0) ;;
   e2 <- mfLoop exH exW (encodeValue exH exW 3)
           (keyType (ti (i (exFn Rec)))) [] e1 ;;
   Ok (mapEnd e2)).
Proof.
  assert (Hl : (List.length (kStructSfi exH (i (exFn Rec))) <=
                List.length (missingFields exW (i (exFn Rec)) (recValue 11)) +
                List.length (sfiSrc (ti (i (exFn Rec)))))%nat).
  { simpl. lia. }
  split; [reflexivity |]. split; [exact Hl |].
  split; [reflexivity |]. split; [reflexivity |].
  exact (proj1 (struct_map_mode_omits_empty exH exW
                  (encodeValue exH exW 3) 2 e0 (i (exFn Rec)) (recValue 11)
                  recKept [] eq_refl Hl eq_refl eq_refl)).
Defined.

Lemma circular_reference_witness :
  CheckCircularRef exH = true /\
  rvKind (deref exW 0 T 1) = Struct /\
  In selfPtr (ci onPath) /\
  encodeValue exH exW 3 onPath (VPtr 0 T (Some 1%N)) None =
  Panic CircularReference onPath.
Proof.
  split; [reflexivity |]. split; [reflexivity |].
  assert (Hin : In selfPtr (ci onPath)) by (simpl; left; reflexivity).
  split; [exact Hin |].
  exact (proj1 (circular_reference_stack exH exW 2 onPath 0%N T 1%N None
                  eq_refl eq_refl) Hin).
Defined.

Lemma nil_witness :
  nilWithin exW 1 (VPtr 0 uint8SliceTyp (Some 2%N)) = true /\
  (1 <= 1)%nat /\
  encodeValue exH exW 2 e0 (VPtr 0 uint8SliceTyp (Some 2%N)) None =
  Ok (emit EncodeNil e0).
Proof.
  split; [reflexivity |]. split; [lia |].
  exact (proj1 (encodeValue_nil_emits_nil exH exW) 1%nat 1%nat e0
           (VPtr 0 uint8SliceTyp (Some 2%N)) None eq_refl (le_n 1)).
Defined.

Lemma unsupported_witness :
  resolve exH exW 1 (ci e0) cplx None = ToCall cplx None None /\
  fe (fnFor exH None cplx) = fe_kErr /\
  encodeValue exH exW 1 e0 cplx None = Panic UnsupportedValue e0.
Proof.
  split; [reflexivity |]. split; [reflexivity |].
  exact (proj1 (unsupported_kind_fails_func_is_nil exH exW) 0%nat e0 cplx
           cplx None None eq_refl eq_refl).
Defined.

(** The claim C7 as it is written fails at a function value: its kind
    has no strategy but [kErr] in this handle, and yet [Encode] returns
    no error. *)
Lemma function_value_counterexample :
  fe (fn exH (rvType (VFunc 60 false))) = fe_kErr /\
  option_map snd (Encode exH exW 1 e0 (IVal (VFunc 60 false))) = Some None /\
  ~ (exists e', encodeValue exH exW 1 e0 (VFunc 60 false) None =
                Panic UnsupportedValue e').
Proof.
  split; [reflexivity |]. split; [reflexivity |].
  intros [e' H]. discriminate H.
Qed.

Lemma sendOnly_witness :
  Z.land (chandir (ti (i (exFn SendOnly)))) RecvDir = 0 /\
  fe (exFn SendOnly) = fe_kChan /\
  addrE (i (exFn SendOnly)) = false /\
  encodeValue exH exW 1 e0 (VChan 40 (Some [VInt 0 IInt 1])) None =
  Panic SendOnlyChannel e0.
Proof.
  split; [reflexivity |]. split; [reflexivity |]. split; [reflexivity |].
  exact (proj2 (sendOnly_channel_fails exH exW) 0%nat e0 40%N
           [VInt 0 IInt 1] None eq_refl eq_refl eq_refl).
Defined.

Lemma mustEncode_witness :
  MustEncode exH exW (encodeValue exH exW 4) e0 selfValue = Ok selfDone /\
  exists e1 d,
    encode exH exW (encodeValue exH exW 4) (set_calls (S (calls e0)) e0)
      selfValue = Ok e1 /\
    calls e1 = S (calls e0) /\
    out e1 = out e0 ++ d /\ nofinal d /\
    calls selfDone = calls e0 /\
    out selfDone = out e0 ++ d ++
                   (if Nat.eqb (calls e0) 0 then [AtEndOfEncode; WriterEnd]
                    else []).
Proof.
  assert (H : MustEncode exH exW (encodeValue exH exW 4) e0 selfValue =
              Ok selfDone) by (vm_compute; reflexivity).
  split; [exact H |].
  exact (mustEncode_finalizes_outermost_only exH exW 4 e0 selfValue selfDone
           H).
Defined.

Lemma ptr_to_bytes_witness :
  deref exW 0 uint8SliceTyp 2 = VSlice 0 None /\
  encode exH exW (encodeValue exH exW 1) e0
    (IVal (VPtr 0 uint8SliceTyp (Some 2%N))) = Ok (emit EncodeNil e0) /\
  Encode exH exW 1 e0 (IVal (VPtr 0 uint8SliceTyp (Some 2%N))) =
  Encode exH exW 1 e0 (IVal (VSlice 0 None)).
Proof.
  split; [reflexivity |].
  exact (proj1 (encode_ptr_to_bytes exH exW (encodeValue exH exW 1) 1 e0 2%N)
           eq_refl).
Defined.

End Witnesses.

(** * The further properties at the concrete values *)

Module MoreWitnesses.

Import Examples.

Local Open Scope string_scope.
Local Open Scope list_scope.

Lemma Encode_only_appends_witness :
  Encode exH exW 4 e0 (IVal mixed) =
    Some (halfWritten, Some UnsupportedValue) /\
  (exists d, out halfWritten = out e0 ++ d) /\
  err halfWritten = Some UnsupportedValue /\
  hh halfWritten = hh e0 /\ js halfWritten = js e0.
Proof.
  assert (H : Encode exH exW 4 e0 (IVal mixed) =
              Some (halfWritten, Some UnsupportedValue))
    by (vm_compute; reflexivity).
  split; [exact H |].
  exact (Encode_only_appends exH exW 4 e0 (IVal mixed) halfWritten
           (Some UnsupportedValue) H).
Defined.

Lemma no_json_calls_witness :
  js e0 = false /\
  Encode exH exW 4 e0 (IVal (recValue 11)) = Some (recDone, None) /\
  forall ev, In ev (out recDone) -> jsonOnly ev = false.
Proof.
  assert (H : Encode exH exW 4 e0 (IVal (recValue 11)) =
              Some (recDone, None)) by (vm_compute; reflexivity).
  split; [reflexivity |]. split; [exact H |].
  exact (no_json_calls_unless_json exH exW 4 e0 (IVal (recValue 11))
           recDone None (out recDone) eq_refl H eq_refl).
Defined.

Lemma containers_well_nested_witness :
  scriptsNested exW /\
  Encode exH exW 4 e0 selfValue = Some (selfDone, None) /\
  forall st, nest (out selfDone) st = Some st.
Proof.
  assert (Hw : scriptsNested exW) by (intros arg st; reflexivity).
  assert (H : Encode exH exW 4 e0 selfValue = Some (selfDone, None))
    by (vm_compute; reflexivity).
  split; [exact Hw |]. split; [exact H |].
  exact (containers_well_nested exH exW 4 e0 selfValue selfDone
           (out selfDone) Hw H eq_refl).
Defined.

Lemma error_sticks_witness :
  Encode exH exW 4 e0 (IVal mixed) =
    Some (halfWritten, Some UnsupportedValue) /\
  Encode exH exW 4 halfWritten (IVal (VInt 0 IInt 1)) =
    Some (halfWritten, Some UnsupportedValue) /\
  Reset (Some tt) halfWritten = e0.
Proof.
  assert (H : Encode exH exW 4 e0 (IVal mixed) =
              Some (halfWritten, Some UnsupportedValue))
    by (vm_compute; reflexivity).
  destruct (error_sticks_until_reset exH exW 4 e0 (IVal mixed) halfWritten
              UnsupportedValue H) as (Hs & _ & Hr).
  split; [exact H |]. split; [apply Hs |].
  destruct (Hr unit tt) as (Hr1 & _). rewrite Hr1. reflexivity.
Defined.

Lemma canonical_order_witness :
  Permutation byIntEntries byIntSwapped /\
  kMap exH exW (encodeValue exH exW 3) e0 (i (exFn ByInt))
    (VMap 20 (Some byIntEntries)) =
  kMap exH exW (encodeValue exH exW 3) e0 (i (exFn ByInt))
    (VMap 20 (Some byIntSwapped)).
Proof.
  assert (Hp : Permutation byIntEntries byIntSwapped) by apply perm_swap.
  split; [exact Hp |].
  apply (canonical_map_any_iteration_order exH exW (encodeValue exH exW 3)
           e0 (i (exFn ByInt)) 20 byIntEntries byIntSwapped eq_refl eq_refl
           Hp).
  repeat constructor; simpl; intuition discriminate.
Defined.

Lemma Encode_ignores_witness :
  match Encode exH exW 4 e0 (IVal mixed),
        Encode exH exW 4 recDone (IVal mixed) with
  | Some (a', r), Some (b', r') =>
      r = r' /\ exists d, out a' = out e0 ++ d /\ out b' = out recDone ++ d
  | None, None => True
  | _, _ => False
  end.
Proof.
  exact (Encode_ignores_earlier_output exH exW 4 (IVal mixed) e0 recDone
           eq_refl eq_refl eq_refl eq_refl eq_refl).
Defined.

Lemma Encode_twice_witness :
  Encode exH exW 4 e0 (IVal (recValue 11)) = Some (recDone, None) /\
  Encode exH exW 4 e0 selfValue = Some (selfDone, None) /\
  exists e12,
    Encode exH exW 4 recDone selfValue = Some (e12, None) /\
    out e12 = out e0 ++ out recDone ++ out selfDone.
Proof.
  assert (H1 : Encode exH exW 4 e0 (IVal (recValue 11)) =
               Some (recDone, None)) by (vm_compute; reflexivity).
  assert (H2 : Encode exH exW 4 e0 selfValue = Some (selfDone, None))
    by (vm_compute; reflexivity).
  split; [exact H1 |]. split; [exact H2 |].
  exact (Encode_twice exH exW 4 e0 (IVal (recValue 11)) selfValue recDone
           selfDone None (out recDone) (out selfDone) H1 H2 eq_refl eq_refl).
Defined.

Lemma interface_witness :
  encodeValue exH exW 2 e0 (num 5) None =
  encodeValue exH exW 2 e0 (VInt 0 IInt 5) None.
Proof.
  apply (interface_is_transparent exH exW 0 e0 0%N (VInt 0 IInt 5) None).
  vm_compute. discriminate.
Defined.

Lemma pointer_witness :
  deref exW 0 uint8SliceTyp 3 = bytesOf [104; 105] /\
  encodeValue exH exW 2 e0 (VPtr 0 uint8SliceTyp (Some 3%N)) None =
  encodeValue exH exW 2 e0 (bytesOf [104; 105]) None.
Proof.
  split; [reflexivity |].
  apply (pointer_is_transparent exH exW 0 e0 0%N uint8SliceTyp 3%N None).
  - reflexivity.
  - intros rv. reflexivity.
  - vm_compute. discriminate.
Defined.

Lemma type_switch_witness :
  encode exH exW (encodeValue exH exW 1) e0 (IVal (VInt 0 IInt 7)) =
    encodeValue exH exW 1 e0 (VInt 0 IInt 7) None /\
  encodeValue exH exW 1 e0 (VInt 0 IInt 7) None =
    Ok (emit (EncodeInt 7) e0).
Proof.
  exact (type_switch_agrees exH exW 0 e0 (VInt 0 IInt 7) (EncodeInt 7)
           eq_refl eq_refl eq_refl).
Defined.

Lemma Raw_witness :
  Raw exH = false /\
  encode exH rawW (encodeValue exH rawW 1) e0
    (IVal (VSlice 1 (Some [VUint 0 UUint8 1]))) = Panic RawDisallowed e0 /\
  encode exH rawW (encodeValue exH rawW 1) e0 (IVal (VSlice 1 None)) =
    Ok (emit EncodeNil e0) /\
  encode exH rawW (encodeValue exH rawW 1) e0
    (IVal (VPtr 0 rawTyp (Some 1%N))) = Panic RawDisallowed e0 /\
  encodeValue exH rawW 2 e0 (VPtr 0 rawTyp (Some 1%N)) None =
    Ok (emit EncodeNil e0).
Proof.
  split; [reflexivity |].
  exact (Raw_by_type_switch exH rawW (encodeValue exH rawW 1) e0
           [VUint 0 UUint8 1] [1] 1%N 0 eq_refl eq_refl).
Defined.

Lemma struct_strategies_witness :
  callFe exH exW (encodeValue exH exW 3) 3 e0
    (mkCodecFn (i (exFn T)) fe_kStruct) (ByValue (VStruct 10 [num 1])) =
  callFe exH exW (encodeValue exH exW 3) 3 e0
    (mkCodecFn (i (exFn T)) fe_kStructNoOmitempty)
    (ByValue (VStruct 10 [num 1])).
Proof.
  apply (struct_strategies_agree exH exW (encodeValue exH exW 3) 3 e0
           (i (exFn T)) (ByValue (VStruct 10 [num 1]))
           eq_refl eq_refl eq_refl eq_refl).
  apply le_n.
Defined.


Lemma one_value_witness :
  scriptsOneValue exW /\
  Encode exH exW 4 e0 selfValue = Some (selfDone, None) /\
  (forall s, shape (out selfDone) s = tick s) /\
  shape (out selfDone) ([], O) = Some ([], 1%nat).
Proof.
  assert (Hw : scriptsOneValue exW).
  { intros arg [[| [b k] st] j]; [reflexivity |].
    cbv. destruct k; reflexivity. }
  assert (H : Encode exH exW 4 e0 selfValue = Some (selfDone, None))
    by (vm_compute; reflexivity).
  split; [exact Hw |]. split; [exact H |].
  exact (Encode_writes_one_value exH exW 4 e0 selfValue selfDone
           (out selfDone) Hw H eq_refl).
Defined.

Lemma marshal_witness :
  MarshalText failingW (ByValue (VStruct 10 [])) = (Some "x", true) /\
  encodeValue exH failingW 1 e0 (VStruct 10 []) (Some byText) =
  Panic CustomMarshalFailure e0.
Proof.
  split; [reflexivity |].
  destruct (marshal_methods exH failingW 0 e0 (VStruct 10 []) byText
              eq_refl eq_refl) as (_ & H & _).
  exact (H eq_refl).
Defined.

Lemma canonical_natural_witness :
  Permutation byStringEntries byStringInOrder /\
  kMap exH exW (encodeValue exH exW 3) e0 (i (exFn ByString))
    (VMap 22 (Some byStringEntries)) =
  kMap exNatural exW (encodeValue exH exW 3) e0 (i (exFn ByString))
    (VMap 22 (Some byStringInOrder)).
Proof.
  assert (Hp : Permutation byStringEntries byStringInOrder)
    by apply perm_swap.
  split; [exact Hp |].
  apply (canonical_is_natural_in_key_order (encodeValue exH exW 3)
           exH exNatural exW e0 (i (exFn ByString)) 22
           byStringEntries byStringInOrder byStringKeys
           eq_refl eq_refl eq_refl eq_refl Hp).
  - repeat constructor; simpl; intuition discriminate.
  - reflexivity.
  - repeat constructor.
Defined.

Lemma Encode_errors_witness :
  Encode exH exW 4 e0 (IVal selfRef) =
    Some (caughtInCycle, Some CircularReference) /\
  CheckCircularRef exH = true.
Proof.
  assert (H : Encode exH exW 4 e0 (IVal selfRef) =
              Some (caughtInCycle, Some CircularReference))
    by (vm_compute; reflexivity).
  split; [exact H |].
  destruct (Encode_errors exH exW 4 e0 (IVal selfRef) caughtInCycle
              CircularReference eq_refl eq_refl H) as (_ & _ & Hc & _).
  exact (Hc eq_refl).
Defined.

End MoreWitnesses.
